(** * Contract analysis pipeline: a shallow embedding of [main.py]

    The rule-based stages of the analyser are embedded as Rocq functions:
    [normalize_language], [classify_contract], [extract_clauses],
    [extract_entities], [risk_analysis] and the aggregation into the overall
    tier.  Python strings are sequences of Unicode code points; the regular
    expressions of the source are values of a small regex syntax, run by a
    backtracking matcher that follows the search order of Python's [re]. *)

From Stdlib Require Import String Ascii NArith ZArith Bool Lia.
From Stdlib Require Import Floats.SpecFloat.
From stdpp Require Import base option list gmap.

Local Open Scope N_scope.
Local Open Scope list_scope.

(** ** Strings *)

(** A Python [str] is a list of code points. *)
Abbreviation str := (list N) (only parsing).

(** [u "abc"] is the [str] of an ASCII literal of the source. *)
Fixpoint u (s : string) : str :=
  match s with
  | EmptyString => []
  | String a s' => N_of_ascii a :: u s'
  end.

Definition in_range (lo hi c : N) : bool := (lo <=? c) && (c <=? hi).

(** [str.isspace] on one code point: what [\s] matches in a [str] pattern
    and what [str.strip()] removes. *)
Definition is_space (c : N) : bool :=
  in_range 9 13 c || in_range 28 32 c || (c =? 133) || (c =? 160)
  || (c =? 5760) || in_range 8192 8202 c || (c =? 8232) || (c =? 8233)
  || (c =? 8239) || (c =? 8287) || (c =? 12288).

Definition is_ascii (c : N) : bool := c <? 128.
Definition is_AZ (c : N) : bool := in_range 65 90 c.
Definition is_az (c : N) : bool := in_range 97 122 c.
Definition is_09 (c : N) : bool := in_range 48 57 c.

(** The tables of the interpreter's Unicode database that the source
    consults through [\d], [\b] and [str.lower].  They are used for
    non-ASCII input only; every result below holds for all of them. *)
Record unicode_data := UnicodeData {
  uni_decimal : N → bool;      (* [\d] beyond ASCII *)
  uni_alnum : N → bool;        (* [str.isalnum] beyond ASCII *)
  uni_lower : str → str        (* [str.lower] of a text with non-ASCII code points *)
}.

(** The database that knows no digit or letter beyond ASCII. *)
Definition ascii_only : unicode_data :=
  {| uni_decimal := λ _, false; uni_alnum := λ _, false; uni_lower := λ s, s |}.

Definition is_digit (U : unicode_data) (c : N) : bool :=
  if is_ascii c then is_09 c else uni_decimal U c.

(** [\w]: alphanumeric or underscore. *)
Definition is_word (U : unicode_data) (c : N) : bool :=
  if is_ascii c then is_AZ c || is_az c || is_09 c || (c =? 95)
  else uni_alnum U c.

Definition lower_ascii (c : N) : N := if is_AZ c then c + 32 else c.

(** [text.lower()] *)
Definition py_lower (U : unicode_data) (s : str) : str :=
  if forallb is_ascii s then map lower_ascii s else uni_lower U s.

(** [a == b] *)
Fixpoint str_eqb (a b : str) : bool :=
  match a, b with
  | [], [] => true
  | x :: a', y :: b' => (x =? y) && str_eqb a' b'
  | _, _ => false
  end.

(** [a.startswith(k)] *)
Fixpoint starts_with (k s : str) : bool :=
  match k, s with
  | [], _ => true
  | _ :: _, [] => false
  | a :: k', b :: s' => (a =? b) && starts_with k' s'
  end.

(** [k in s] for strings: [k] occurs in [s] as a substring. *)
Fixpoint str_in (k s : str) : bool :=
  starts_with k s ||
  match s with
  | [] => false
  | _ :: s' => str_in k s'
  end.

(** [s.lstrip(chars)], [s.rstrip(chars)], [s.strip(chars)], the set of
    characters given as a predicate. *)
Fixpoint lstrip (p : N → bool) (s : str) : str :=
  match s with
  | c :: s' => if p c then lstrip p s' else s
  | [] => []
  end.

Definition rstrip (p : N → bool) (s : str) : str := rev (lstrip p (rev s)).

Definition strip (p : N → bool) (s : str) : str := rstrip p (lstrip p s).

(** ** Regular expressions *)

Inductive regex :=
| Eps                                        (* the empty pattern *)
| Chr (p : N → bool)                         (* one character of a class *)
| Bol                                        (* [^] *)
| WordB                                      (* [\b] *)
| Seq (r1 r2 : regex)
| Alt (r1 r2 : regex)                        (* [r1|r2] *)
| Rep (lo : nat) (hi : option nat) (r : regex) (* greedy [r{lo,hi}] *)
| Group (r : regex).                         (* capturing group [(r)] *)

Definition Star := Rep 0 None.
Definition Plus := Rep 1 None.
Definition Opt := Rep 0 (Some 1%nat).

Definition Lit (c : N) : regex := Chr (N.eqb c).

(** A literal word of the pattern. *)
Fixpoint Word (s : str) : regex :=
  match s with
  | [] => Eps
  | [c] => Lit c
  | c :: s' => Seq (Lit c) (Word s')
  end.

Fixpoint has_group (r : regex) : bool :=
  match r with
  | Eps | Chr _ | Bol | WordB => false
  | Seq r1 r2 | Alt r1 r2 => has_group r1 || has_group r2
  | Rep _ _ r' => has_group r'
  | Group _ => true
  end.

(** The matcher's position in the subject: the character before it
    ([None] at the start of the string), the text still ahead, and what the
    capturing group holds. *)
Record mstate := MState {
  prev : option N;
  rest : str;
  grp : option str
}.

Definition word_at (U : unicode_data) (o : option N) : bool :=
  match o with
  | Some c => is_word U c
  | None => false
  end.

Definition upto (hi : option nat) (n : nat) : bool :=
  match hi with
  | Some h => (n <? h)%nat
  | None => true
  end.

(** The loop of a greedy repeat [r{lo,hi}], [m] matching one [r]: with [n]
    iterations done it first tries one more, as long as [n] is under [hi],
    and then to leave, which needs [lo <= n].  An iteration has to consume
    a character, as every repeated pattern of the source does, so [fuel],
    the length of the text ahead, is never used up. *)
Fixpoint rep_loop (m : (mstate → option mstate) → mstate → option mstate)
    (lo : nat) (hi : option nat) (k : mstate → option mstate)
    (fuel n : nat) (s : mstate) {struct fuel} : option mstate :=
  let leave := if (lo <=? n)%nat then k s else None in
  match fuel with
  | O => leave
  | S fuel' =>
      let again :=
        if upto hi n then
          m (λ s', if (length (rest s') <? length (rest s))%nat
                   then rep_loop m lo hi k fuel' (S n) s' else None) s
        else None in
      match again with
      | Some x => Some x
      | None => leave
      end
  end.

Section Matcher.
Variable U : unicode_data.

(** [rmatch r k s] matches [r] at [s] and hands the position after it to
    the continuation [k]; when [k] refuses, the next alternative in the
    order of a backtracking matcher is tried: the left branch of [|]
    first, one more iteration of a greedy repeat before its exit. *)
Fixpoint rmatch (r : regex) (k : mstate → option mstate) (s : mstate)
    : option mstate :=
  match r with
  | Eps => k s
  | Chr p =>
      match rest s with
      | c :: tl => if p c then k (MState (Some c) tl (grp s)) else None
      | [] => None
      end
  | Bol => if prev s is None then k s else None
  | WordB =>
      if xorb (word_at U (prev s)) (word_at U (head (rest s)))
      then k s else None
  | Seq r1 r2 => rmatch r1 (rmatch r2 k) s
  | Alt r1 r2 =>
      match rmatch r1 k s with
      | Some x => Some x
      | None => rmatch r2 k s
      end
  | Rep lo hi r' => rep_loop (rmatch r') lo hi k (length (rest s)) O s
  | Group r' =>
      rmatch r'
        (λ s', k (MState (prev s') (rest s')
                    (Some (take (length (rest s) - length (rest s')) (rest s)))))
        s
  end.

(** One match found by a scan: the text skipped before it, the text
    matched, the group, and where it ended. *)
Record found := Found {
  f_pre : str;
  f_text : str;
  f_grp : option str;
  f_prev : option N;
  f_rest : str
}.

(** [search r adv p s]: the leftmost match of [r] in [s], [p] being the
    character before [s].  With [adv] set, a match that is empty is
    refused at the first position (the rule after an empty match). *)
Fixpoint search (r : regex) (adv : bool) (p : option N) (s : str)
    : option found :=
  match rmatch r
          (λ e, if adv && (length (rest e) =? length s)%nat
                then None else Some e)
          (MState p s None) with
  | Some e =>
      Some (Found [] (take (length s - length (rest e)) s) (grp e)
              (prev e) (rest e))
  | None =>
      match s with
      | [] => None
      | c :: s' =>
          match search r false (Some c) s' with
          | Some f =>
              Some (Found (c :: f_pre f) (f_text f) (f_grp f)
                      (f_prev f) (f_rest f))
          | None => None
          end
      end
  end.

(** All successive matches of [r] from left to right, and the text left
    after the last one: the loop shared by [split], [findall] and
    [sub]. *)
Fixpoint scan (r : regex) (fuel : nat) (adv : bool) (p : option N) (s : str)
    : list found * str :=
  match fuel with
  | O => ([], s)
  | S fuel' =>
      match search r adv p s with
      | None => ([], s)
      | Some f =>
          let '(fs, tl) :=
            scan r fuel' (bool_decide (f_text f = [])) (f_prev f) (f_rest f) in
          (f :: fs, tl)
      end
  end.

Definition scan_all (r : regex) (s : str) : list found * str :=
  scan r (2 * length s + 2) false None s.

(** [re.search(r, s)] *)
Definition re_search (r : regex) (s : str) : option found :=
  search r false None s.

(** [re.split(r, s)] for a pattern with at most one group: the pieces
    between the matches, each match leaving its group between two
    pieces ([None] where the group took no part). *)
Definition re_split (r : regex) (s : str) : list (option str) :=
  let '(fs, tl) := scan_all r s in
  flat_map (λ f, if has_group r then [Some (f_pre f); f_grp f]
                 else [Some (f_pre f)]) fs
  ++ [Some tl].

(** [re.findall(r, s)] for a pattern with at most one group: with a group
    the list holds what the group captured, without one the text
    matched. *)
Definition re_findall (r : regex) (s : str) : list str :=
  map (λ f, if has_group r then default [] (f_grp f) else f_text f)
      (scan_all r s).1.

(** [re.sub(r, repl, s)] for a replacement without group references. *)
Definition re_sub (r : regex) (repl s : str) : str :=
  let '(fs, tl) := scan_all r s in
  flat_map (λ f, f_pre f ++ repl) fs ++ tl.

End Matcher.

Infix "+++" := Seq (at level 60, right associativity).

(** ** Language ([normalize_language]) *)

Module Language.

Record result := Result { language : str; normalized : str }.

Section Detect.
(** [langdetect.detect]: the language code of a text, or [None] when
    it raises. *)
Variable detect : str → option str.

Definition normalize_language (text : str) : result :=
  let lang :=
    match detect text with
    | Some l => l
    | None => u "unknown"
    end in
  {| language := if str_eqb lang (u "hi") then u "Hindi" else u "English";
     normalized := text |}.
End Detect.

End Language.

(** ** Python numbers: [int / int] and [round(x, n)] on binary64 *)

Module Float.

Definition prec : Z := 53.
Definition emax : Z := 1024.

Definition of_int (n : Z) : spec_float := binary_normalize prec emax n 0 false.

(** [a / b] on ints below [2^53]: the quotient of the two exact
    conversions, correctly rounded; [None] is [ZeroDivisionError]. *)
Definition truediv (a b : Z) : option spec_float :=
  if (b =? 0)%Z then None
  else Some (SFdiv prec emax (of_int a) (of_int b)).

(** The integer nearest to [n / d], ties to even ([0 < d]). *)
Definition nearest_even (n d : Z) : Z :=
  let q := (n / d)%Z in
  let r := (n mod d)%Z in
  match (2 * r ?= d)%Z with
  | Lt => q
  | Gt => (q + 1)%Z
  | Eq => if Z.even q then q else (q + 1)%Z
  end.

(** [round(x, ndigits)] for [0 <= ndigits]: the exact value of [x] is
    rounded half-even to [ndigits] decimals, and the double nearest to that
    decimal is returned. *)
Definition round (x : spec_float) (ndigits : Z) : spec_float :=
  match x with
  | S754_finite s m e =>
      let p := (10 ^ ndigits)%Z in
      let k := nearest_even (Z.pos m * p * 2 ^ Z.max e 0) (2 ^ Z.max (- e) 0) in
      if (k =? 0)%Z then S754_zero s
      else SFdiv prec emax (of_int (if s then - k else k)) (of_int p)
  | _ => x
  end.

Definition zero : spec_float := S754_zero false.
Definition one : spec_float := of_int 1.

(** The literal [0.8]: the double nearest to 8/10. *)
Definition lit_0_8 : spec_float := SFdiv prec emax (of_int 8) (of_int 10).

Definition leb := SFleb.
Definition ltb := SFltb.

End Float.

(** ** Contract type ([classify_contract]) *)

Module Classify.

(** The dict [rules], in the order of its literal. *)
Definition rules : list (str * list str) :=
  [ (u "Employment Agreement",
     [u "employee"; u "employer"; u "salary"; u "termination"]);
    (u "Lease Agreement", [u "rent"; u "tenant"; u "lease"]);
    (u "Vendor / Service Agreement", [u "vendor"; u "service"; u "fees"]);
    (u "Partnership Deed", [u "partner"; u "profit sharing"]) ].

(** [sum(w in t for w in v)] *)
Definition count_in (t : str) (v : list str) : Z :=
  foldr (λ w acc, ((if str_in w t then 1 else 0) + acc)%Z) 0%Z v.

(** [d.get(k)] on a dict kept in insertion order. *)
Fixpoint dict_get {V} (d : list (str * V)) (k : str) : option V :=
  match d with
  | [] => None
  | (k', v) :: d' => if str_eqb k' k then Some v else dict_get d' k
  end.

(** The loop of [max(iterable, key=key)]: a later item replaces the best
    one only when its key is strictly greater.  A key that is [None]
    cannot be compared ([TypeError]). *)
Fixpoint max_loop {A} (key : A → option Z) (best : A) (kbest : option Z)
    (l : list A) : option A :=
  match l with
  | [] => Some best
  | x :: l' =>
      match key x, kbest with
      | Some kx, Some kb =>
          if (kb <? kx)%Z then max_loop key x (Some kx) l'
          else max_loop key best kbest l'
      | _, _ => None
      end
  end.

(** [max(l, key=key)]; [None] on an empty [l] ([ValueError]). *)
Definition py_max {A} (key : A → option Z) (l : list A) : option A :=
  match l with
  | [] => None
  | x :: l' => max_loop key x (key x) l'
  end.

(** [sum(scores.values())] *)
Definition sum_values (d : list (str * Z)) : Z :=
  foldr (λ kv acc, (kv.2 + acc)%Z) 0%Z d.

Section Classifier.
Variable U : unicode_data.

Definition scores_of (t : str) : list (str * Z) :=
  map (λ kv, (kv.1, count_in t kv.2)) rules.

(** [None] stands for an exception. *)
Definition classify_contract (text : str) : option (str * spec_float) :=
  let t := py_lower U text in
  let scores := scores_of t in
  best ← py_max (dict_get scores) (map fst scores);
  sb ← dict_get scores best;
  q ← Float.truediv sb (sum_values scores + 1);
  Some (best, Float.round q 2).
End Classifier.

(** The keyword counts of the types, in declaration order, their maximum
    (the best score) and their sum. *)
Definition counts (t : str) : list Z := map (λ kv, count_in t kv.2) rules.
Definition best_score (t : str) : Z := foldr Z.max 0%Z (counts t).
Definition total_score (t : str) : Z := foldr Z.add 0%Z (counts t).

End Classify.

(** ** Clause splitting ([extract_clauses]) *)

Module Clauses.

Record clause := Clause { title : str; text : str }.

Definition dot_or_paren (c : N) : bool := (c =? 46) || (c =? 41).
Definition letter_or_space (c : N) : bool := is_AZ c || is_az c || is_space c.
Definition colon_or_blank (c : N) : bool := (c =? 58) || (c =? 32).

Section Segmenter.
Variable U : unicode_data.

(** [(?:^|\s)(\d+[\.\)]\s*[A-Z][A-Za-z\s]+:)] *)
Definition pattern : regex :=
  Alt Bol (Chr is_space) +++
  Group (Plus (Chr (is_digit U)) +++ Chr dot_or_paren +++
         Star (Chr is_space) +++ Chr is_AZ +++
         Plus (Chr letter_or_space) +++ Lit 58).

(** [re.sub(r"\s+", " ", text)] *)
Definition collapse (text : str) : str :=
  re_sub U (Plus (Chr is_space)) (u " ") text.

(** The loop [for i in range(1, len(parts), 2)] over [parts[1:]]:
    [parts[i]] is the heading and [parts[i + 1]] the body.  [None] is
    an exception: [strip] of a [None] part or an index out of range. *)
Fixpoint clause_loop (ps : list (option str)) : option (list clause) :=
  match ps with
  | [] => Some []
  | h :: ps' =>
      t ← h;
      match ps' with
      | [] => None
      | b :: ps'' =>
          b' ← b;
          cs ← clause_loop ps'';
          Some (Clause (strip colon_or_blank t) (strip is_space b') :: cs)
      end
  end.

Definition extract_clauses (text : str) : option (list clause) :=
  let text := collapse text in
  let parts := re_split U pattern text in
  clauses ← clause_loop (drop 1 parts);
  Some (if clauses is [] then [Clause (u "General Clause") text]
        else clauses).
End Segmenter.

End Clauses.

(** ** Entities ([extract_entities]) *)

Module Entities.

Record bundle := Bundle {
  Parties : gset str;
  Dates : gset str;
  Amounts : gset str;
  Jurisdiction : gset str
}.

Definition name_char (c : N) : bool :=
  is_AZ c || is_az c || (c =? 32) || (c =? 38).
Definition slash_or_dash (c : N) : bool := (c =? 47) || (c =? 45).

Section Extractor.
Variable U : unicode_data.

Definition digit : regex := Chr (is_digit U).

(** [(Employer|Employee|Company|Vendor|Client)\s+[A-Z][A-Za-z &]+] *)
Definition parties_re : regex :=
  Group (Alt (Word (u "Employer")) (Alt (Word (u "Employee"))
        (Alt (Word (u "Company")) (Alt (Word (u "Vendor"))
             (Word (u "Client")))))) +++
  Plus (Chr is_space) +++ Chr is_AZ +++ Plus (Chr name_char).

(** [\b\d{1,2}[/-]\d{1,2}[/-]\d{2,4}\b] *)
Definition dates_re : regex :=
  WordB +++ Rep 1 (Some 2%nat) digit +++ Chr slash_or_dash +++
  Rep 1 (Some 2%nat) digit +++ Chr slash_or_dash +++
  Rep 2 (Some 4%nat) digit +++ WordB.

(** [(₹|\$|Rs\.?)\s?\d+(?:,\d+)*(?:\.\d+)?]; the rupee sign is U+20B9. *)
Definition amounts_re : regex :=
  Group (Alt (Lit 8377) (Alt (Lit 36) (Word (u "Rs") +++ Opt (Lit 46)))) +++
  Opt (Chr is_space) +++ Plus digit +++
  Star (Lit 44 +++ Plus digit) +++ Opt (Lit 46 +++ Plus digit).

(** [(India|Tamil Nadu|Delhi|Mumbai|Chennai)] *)
Definition jurisdiction_re : regex :=
  Group (Alt (Word (u "India")) (Alt (Word (u "Tamil Nadu"))
        (Alt (Word (u "Delhi")) (Alt (Word (u "Mumbai"))
             (Word (u "Chennai")))))).

(** [list(set(re.findall(r, text)))]: the list enumerates a set in an
    order that is not fixed, so the set is what is returned. *)
Definition found_set (r : regex) (text : str) : gset str :=
  list_to_set (re_findall U r text).

Definition extract_entities (text : str) : bundle :=
  {| Parties := found_set parties_re text;
     Dates := found_set dates_re text;
     Amounts := found_set amounts_re text;
     Jurisdiction := found_set jurisdiction_re text |}.
End Extractor.

(** The sample text of the entity example. *)
Definition paid_text : str := u "Paid Rs. 5,000 on 12/04/2023 in Mumbai".

End Entities.

(** ** Risk rules ([risk_analysis] and the overall tier) *)

Module Risk.

Inductive tier := Low | Medium | High.

(** The strings the source returns. *)
Definition tier_name (t : tier) : str :=
  match t with
  | Low => u "Low"
  | Medium => u "Medium"
  | High => u "High"
  end.

Definition RISK_RULES : list (str * Z) :=
  [ (u "penalty", 3%Z); (u "indemnify", 4%Z);
    (u "terminate at any time", 4%Z); (u "without notice", 3%Z);
    (u "non compete", 4%Z); (u "auto renew", 3%Z);
    (u "arbitration", 2%Z); (u "jurisdiction", 2%Z) ].

Section Engine.
Variable U : unicode_data.

(** [sum(v for k, v in RISK_RULES.items() if k in text.lower())] *)
Definition score (text : str) : Z :=
  foldr (λ kv acc, if str_in kv.1 (py_lower U text) then (kv.2 + acc)%Z else acc)
        0%Z RISK_RULES.

Definition tier_of_score (score : Z) : tier :=
  if (7 <=? score)%Z then High
  else if (4 <=? score)%Z then Medium
  else Low.

Definition risk_analysis (text : str) : tier := tier_of_score (score text).

(** The weight a keyword adds to the score of [text]: all of it when the
    keyword occurs in the lower-cased text, however often, else nothing. *)
Definition weight (text : str) (k : string) (w : Z) : Z :=
  if str_in (u k) (py_lower U text) then w else 0%Z.
End Engine.

(** ["High" if "High" in risks else "Medium" if "Medium" in risks else "Low"] *)
Definition tier_eqb (a b : tier) : bool :=
  match a, b with
  | Low, Low | Medium, Medium | High, High => true
  | _, _ => false
  end.

Definition tier_in (t : tier) (risks : list tier) : bool := existsb (tier_eqb t) risks.

Definition overall (risks : list tier) : tier :=
  if tier_in High risks then High
  else if tier_in Medium risks then Medium
  else Low.

(** The order [Low < Medium < High]. *)
Definition tier_rank (t : tier) : nat :=
  match t with
  | Low => 0
  | Medium => 1
  | High => 2
  end.

Definition tier_le (a b : tier) : Prop := (tier_rank a ≤ tier_rank b)%nat.

End Risk.

(** ** File reader ([extract_text]) *)

Module Reader.

(** [s.endswith(suffix)] *)
Definition ends_with (suffix s : str) : bool := starts_with (rev suffix) (rev s).

(** [sep.join(items)] *)
Fixpoint join (sep : str) (items : list str) : str :=
  match items with
  | [] => []
  | [x] => x
  | x :: rest => x ++ sep ++ join sep rest
  end.

(** The line feed of ["\n"]. *)
Definition newline : str := [10].

(** What [extract_text] does: it returns the text, or raises the
    [ValueError] of an unsupported format, or a reader raises. *)
Inductive outcome :=
| Text (s : str)
| Unsupported
| ReaderError.

Section Readers.
(** The uploaded file is known by its name; the readers of the three
    formats belong to other libraries and are taken as they come:
    the pages of a PDF with what [page.extract_text()] gives for each ([None]
    for a page without text), the paragraphs of a DOCX document, and
    [file.read().decode("utf-8")]; each gives [None] when it raises. *)
Variable F : Type.
Variable name : F → str.
Variable pdf_pages : F → option (list (option str)).
Variable docx_paragraphs : F → option (list str).
Variable read_utf8 : F → option str.

Definition extract_text (file : F) : outcome :=
  if ends_with (u ".pdf") (name file) then
    match pdf_pages file with
    | Some pages => Text (join newline (map (default []) pages))
    | None => ReaderError
    end
  else if ends_with (u ".docx") (name file) then
    match docx_paragraphs file with
    | Some ps => Text (join newline ps)
    | None => ReaderError
    end
  else if ends_with (u ".txt") (name file) then
    match read_utf8 file with
    | Some s => Text s
    | None => ReaderError
    end
  else Unsupported.
End Readers.

End Reader.

(** ** Summaries and explanations ([gpt_contract_summary],
       [gpt_explain_clause], [gpt_suggest_alternative]) *)

Module Provider.

(** What the chat backend answers to a prompt, after the prompts it was sent
    before: the [content] of its first choice, or [None] when anything in
    the [try] block raises. *)
Definition backend := list str → str → option str.

(** The two module globals the functions read. *)
Record config := Config { USE_GENAI : bool; client : option backend }.

Definition summary_fallback : str :=
  u "This contract defines obligations, rights, and termination conditions "
  ++ u "between parties. Certain clauses may pose legal or financial risks "
  ++ u "to small businesses and should be carefully reviewed.".
Definition summary_unavailable : str :=
  u "GenAI summary unavailable. Please review key clauses manually.".
Definition explain_fallback : str :=
  u "This clause explains a specific obligation or restriction. "
  ++ u "Business owners should ensure the terms are reasonable and balanced.".
Definition explain_unavailable : str := u "GenAI explanation unavailable.".
Definition suggest_fallback : str :=
  u "Consider revising this clause to limit liability, add notice periods, "
  ++ u "and ensure obligations are mutual.".
Definition suggest_unavailable : str := u "Suggested alternative unavailable.".

Section Calls.
Variable cfg : config.

(** The body the three functions share.  [log] lists the prompts sent to the
    backend so far; the result is the text returned and the log after the
    call. *)
Definition ask (fallback unavailable prompt : str) (log : list str)
    : str * list str :=
  if negb (USE_GENAI cfg) then (fallback, log)
  else
    match client cfg with
    | None => (fallback, log)
    | Some answer =>
        (match answer log prompt with
         | Some content => strip is_space content
         | None => unavailable
         end, log ++ [prompt])
    end.

Definition gpt_contract_summary (text : str) :=
  ask summary_fallback summary_unavailable (take 6000 text).

Definition gpt_explain_clause (clause_text : str) :=
  ask explain_fallback explain_unavailable clause_text.

Definition gpt_suggest_alternative (clause_text : str) :=
  ask suggest_fallback suggest_unavailable clause_text.
End Calls.

End Provider.

(** ** The report ([generate_pdf]) *)

Module Pdf.

(** A clause as the report takes it: the dict with the keys ["title"],
    ["risk"] and ["explanation"]. *)
Record analyzed := Analyzed {
  a_title : str;
  a_risk : Risk.tier;
  a_explanation : str
}.

(** The calls made on the canvas. *)
Inductive canvas_op :=
| DrawString (x y : Z) (s : str)
| ShowPage
| Save.

(** [os.path.join(a, b)] on a POSIX system. *)
Definition path_join (a b : str) : str :=
  if starts_with (u "/") b then b
  else if bool_decide (a = []) then b
  else if Reader.ends_with (u "/") a then a ++ b
  else a ++ u "/" ++ b.

Definition REPORT_DIR : str := u "reports".

(** The loop [for cl in clauses], [y] being where the next line goes. *)
Fixpoint draw_clauses (y : Z) (clauses : list analyzed) : list canvas_op :=
  match clauses with
  | [] => []
  | cl :: rest =>
      let page := if (y <? 120)%Z then [ShowPage] else [] in
      let y := if (y <? 120)%Z then 800%Z else y in
      page
      ++ DrawString 40 y
           (a_title cl ++ u " - Risk: " ++ Risk.tier_name (a_risk cl))
      :: DrawString 40 (y - 15) (take 800 (a_explanation cl))
      :: draw_clauses (y - 15 - 40) rest
  end.

(** The path returned and the calls made on the canvas of that file. *)
Definition generate_pdf (name summary : str) (clauses : list analyzed)
    : str * list canvas_op :=
  let path := path_join REPORT_DIR (name ++ u "_report.pdf") in
  (path,
   DrawString 40 800 (u "Contract Risk Analysis Report")
   :: DrawString 40 (800 - 30) (take 1000 summary)
   :: draw_clauses (800 - 30 - 40) clauses
   ++ [Save]).

End Pdf.

(** ** The analysis of an uploaded text (the block under [if uploaded:]) *)

Module Pipeline.

(** What is shown for one clause. *)
Record row := Row {
  r_title : str;
  r_risk : Risk.tier;
  r_explanation : str;
  r_suggestion : str
}.

Definition analyzed_of (r : row) : Pdf.analyzed :=
  Pdf.Analyzed (r_title r) (r_risk r) (r_explanation r).

Record analysis := Analysis {
  ctype : str;
  conf : spec_float;
  clauses : list Clauses.clause;
  entities : Entities.bundle;
  summary : str;
  rows : list row;
  risks : list Risk.tier;
  overall : Risk.tier;
  prompts : list str
}.

(** The dash shown in place of a suggestion, U+2014. *)
Definition no_suggestion : str := [8212].

Section Flow.
Variable U : unicode_data.
Variable detect : str → option str.
Variable cfg : Provider.config.

(** The loop [for cl in clauses]. *)
Fixpoint clause_pass (cls : list Clauses.clause) (log : list str)
    : list row * list str :=
  match cls with
  | [] => ([], log)
  | cl :: rest =>
      let risk := Risk.risk_analysis U (Clauses.text cl) in
      let '(explanation, log) :=
        Provider.gpt_explain_clause cfg (Clauses.text cl) log in
      let '(suggestion, log) :=
        if Risk.tier_eqb risk Risk.Low then (no_suggestion, log)
        else Provider.gpt_suggest_alternative cfg (Clauses.text cl) log in
      let '(rs, log) := clause_pass rest log in
      (Row (Clauses.title cl) risk explanation suggestion :: rs, log)
  end.

(** From the raw text to what is shown; [None] is an exception. *)
Definition analyze (raw : str) : option analysis :=
  let text := Language.normalized (Language.normalize_language detect raw) in
  '(ctype, conf) ← Classify.classify_contract U text;
  clauses ← Clauses.extract_clauses U text;
  let entities := Entities.extract_entities U text in
  let '(summary, log) := Provider.gpt_contract_summary cfg text [] in
  let '(rows, log) := clause_pass clauses log in
  let risks := map r_risk rows in
  Some (Analysis ctype conf clauses entities summary rows risks
          (Risk.overall risks) log).

(** The report of an analysis, as the download button makes it. *)
Definition report (name : str) (a : analysis) : str * list Pdf.canvas_op :=
  Pdf.generate_pdf name (summary a) (map analyzed_of (rows a)).
End Flow.

End Pipeline.

(** ** Notions used to state the properties *)

(** A matcher in continuation-passing style hands on: when it succeeds, its
    continuation was run with success at a position further in the text. *)
Definition hands_on (m : (mstate → option mstate) → mstate → option mstate)
    : Prop :=
  ∀ k s x, m k s = Some x → ∃ s', k s' = Some x ∧ suffix (rest s') (rest s).

(** A matcher in continuation-passing style is local to the text ahead:
    it consults its continuation only at positions further in the text. *)
Definition local_to_text (m : (mstate → option mstate) → mstate → option mstate)
    : Prop :=
  ∀ k1 k2 s,
    (∀ s', suffix (rest s') (rest s) → k1 s' = k2 s') → m k1 s = m k2 s.

(** Whitespace collapsed by hand: every run of whitespace becomes one
    space; [in_run] tells that the character before was whitespace. *)
Fixpoint squeeze (in_run : bool) (s : str) : str :=
  match s with
  | [] => []
  | c :: s' =>
      if is_space c then
        if in_run then squeeze true s' else 32 :: squeeze true s'
      else c :: squeeze false s'
  end.

(** The position after the run of [q]-characters at the head of [s]. *)
Fixpoint skip_run (q : N → bool) (p : option N) (s : str) (g : option str)
    : mstate :=
  match s with
  | c :: s' => if q c then skip_run q (Some c) s' g else MState p s g
  | [] => MState p [] g
  end.

(** A matcher that leaves the group as it found it. *)
Definition keeps_group (m : (mstate → option mstate) → mstate → option mstate)
    : Prop :=
  ∀ k s x, m k s = Some x → ∃ s', k s' = Some x ∧ grp s' = grp s.

(** A matcher that consumes only texts of [W]. *)
Definition matches_only (W : str → Prop)
    (m : (mstate → option mstate) → mstate → option mstate) : Prop :=
  ∀ k s x, m k s = Some x →
           ∃ s' w, W w ∧ rest s = w ++ rest s' ∧ k s' = Some x.

(** The currency marks of the amount pattern. *)
Definition currency_marks : list str := [[8377]; u "$"; u "Rs"; u "Rs."].

(** The role keywords of the party pattern. *)
Definition role_keywords : list str :=
  [u "Employer"; u "Employee"; u "Company"; u "Vendor"; u "Client"].

(** A match of the heading pattern: its group holds all of the match but
    the one whitespace character it may start with. *)
Definition heading_like (f : found) : Prop :=
  ∃ sep g, f_text f = sep ++ g ∧ f_grp f = Some g
           ∧ (sep = [] ∨ ∃ c, sep = [c] ∧ is_space c = true).

(** A text without its whitespace. *)
Definition no_space (s : str) : str := filter (λ c, is_space c = false) s.

(** One headed segment of a collapsed text: the separator dropped before
    the heading, the heading, and the body up to the next heading. *)
Record segment := Segment { s_sep : str; s_heading : str; s_body : str }.

Definition seg_text (g : segment) : str := s_sep g ++ s_heading g ++ s_body g.

Definition seg_clause (g : segment) : Clauses.clause :=
  Clauses.Clause (strip Clauses.colon_or_blank (s_heading g))
                 (strip is_space (s_body g)).

(** The separator is nothing (at the start of the text) or one whitespace
    character. *)
Definition sep_ok (g : segment) : Prop :=
  s_sep g = [] ∨ ∃ c, s_sep g = [c] ∧ is_space c = true.

(** Case analysis on a keyword count between 0 and the number of keywords
    of its type. *)
Ltac enum c :=
  match goal with
  | H : (0 ≤ c ≤ 4)%Z |- _ =>
      assert (c = 0 ∨ c = 1 ∨ c = 2 ∨ c = 3 ∨ c = 4)%Z
        as [->|[->|[->|[->| ->]]]] by lia; clear H
  | H : (0 ≤ c ≤ 3)%Z |- _ =>
      assert (c = 0 ∨ c = 1 ∨ c = 2 ∨ c = 3)%Z
        as [->|[->|[->| ->]]] by lia; clear H
  | H : (0 ≤ c ≤ 2)%Z |- _ =>
      assert (c = 0 ∨ c = 1 ∨ c = 2)%Z as [->|[->| ->]] by lia; clear H
  end.

(** [x] occurs in [s] as a substring. *)
Definition occurs_in (x s : str) : Prop := ∃ a b, s = a ++ x ++ b.

(** A matcher whose group, when it sets it, is taken from the text ahead. *)
Definition group_from_text
    (m : (mstate → option mstate) → mstate → option mstate) : Prop :=
  ∀ k s x,
    m k s = Some x →
    ∃ s', k s' = Some x ∧ suffix (rest s') (rest s)
          ∧ (grp s' = grp s ∨ ∃ g, grp s' = Some g ∧ occurs_in g (rest s)).

(** The texts a pattern can match, anchors aside: [^] and [\b] take
    nothing. *)
Fixpoint in_lang (r : regex) (w : str) : Prop :=
  match r with
  | Eps | Bol | WordB => w = []
  | Chr p => ∃ c, w = [c] ∧ p c = true
  | Seq r1 r2 => ∃ w1 w2, w = w1 ++ w2 ∧ in_lang r1 w1 ∧ in_lang r2 w2
  | Alt r1 r2 => in_lang r1 w ∨ in_lang r2 w
  | Rep lo hi r' =>
      ∃ ws, w = concat ws ∧ Forall (in_lang r') ws
            ∧ (lo ≤ length ws)%nat
            ∧ ∀ h, hi = Some h → (length ws ≤ h)%nat
  | Group r' => in_lang r' w
  end.

(** The pattern [n|n1|n2|...] of literal words. *)
Fixpoint alts (n : str) (ns : list str) : regex :=
  match ns with
  | [] => Word n
  | n' :: ns' => Alt (Word n) (alts n' ns')
  end.

(** The place names of the jurisdiction pattern. *)
Definition gazetteer : list str :=
  [u "India"; u "Tamil Nadu"; u "Delhi"; u "Mumbai"; u "Chennai"].

(** Names that cannot overlap in a text: none is empty, two different names
    start with different characters, and the first character of a name
    occurs in no name after its first character. *)
Definition apart (names : list str) : bool :=
  forallb (λ x,
    match x with
    | [] => false
    | h :: _ =>
        forallb (λ y,
          match y with
          | [] => false
          | h' :: t' =>
              (str_eqb x y || negb (h =? h')) && negb (existsb (N.eqb h) t')
          end) names
    end) names.

(** What the group of the heading pattern holds:
    [\d+[\.\)]\s*[A-Z][A-Za-z\s]+:]. *)
Definition heading_body (U : unicode_data) : regex :=
  Plus (Chr (is_digit U)) +++ Chr Clauses.dot_or_paren +++
  Star (Chr is_space) +++ Chr is_AZ +++
  Plus (Chr Clauses.letter_or_space) +++ Lit 58.

(** A text whose only whitespace is single spaces. *)
Definition single_spaced (s : str) : Prop :=
  (∀ c, c ∈ s → is_space c = true → c = 32) ∧ str_in [32; 32] s = false.

(** Two texts alike but for the whitespace characters they use. *)
Definition same_but_whitespace (s t : str) : Prop :=
  Forall2 (λ a b, a = b ∨ (is_space a = true ∧ is_space b = true)) s t.

(** The keywords of the lexicon found in the lower-cased text. *)
Definition hits (U : unicode_data) (text : str) : list str :=
  List.filter (λ k, str_in k (py_lower U text)) (map fst Risk.RISK_RULES).

(** The page breaks among the calls made on a canvas, and the strings drawn
    with their positions, in the order of the calls. *)
Fixpoint page_breaks (ops : list Pdf.canvas_op) : nat :=
  match ops with
  | [] => 0
  | Pdf.ShowPage :: ops' => S (page_breaks ops')
  | _ :: ops' => page_breaks ops'
  end.

Fixpoint drawn (ops : list Pdf.canvas_op) : list (Z * Z * str) :=
  match ops with
  | [] => []
  | Pdf.DrawString x y s :: ops' => (x, y, s) :: drawn ops'
  | _ :: ops' => drawn ops'
  end.

(** The two lines of a clause in the report. *)
Definition clause_lines (cl : Pdf.analyzed) : list str :=
  [ Pdf.a_title cl ++ u " - Risk: " ++ Risk.tier_name (Pdf.a_risk cl);
    take 800 (Pdf.a_explanation cl) ].

(** How many clauses still fit on the page when the next line goes at [y]. *)
Definition room (y : Z) : nat :=
  if (y <? 120)%Z then 0 else S (Z.to_nat ((y - 120) / 55)).

(** Whether the provider is called at all: the negation of
    [not USE_GENAI or client is None]. *)
Definition live (cfg : Provider.config) : bool :=
  Provider.USE_GENAI cfg && (if Provider.client cfg is Some _ then true else false).

(** The prompts sent for a clause: its text for the explanation and, unless
    its risk is [Low], its text again for the suggestion. *)
Definition clause_prompts (U : unicode_data) (c : Clauses.clause) : list str :=
  if Risk.tier_eqb (Risk.risk_analysis U (Clauses.text c)) Risk.Low
  then [Clauses.text c]
  else [Clauses.text c; Clauses.text c].

(** The character before a position, [w] being the text read since a
    position that had [p] before it. *)
Definition last_or (p : option N) (w : str) : option N :=
  match last w with
  | Some c => Some c
  | None => p
  end.

(** A matcher in continuation-passing style keeps track of the character
    before the position: it hands on the last character it has read. *)
Definition tracks_prev (m : (mstate → option mstate) → mstate → option mstate)
    : Prop :=
  ∀ k s x,
    m k s = Some x →
    ∃ s' w, k s' = Some x ∧ rest s = w ++ rest s'
            ∧ prev s' = last_or (prev s) w.

(** A pattern that can match the empty text. *)
Fixpoint nullable (r : regex) : bool :=
  match r with
  | Eps | Bol | WordB => true
  | Chr _ => false
  | Seq r1 r2 => nullable r1 && nullable r2
  | Alt r1 r2 => nullable r1 || nullable r2
  | Rep lo _ r' => (lo =? 0)%nat || nullable r'
  | Group r' => nullable r'
  end.

(** A pattern without anchors whose repeated parts take at least one
    character at each turn. *)
Fixpoint plain (r : regex) : bool :=
  match r with
  | Eps | Chr _ => true
  | Bol | WordB => false
  | Seq r1 r2 | Alt r1 r2 => plain r1 && plain r2
  | Rep _ _ r' => plain r' && negb (nullable r')
  | Group r' => plain r'
  end.

(** A heading starts at the head of [s], [p] being the character before
    [s]: [s] begins with a text of the heading pattern, at the very start
    of the text, or with one whitespace character followed by such a
    text. *)
Definition heading_at (U : unicode_data) (p : option N) (s : str) : Prop :=
  ∃ sep h tl,
    s = sep ++ h ++ tl
    ∧ in_lang (heading_body U) h
    ∧ ((sep = [] ∧ p = None) ∨ ∃ c, sep = [c] ∧ is_space c = true).

(** No heading starts inside [x], the piece of the text found between
    [before] and [after]. *)
Definition heading_free (U : unicode_data) (before x after : str) : Prop :=
  ∀ a b, x = a ++ b → b ≠ [] →
         ¬ heading_at U (last (before ++ a)) (b ++ after).

(** [segs] are the headed segments of the text that follows [before]: each
    begins with a heading, right at the start of the text or after one
    whitespace character, and its body runs up to the next heading, no
    heading starting inside it. *)
Fixpoint segmented (U : unicode_data) (before : str) (segs : list segment)
    : Prop :=
  match segs with
  | [] => True
  | g :: segs' =>
      ((s_sep g = [] ∧ before = [])
       ∨ ∃ c, s_sep g = [c] ∧ is_space c = true)
      ∧ in_lang (heading_body U) (s_heading g)
      ∧ heading_free U (before ++ s_sep g ++ s_heading g) (s_body g)
          (concat (map seg_text segs'))
      ∧ segmented U (before ++ seg_text g) segs'
  end.

(** * Properties *)

(** ** Substrings *)

Section Substrings.

Lemma str_eqb_eq a b : str_eqb a b = true ↔ a = b.
Proof.
  revert b. induction a as [|x a IH]; intros [|y b]; simpl;
    try (split; (done || discriminate)).
  rewrite andb_true_iff, N.eqb_eq, IH.
  split; [intros [-> ->]|intros [= -> ->]]; done.
Qed.

Lemma str_eqb_refl a : str_eqb a a = true.
Proof. by apply str_eqb_eq. Qed.

Lemma starts_with_spec (k s : str) :
  starts_with k s = true ↔ ∃ post, s = k ++ post.
Proof.
  revert s. induction k as [|a k IH]; intros s; simpl.
  - split; [|done]. intros _. by exists s.
  - destruct s as [|b s].
    + split; [discriminate|]. intros [post H]. discriminate.
    + rewrite andb_true_iff, N.eqb_eq, IH. split.
      * intros [-> [post ->]]. by exists post.
      * intros [post [= -> ->]]. split; [done|]. by exists post.
Qed.

(** [k in s] holds exactly of the texts that have [k] as a substring. *)
Lemma str_in_spec (k s : str) :
  str_in k s = true ↔ ∃ pre post, s = pre ++ k ++ post.
Proof.
  induction s as [|c s IH]; simpl.
  - rewrite orb_false_r, starts_with_spec. split.
    + intros [post H]. by exists [], post.
    + intros (pre & post & H). symmetry in H.
      apply app_eq_nil in H as [-> H]. by exists post.
  - rewrite orb_true_iff, starts_with_spec, IH. split.
    + intros [[post H]|(pre & post & ->)].
      * by exists [], post.
      * by exists (c :: pre), post.
    + intros (pre & post & H). destruct pre as [|c' pre].
      * left. by exists post.
      * right. injection H as -> ->. by exists pre, post.
Qed.

(** On an ASCII text the lower-casing makes the search ignore the case of
    the letters A to Z: [k] is found when some substring of the text is
    [k] once lower-cased. *)
Lemma str_in_lower_ascii (U : unicode_data) (k text : str) :
  forallb is_ascii text = true →
  str_in k (py_lower U text) = true ↔
  ∃ pre w post, text = pre ++ w ++ post ∧ map lower_ascii w = k.
Proof.
  intros Hascii. unfold py_lower. rewrite Hascii, str_in_spec. split.
  - intros (pre' & post' & H).
    apply map_eq_app in H as (pre & rest' & -> & <- & H).
    apply map_eq_app in H as (w & post & -> & <- & <-).
    by exists pre, w, post.
  - intros (pre & w & post & -> & <-).
    exists (map lower_ascii pre), (map lower_ascii post).
    by rewrite !map_app.
Qed.

End Substrings.

(** ** The overall tier *)

Section OverallTier.
Import Risk.

Lemma tier_eqb_eq a b : tier_eqb a b = true ↔ a = b.
Proof. destruct a, b; simpl; split; intros H; congruence. Qed.

Lemma tier_in_true t l : tier_in t l = true ↔ t ∈ l.
Proof.
  unfold tier_in. induction l as [|x l IH]; simpl.
  - split; [discriminate|]. intros H. by apply elem_of_nil in H.
  - rewrite orb_true_iff, tier_eqb_eq, IH, elem_of_cons. done.
Qed.

Lemma tier_in_false t l : tier_in t l = false ↔ t ∉ l.
Proof.
  rewrite <- tier_in_true. destruct (tier_in t l); split; congruence.
Qed.

Lemma tier_le_High t : tier_le t High.
Proof. destruct t; unfold tier_le; simpl; lia. Qed.

(** C7: the overall tier of a non-empty list of clause tiers is its
    maximum for [Low < Medium < High]: it is one of the tiers of the list
    and no tier of the list is above it; it is [High] when some clause is
    [High], else [Medium] when some clause is [Medium], else [Low]. *)
Theorem overall_is_max_tier (risks : list tier) :
  risks ≠ [] →
  (overall risks ∈ risks)
  ∧ (∀ t, t ∈ risks → tier_le t (overall risks))
  ∧ (overall risks = High ↔ (High ∈ risks))
  ∧ (overall risks = Medium ↔ (High ∉ risks) ∧ (Medium ∈ risks))
  ∧ (overall risks = Low ↔ (High ∉ risks) ∧ (Medium ∉ risks)).
Proof.
  intros Hne. unfold overall.
  destruct (tier_in High risks) eqn:HH.
  - apply tier_in_true in HH.
    split; [done|]. split; [intros t _; apply tier_le_High|].
    split; [done|]. split; split; try discriminate; intros [? ?]; done.
  - apply tier_in_false in HH.
    destruct (tier_in Medium risks) eqn:HM.
    + apply tier_in_true in HM.
      split; [done|]. split.
      { intros [] Ht; unfold tier_le; simpl; try lia. done. }
      split; [split; [discriminate|done]|].
      split; [done|]. split; [discriminate|]. intros [_ ?]; done.
    + apply tier_in_false in HM.
      assert (Hall : ∀ t, t ∈ risks → t = Low) by (intros [] Ht; done).
      split.
      { destruct risks as [|t l]; [done|].
        rewrite <- (Hall t); apply elem_of_cons; by left. }
      split; [intros t Ht; rewrite (Hall t Ht); unfold tier_le; lia|].
      split; [split; [discriminate|done]|].
      split; [|done]. split; [discriminate|]. intros [_ ?]; done.
Qed.

Lemma overall_is_max_tier_witness :
  [Low; Medium; Low] ≠ [] ∧ overall [Low; Medium; Low] = Medium.
Proof.
  split; [discriminate|].
  apply (overall_is_max_tier [Low; Medium; Low]); [discriminate|].
  split.
  - intros H. apply tier_in_true in H. discriminate.
  - apply tier_in_true. reflexivity.
Defined.

End OverallTier.

(** ** The risk score of a clause *)

Section RiskScore.
Import Risk.
Variable U : unicode_data.

Lemma tier_of_score_High n : tier_of_score n = High ↔ (7 ≤ n)%Z.
Proof.
  unfold tier_of_score.
  destruct (Z.leb_spec 7 n); [done|].
  destruct (Z.leb_spec 4 n); split; (discriminate || lia).
Qed.

Lemma tier_of_score_Medium n : tier_of_score n = Medium ↔ (4 ≤ n < 7)%Z.
Proof.
  unfold tier_of_score.
  destruct (Z.leb_spec 7 n); [split; (discriminate || lia)|].
  destruct (Z.leb_spec 4 n); split; (discriminate || lia || done).
Qed.

Lemma tier_of_score_Low n : tier_of_score n = Low ↔ (n < 4)%Z.
Proof.
  unfold tier_of_score.
  destruct (Z.leb_spec 7 n); [split; (discriminate || lia)|].
  destruct (Z.leb_spec 4 n); split; (discriminate || lia || done).
Qed.

(** C6: the score of a clause text is the sum of the weights of the
    lexicon's keywords that occur in the lower-cased text, each counted
    once (on an ASCII text: the keywords that some substring of the text
    spells, whatever the case of its letters); the tier is [High] iff the
    score is at least 7, [Medium] iff it is at least 4 and below 7, [Low]
    iff it is below 4; and a text with "indemnify" and "arbitration" and no
    other keyword scores 6 and is [Medium]. *)
Theorem risk_score_and_tier (text : str) :
  score U text =
    (weight U text "penalty" 3 + weight U text "indemnify" 4
     + weight U text "terminate at any time" 4 + weight U text "without notice" 3
     + weight U text "non compete" 4 + weight U text "auto renew" 3
     + weight U text "arbitration" 2 + weight U text "jurisdiction" 2)%Z
  ∧ (forallb is_ascii text = true →
     ∀ k, str_in k (py_lower U text) = true ↔
          ∃ pre w post, text = pre ++ w ++ post ∧ map lower_ascii w = k)
  ∧ (risk_analysis U text = High ↔ (7 ≤ score U text)%Z)
  ∧ (risk_analysis U text = Medium ↔ (4 ≤ score U text < 7)%Z)
  ∧ (risk_analysis U text = Low ↔ (score U text < 4)%Z)
  ∧ (str_in (u "indemnify") (py_lower U text) = true →
     str_in (u "arbitration") (py_lower U text) = true →
     (∀ k, k ∈ map fst RISK_RULES → k ≠ u "indemnify" → k ≠ u "arbitration" →
           str_in k (py_lower U text) = false) →
     score U text = 6%Z ∧ risk_analysis U text = Medium).
Proof.
  assert (Hsum : score U text =
    (weight U text "penalty" 3 + weight U text "indemnify" 4
     + weight U text "terminate at any time" 4 + weight U text "without notice" 3
     + weight U text "non compete" 4 + weight U text "auto renew" 3
     + weight U text "arbitration" 2 + weight U text "jurisdiction" 2)%Z).
  { unfold score, weight, RISK_RULES. cbn [foldr fst snd].
    repeat match goal with
           | |- context [if ?b then _ else _] => destruct b
           end; reflexivity. }
  split; [exact Hsum|].
  split; [intros Hascii k; by apply str_in_lower_ascii|].
  split; [apply tier_of_score_High|].
  split; [apply tier_of_score_Medium|].
  split; [apply tier_of_score_Low|].
  intros Hi Ha Hno.
  assert (Hs : score U text = 6%Z).
  { rewrite Hsum. unfold weight. rewrite Hi, Ha.
    rewrite !Hno; [reflexivity|..];
      first [ discriminate
            | unfold RISK_RULES; cbn [map fst];
              repeat (first [apply list_elem_of_here | apply list_elem_of_further]) ]. }
  split; [exact Hs|]. apply tier_of_score_Medium. lia.
Qed.

End RiskScore.

Lemma risk_score_and_tier_witness :
  Risk.score ascii_only
    (u "The Vendor shall Indemnify the Client; ARBITRATION in Mumbai") = 6%Z
  ∧ Risk.risk_analysis ascii_only
      (u "The Vendor shall Indemnify the Client; ARBITRATION in Mumbai")
    = Risk.Medium.
Proof.
  apply (risk_score_and_tier ascii_only
           (u "The Vendor shall Indemnify the Client; ARBITRATION in Mumbai"));
    [vm_compute; reflexivity | vm_compute; reflexivity |].
  intros k Hk H1 H2.
  unfold Risk.RISK_RULES in Hk. cbn [map fst] in Hk.
  repeat (apply elem_of_cons in Hk as [->|Hk];
          [first [vm_compute; reflexivity | congruence]|]).
  by apply elem_of_nil in Hk.
Defined.

(** ** The contract type and its confidence *)

Section ClassifierFacts.
Import Classify.

Lemma dict_get_first {V} (d : list (str * V)) k v :
  NoDup (map fst d) → (k, v) ∈ d → dict_get d k = Some v.
Proof.
  induction d as [|[k' v'] d IH]; intros Hnd Hin.
  - by apply elem_of_nil in Hin.
  - apply NoDup_cons in Hnd as [Hk' Hnd]. simpl.
    apply elem_of_cons in Hin as [[= -> ->]|Hin].
    + by rewrite str_eqb_refl.
    + destruct (str_eqb k' k) eqn:E; [|by apply IH].
      apply str_eqb_eq in E as ->. exfalso. apply Hk'.
      apply list_elem_of_In. apply list_elem_of_In in Hin.
      apply (in_map fst) in Hin. exact Hin.
Qed.

(** What the loop of [max] returns: the running best when no later key
    exceeds its key, else the first item whose key is the greatest. *)
Lemma max_loop_first {A} (key : A → option Z) (l : list A) :
  ∀ best kb,
    (∀ y, y ∈ l → is_Some (key y)) →
    (max_loop key best (Some kb) l = Some best
     ∧ ∀ y ky, y ∈ l → key y = Some ky → (ky ≤ kb)%Z)
    ∨ (∃ l1 r kr l2,
         l = l1 ++ r :: l2
         ∧ max_loop key best (Some kb) l = Some r
         ∧ key r = Some kr ∧ (kb < kr)%Z
         ∧ (∀ y ky, y ∈ l1 → key y = Some ky → (ky < kr)%Z)
         ∧ (∀ y ky, y ∈ l2 → key y = Some ky → (ky ≤ kr)%Z)).
Proof.
  induction l as [|x l IH]; intros best kb Hkeys.
  - left. split; [done|]. intros y ky Hy. by apply elem_of_nil in Hy.
  - destruct (Hkeys x) as [kx Hkx]; [by left|].
    assert (Hkeys' : ∀ y, y ∈ l → is_Some (key y)).
    { intros y Hy. apply Hkeys. by right. }
    simpl. rewrite Hkx. destruct (Z.ltb_spec kb kx) as [Hlt|Hge].
    + right. destruct (IH x kx Hkeys') as [[Hr Hle]|(l1&r&kr&l2&->&Hr&Hkr&Hlt'&H1&H2)].
      * exists [], x, kx, l. repeat split; try done.
        intros y ky Hy. by apply elem_of_nil in Hy.
      * exists (x :: l1), r, kr, l2. repeat split; try done; [lia|].
        intros y ky Hy Hky. apply elem_of_cons in Hy as [->|Hy]; [|by eapply H1].
        rewrite Hkx in Hky. injection Hky as <-. done.
    + destruct (IH best kb Hkeys') as [[Hr Hle]|(l1&r&kr&l2&->&Hr&Hkr&Hlt'&H1&H2)].
      * left. split; [done|]. intros y ky Hy Hky.
        apply elem_of_cons in Hy as [->|Hy]; [|by eapply Hle].
        rewrite Hkx in Hky. injection Hky as <-. done.
      * right. exists (x :: l1), r, kr, l2. repeat split; try done.
        intros y ky Hy Hky. apply elem_of_cons in Hy as [->|Hy]; [|by eapply H1].
        rewrite Hkx in Hky. injection Hky as <-. lia.
Qed.

(** [max] returns the first of the items whose key is the greatest. *)
Lemma py_max_first {A} (key : A → option Z) (l : list A) :
  l ≠ [] → (∀ y, y ∈ l → is_Some (key y)) →
  ∃ l1 r kr l2,
    l = l1 ++ r :: l2 ∧ py_max key l = Some r ∧ key r = Some kr
    ∧ (∀ y ky, y ∈ l1 → key y = Some ky → (ky < kr)%Z)
    ∧ (∀ y ky, y ∈ l2 → key y = Some ky → (ky ≤ kr)%Z).
Proof.
  destruct l as [|x l]; [done|]. intros _ Hkeys.
  destruct (Hkeys x) as [kx Hkx]; [by left|].
  simpl. rewrite Hkx.
  destruct (max_loop_first key l x kx) as [[Hr Hle]|(l1&r&kr&l2&->&Hr&Hkr&Hlt&H1&H2)].
  - intros y Hy. apply Hkeys. by right.
  - exists [], x, kx, l. repeat split; try done.
    intros y ky Hy. by apply elem_of_nil in Hy.
  - exists (x :: l1), r, kr, l2. repeat split; try done.
    intros y ky Hy Hky. apply elem_of_cons in Hy as [->|Hy]; [|by eapply H1].
    rewrite Hkx in Hky. injection Hky as <-. done.
Qed.

Lemma rules_names :
  map fst rules =
    [u "Employment Agreement"; u "Lease Agreement";
     u "Vendor / Service Agreement"; u "Partnership Deed"].
Proof. reflexivity. Qed.

Lemma rules_NoDup : NoDup (map fst rules).
Proof.
  rewrite rules_names.
  repeat (apply NoDup_cons; split;
          [intros H; repeat (apply elem_of_cons in H as [H|H]; [discriminate H|]);
           by apply elem_of_nil in H|]).
  apply NoDup_nil_2.
Qed.

Lemma scores_of_names t : map fst (scores_of t) = map fst rules.
Proof. unfold scores_of. rewrite map_map. reflexivity. Qed.

Lemma scores_of_get t name kws :
  (name, kws) ∈ rules → dict_get (scores_of t) name = Some (count_in t kws).
Proof.
  intros Hin. apply dict_get_first.
  - rewrite scores_of_names. apply rules_NoDup.
  - unfold scores_of.
    apply list_elem_of_In. apply list_elem_of_In in Hin.
    apply (in_map (λ kv : str * list str, (kv.1, count_in t kv.2))) in Hin.
    exact Hin.
Qed.

Lemma count_in_bounds t v : (0 ≤ count_in t v ≤ Z.of_nat (length v))%Z.
Proof.
  induction v as [|w v IH]; simpl; [lia|].
  destruct (str_in w t); lia.
Qed.

Lemma count_in_zero t v :
  count_in t v = 0%Z ↔ ∀ w, w ∈ v → str_in w t = false.
Proof.
  induction v as [|w v IH]; simpl.
  - split; [|done]. intros _ w Hw. by apply elem_of_nil in Hw.
  - pose proof (count_in_bounds t v) as Hb. split.
    + intros H w' Hw'. destruct (str_in w t) eqn:E; [lia|].
      apply elem_of_cons in Hw' as [->|Hw']; [done|].
      apply IH; [lia|done].
    + intros H. rewrite (H w) by (by left).
      apply (proj2 IH). intros w' Hw'. apply H. by right.
Qed.

(** The confidence for every combination of keyword counts the four
    types can reach. *)
Lemma confidence_table (c1 c2 c3 c4 : Z) :
  (0 ≤ c1 ≤ 4)%Z → (0 ≤ c2 ≤ 3)%Z → (0 ≤ c3 ≤ 3)%Z → (0 ≤ c4 ≤ 2)%Z →
  let scores :=
    [ (u "Employment Agreement", c1); (u "Lease Agreement", c2);
      (u "Vendor / Service Agreement", c3); (u "Partnership Deed", c4) ] in
  ∃ best sb q,
    py_max (dict_get scores) (map fst scores) = Some best
    ∧ dict_get scores best = Some sb
    ∧ sb = Z.max c1 (Z.max c2 (Z.max c3 (Z.max c4 0)))
    ∧ Float.truediv sb (c1 + (c2 + (c3 + (c4 + 0))) + 1) = Some q
    ∧ Float.leb Float.zero (Float.round q 2) = true
    ∧ Float.ltb (Float.round q 2) Float.one = true
    ∧ Float.leb (Float.round q 2) Float.lit_0_8 = true
    ∧ (Float.round q 2 = Float.zero ↔ sb = 0%Z)
    ∧ (5 * sb ≤ 4 * (c1 + (c2 + (c3 + (c4 + 0))) + 1))%Z.
Proof.
  intros H1 H2 H3 H4 scores. subst scores.
  enum c1; enum c2; enum c3; enum c4;
    (eexists _, _, _;
     split; [vm_compute; reflexivity|];
     split; [vm_compute; reflexivity|];
     split; [vm_compute; reflexivity|];
     split; [vm_compute; reflexivity|];
     split; [vm_compute; reflexivity|];
     split; [vm_compute; reflexivity|];
     split; [vm_compute; reflexivity|];
     split; [vm_compute; split; (reflexivity || discriminate)|];
     vm_compute; discriminate).
Qed.

Variable U : unicode_data.

Lemma sum_values_nonneg (d : list (str * Z)) :
  (∀ kv, kv ∈ d → (0 ≤ kv.2)%Z) → (0 ≤ sum_values d)%Z.
Proof.
  induction d as [|kv d IH]; intros H; simpl; [lia|].
  assert (0 ≤ kv.2)%Z by (apply H; by left).
  assert (0 ≤ sum_values d)%Z by (apply IH; intros ? ?; apply H; by right).
  unfold sum_values in *. lia.
Qed.

(** The scores of a text, type by type. *)
Lemma scores_of_rules t :
  scores_of t =
    [ (u "Employment Agreement",
       count_in t [u "employee"; u "employer"; u "salary"; u "termination"]);
      (u "Lease Agreement", count_in t [u "rent"; u "tenant"; u "lease"]);
      (u "Vendor / Service Agreement",
       count_in t [u "vendor"; u "service"; u "fees"]);
      (u "Partnership Deed", count_in t [u "partner"; u "profit sharing"]) ].
Proof. reflexivity. Qed.

(** How [classify_contract] runs on the four counts of a text. *)
Lemma classify_contract_counts (text : str) :
  let t := py_lower U text in
  ∃ best q,
    classify_contract U text = Some (best, Float.round q 2)
    ∧ Float.truediv (best_score t) (total_score t + 1) = Some q
    ∧ Float.leb Float.zero (Float.round q 2) = true
    ∧ Float.ltb (Float.round q 2) Float.one = true
    ∧ Float.leb (Float.round q 2) Float.lit_0_8 = true
    ∧ (Float.round q 2 = Float.zero ↔ best_score t = 0%Z)
    ∧ (5 * best_score t ≤ 4 * (total_score t + 1))%Z.
Proof.
  intros t.
  destruct (confidence_table
              (count_in t [u "employee"; u "employer"; u "salary"; u "termination"])
              (count_in t [u "rent"; u "tenant"; u "lease"])
              (count_in t [u "vendor"; u "service"; u "fees"])
              (count_in t [u "partner"; u "profit sharing"]))
    as (best & sb & q & Hmax & Hget & Hsb & Hdiv & H0 & H1 & H8 & Hz & Hr);
    try apply count_in_bounds.
  exists best, q.
  assert (Hbest : best_score t = sb) by (rewrite Hsb; reflexivity).
  assert (Htot : total_score t =
                 (count_in t [u "employee"; u "employer"; u "salary"; u "termination"]
                  + (count_in t [u "rent"; u "tenant"; u "lease"]
                     + (count_in t [u "vendor"; u "service"; u "fees"]
                        + (count_in t [u "partner"; u "profit sharing"] + 0))))%Z)
    by reflexivity.
  rewrite Hbest, Htot.
  split; [|done].
  unfold classify_contract. fold t. rewrite scores_of_rules.
  rewrite Hmax. cbn [mbind option_bind]. rewrite Hget. cbn [mbind option_bind].
  cbn [sum_values foldr snd]. rewrite Hdiv. reflexivity.
Qed.

Lemma best_score_zero t :
  best_score t = 0%Z ↔
  ∀ name kws w, (name, kws) ∈ rules → w ∈ kws → str_in w t = false.
Proof.
  unfold best_score, counts, rules. cbn [map foldr snd].
  pose proof (count_in_bounds t [u "employee"; u "employer"; u "salary"; u "termination"]).
  pose proof (count_in_bounds t [u "rent"; u "tenant"; u "lease"]).
  pose proof (count_in_bounds t [u "vendor"; u "service"; u "fees"]).
  pose proof (count_in_bounds t [u "partner"; u "profit sharing"]).
  split.
  - intros Hmax name kws w Hin Hw.
    repeat (apply elem_of_cons in Hin as [Hin|Hin];
            [apply pair_equal_spec in Hin as [-> ->];
             eapply (proj1 (count_in_zero _ _)); [|exact Hw]; lia|]).
    by apply elem_of_nil in Hin.
  - intros Hno.
    assert (Hz : ∀ name kws, (name, kws) ∈ rules → count_in t kws = 0%Z).
    { intros name kws Hin. apply count_in_zero. intros w. by apply (Hno name). }
    rewrite (Hz (u "Employment Agreement")), (Hz (u "Lease Agreement")),
      (Hz (u "Vendor / Service Agreement")), (Hz (u "Partnership Deed"));
      first [ reflexivity
            | unfold rules;
              repeat (first [apply list_elem_of_here | apply list_elem_of_further]) ].
Qed.

(** C8: the confidence is the best score divided by the sum of all type
    scores plus one, rounded to two decimals; it is at least 0 and below 1;
    and it is 0.0 exactly when the lower-cased text holds no keyword of any
    type. *)
Theorem confidence_formula_and_range (text : str) :
  ∃ best q conf,
    classify_contract U text = Some (best, conf)
    ∧ Float.truediv (best_score (py_lower U text))
                    (total_score (py_lower U text) + 1) = Some q
    ∧ conf = Float.round q 2
    ∧ Float.leb Float.zero conf = true
    ∧ Float.ltb conf Float.one = true
    ∧ (conf = Float.zero ↔
       ∀ name kws w, (name, kws) ∈ rules → w ∈ kws →
                     str_in w (py_lower U text) = false).
Proof.
  destruct (classify_contract_counts text)
    as (best & q & Hc & Hdiv & H0 & H1 & _ & Hz & _).
  exists best, q, (Float.round q 2).
  repeat (split; [done|]).
  rewrite Hz. apply best_score_zero.
Qed.

(** C10: the confidence is at most 0.8: no type has more than four
    keywords, so five times the best score is at most four times the sum of
    the scores plus one, and rounding keeps the quotient at or under 0.8. *)
Theorem confidence_at_most_0_8 (text : str) :
  Forall (λ kv, length kv.2 ≤ 4)%nat rules
  ∧ (5 * best_score (py_lower U text)
     ≤ 4 * (total_score (py_lower U text) + 1))%Z
  ∧ ∃ best conf,
      classify_contract U text = Some (best, conf)
      ∧ Float.leb conf Float.lit_0_8 = true.
Proof.
  destruct (classify_contract_counts text)
    as (best & q & Hc & _ & _ & _ & H8 & _ & Hr).
  split; [repeat constructor|]. split; [exact Hr|].
  exists best, (Float.round q 2). done.
Qed.

End ClassifierFacts.

Section ClassifierTies.
Import Classify.
Variable U : unicode_data.

Lemma scores_of_keys_some t y :
  y ∈ map fst (scores_of t) → is_Some (dict_get (scores_of t) y).
Proof.
  rewrite scores_of_names. intros Hy.
  apply list_elem_of_In, in_map_iff in Hy as ([name kws] & <- & Hin).
  exists (count_in t kws). apply scores_of_get. by apply list_elem_of_In.
Qed.

Lemma total_nonneg t : (0 ≤ sum_values (scores_of t))%Z.
Proof.
  apply sum_values_nonneg. intros kv Hkv.
  apply list_elem_of_In, in_map_iff in Hkv as ([name kws] & <- & _).
  apply count_in_bounds.
Qed.

(** C9: the classifier returns the first type, in the declaration order
    Employment Agreement, Lease Agreement, Vendor / Service Agreement,
    Partnership Deed, whose keyword count is the greatest: the types declared
    before it count strictly less and those declared after it count no more;
    so of the types that tie on the greatest count the first one is
    returned. *)
Theorem classify_first_of_maximal (text : str) :
  map fst rules =
    [u "Employment Agreement"; u "Lease Agreement";
     u "Vendor / Service Agreement"; u "Partnership Deed"]
  ∧ ∃ best conf before kws after,
      classify_contract U text = Some (best, conf)
      ∧ rules = before ++ (best, kws) :: after
      ∧ (∀ kv, kv ∈ before →
               (count_in (py_lower U text) kv.2 < count_in (py_lower U text) kws)%Z)
      ∧ (∀ kv, kv ∈ after →
               (count_in (py_lower U text) kv.2 ≤ count_in (py_lower U text) kws)%Z).
Proof.
  split; [reflexivity|].
  set (t := py_lower U text).
  destruct (py_max_first (dict_get (scores_of t)) (map fst (scores_of t)))
    as (l1 & r & kr & l2 & Hsplit & Hmax & Hkr & Hbefore & Hafter).
  { rewrite scores_of_names. discriminate. }
  { apply scores_of_keys_some. }
  rewrite scores_of_names in Hsplit.
  apply map_eq_app in Hsplit as (before & rest' & Hrules & <- & Hrest).
  apply map_eq_cons in Hrest as ([best kws] & after & -> & <- & <-).
  cbn [fst] in *.
  assert (Hin : ∀ kv, kv ∈ rules → dict_get (scores_of t) kv.1 = Some (count_in t kv.2)).
  { intros [name kws'] Hkv. by apply scores_of_get. }
  assert (Hbest : dict_get (scores_of t) best = Some (count_in t kws)).
  { apply (Hin (best, kws)). rewrite Hrules.
    apply elem_of_app. right. by left. }
  assert (kr = count_in t kws) as -> by congruence.
  pose proof (total_nonneg t) as Htot.
  exists best, (Float.round
                  (SFdiv Float.prec Float.emax (Float.of_int (count_in t kws))
                     (Float.of_int (sum_values (scores_of t) + 1))) 2),
    before, kws, after.
  split.
  { unfold classify_contract. fold t. rewrite Hmax. cbn [mbind option_bind].
    rewrite Hbest. cbn [mbind option_bind]. unfold Float.truediv.
    destruct (Z.eqb_spec (sum_values (scores_of t) + 1) 0); [lia|]. reflexivity. }
  split; [exact Hrules|]. split.
  - intros kv Hkv. apply (Hbefore kv.1).
    + apply list_elem_of_In, in_map, list_elem_of_In, Hkv.
    + apply Hin. rewrite Hrules. apply elem_of_app. by left.
  - intros kv Hkv. apply (Hafter kv.1).
    + apply list_elem_of_In, in_map, list_elem_of_In, Hkv.
    + apply Hin. rewrite Hrules. apply elem_of_app. right. by right.
Qed.

End ClassifierTies.

(** ** The language tag *)

Section LanguageFacts.
Import Language.
Variable detect : str → option str.

(** C3, amended: [normalize_language] is a total function of the text and
    of what detection does, so nothing is raised; when detection raises,
    the code noted is "unknown" and the tag returned is "English", as for
    every detected code other than "hi"; a detected "hi" gives "Hindi".
    The tag is always "Hindi" or "English", never "unknown", and the text
    is returned as it came. *)
Theorem normalize_language_tags (text : str) :
  (detect text = None →
   language (normalize_language detect text) = u "English")
  ∧ (detect text = Some (u "hi") →
     language (normalize_language detect text) = u "Hindi")
  ∧ (∀ code, detect text = Some code → code ≠ u "hi" →
             language (normalize_language detect text) = u "English")
  ∧ (language (normalize_language detect text) = u "Hindi"
     ∨ language (normalize_language detect text) = u "English")
  ∧ language (normalize_language detect text) ≠ u "unknown"
  ∧ normalized (normalize_language detect text) = text.
Proof.
  unfold normalize_language. cbn [language normalized].
  destruct (detect text) as [code|] eqn:Hd.
  - destruct (str_eqb code (u "hi")) eqn:Hhi.
    + apply str_eqb_eq in Hhi as ->.
      split; [discriminate|]. split; [reflexivity|].
      split; [intros code [= <-] Hne; done|].
      split; [by left|]. split; [discriminate|reflexivity].
    + split; [discriminate|]. split.
      { intros [= ->]. by rewrite str_eqb_refl in Hhi. }
      split; [reflexivity|]. split; [by right|].
      split; [discriminate|reflexivity].
  - cbn. split; [reflexivity|]. split; [discriminate|].
    split; [discriminate|]. split; [by right|].
    split; [discriminate|reflexivity].
Qed.

End LanguageFacts.

Lemma normalize_language_tags_witness :
  (λ _ : str, @None str) [] = None
  ∧ Language.language (Language.normalize_language (λ _, None) []) = u "English".
Proof.
  split; [reflexivity|].
  apply (normalize_language_tags (λ _, None) []). reflexivity.
Defined.

(** C3 as stated fails: a failed detection is not tagged "unknown". *)
Lemma failed_detection_is_not_unknown :
  ¬ ∀ detect text,
      detect text = None →
      Language.language (Language.normalize_language detect text) = u "unknown".
Proof.
  intros H. specialize (H (λ _, None) [] eq_refl). discriminate H.
Qed.

(** ** The matcher *)

Section MatcherFacts.
Variable U : unicode_data.

Lemma rep_loop_passes m lo hi :
  hands_on m →
  ∀ fuel k n s x,
    rep_loop m lo hi k fuel n s = Some x →
    ∃ s', k s' = Some x ∧ suffix (rest s') (rest s).
Proof.
  intros Hm fuel k. induction fuel as [|fuel IH]; intros n s x; simpl.
  - destruct (lo <=? n)%nat; [|discriminate]. intros Hk. by exists s.
  - assert (Hleave : (if (lo <=? n)%nat then k s else None) = Some x →
                     ∃ s', k s' = Some x ∧ suffix (rest s') (rest s)).
    { destruct (lo <=? n)%nat; [|discriminate]. intros Hk. by exists s. }
    destruct (upto hi n); [|exact Hleave].
    match goal with
    | |- context [m ?k' s] => destruct (m k' s) as [y|] eqn:Hagain
    end; [|exact Hleave].
    intros [= ->]. apply Hm in Hagain as (s1 & Hs1 & Hsuf).
    destruct (length (rest s1) <? length (rest s))%nat; [|discriminate].
    apply IH in Hs1 as (s' & Hk & Hsuf'). exists s'. split; [done|].
    by etrans.
Qed.

Lemma rmatch_hands_on r : hands_on (rmatch U r).
Proof.
  induction r as [|p| | |r1 IH1 r2 IH2|r1 IH1 r2 IH2|lo hi r IH|r IH];
    intros k s x; simpl.
  - intros Hk. by exists s.
  - destruct (rest s) as [|c tl] eqn:Hs; [discriminate|].
    destruct (p c); [|discriminate]. intros Hk.
    eexists. split; [exact Hk|]. simpl. by apply suffix_cons_r.
  - destruct (prev s); [discriminate|]. intros Hk. by exists s.
  - destruct (xorb _ _); [|discriminate]. intros Hk. by exists s.
  - intros H. apply IH1 in H as (s1 & H & Hsuf1).
    apply IH2 in H as (s2 & H & Hsuf2). exists s2. split; [done|]. by etrans.
  - destruct (rmatch U r1 k s) eqn:H1.
    + intros [= ->]. by apply IH1.
    + by apply IH2.
  - by apply rep_loop_passes.
  - intros H. apply IH in H as (s1 & H & Hsuf). eexists. split; [exact H|]. done.
Qed.

(** A continuation that refuses everything makes the match fail. *)
Lemma rmatch_refused r s : rmatch U r (λ _, None) s = None.
Proof.
  destruct (rmatch U r (λ _, None) s) eqn:H; [|done].
  apply rmatch_hands_on in H as (? & ? & _). discriminate.
Qed.

Lemma rmatch_chr q k st :
  rmatch U (Chr q) k st =
    match rest st with
    | c :: tl => if q c then k (MState (Some c) tl (grp st)) else None
    | [] => None
    end.
Proof. reflexivity. Qed.

Lemma search_eq r adv p s :
  search U r adv p s =
    match rmatch U r
            (λ e, if adv && (length (rest e) =? length s)%nat
                  then None else Some e)
            (MState p s None) with
    | Some e =>
        Some (Found [] (take (length s - length (rest e)) s) (grp e)
                (prev e) (rest e))
    | None =>
        match s with
        | [] => None
        | c :: s' =>
            match search U r false (Some c) s' with
            | Some f =>
                Some (Found (c :: f_pre f) (f_text f) (f_grp f)
                        (f_prev f) (f_rest f))
            | None => None
            end
        end
    end.
Proof. destruct s; reflexivity. Qed.

Lemma take_suffix_diff (w t : str) :
  take (length (w ++ t) - length t) (w ++ t) = w.
Proof.
  rewrite length_app.
  replace (length w + length t - length t)%nat with (length w) by lia.
  by rewrite take_app_length.
Qed.

(** What a successful first attempt of [search] returns. *)
Lemma first_attempt r adv p s e :
  rmatch U r
    (λ e, if adv && (length (rest e) =? length s)%nat then None else Some e)
    (MState p s None) = Some e →
  ∃ w, s = w ++ rest e ∧ take (length s - length (rest e)) s = w
       ∧ (adv = true → w ≠ []).
Proof.
  intros H. apply rmatch_hands_on in H as (e' & He & [w Hw]). simpl in Hw.
  destruct (adv && (length (rest e') =? length s)%nat) eqn:Hadv; [discriminate|].
  injection He as ->. exists w. split; [done|].
  split; [rewrite Hw; apply take_suffix_diff|].
  intros ->. simpl in Hadv. apply Nat.eqb_neq in Hadv.
  intros ->. simpl in Hw. by rewrite Hw in Hadv.
Qed.

(** A match splits the text: what precedes it, the match, what follows. *)
Lemma search_found r adv p s f :
  search U r adv p s = Some f → s = f_pre f ++ f_text f ++ f_rest f.
Proof.
  revert adv p f. induction s as [|c s IH]; intros adv p f; rewrite search_eq;
    (destruct (rmatch _ _ _ _) as [e|] eqn:He;
     [intros Hf; apply (inj Some) in Hf; subst f; cbn [f_pre f_text f_rest];
      apply first_attempt in He as (w & Hw & Ht & _); by rewrite Ht|]).
  - discriminate.
  - destruct (search U r false (Some c) s) as [f'|] eqn:Hs; [|discriminate].
    intros Hf; apply (inj Some) in Hf; subst f. cbn [f_pre f_text f_rest].
    rewrite <- app_comm_cons. f_equal. by apply IH in Hs.
Qed.

(** After an empty match the next one is not the same empty match. *)
Lemma search_advances r p s f :
  search U r true p s = Some f → f_pre f = [] → f_text f ≠ [].
Proof.
  rewrite search_eq.
  destruct (rmatch _ _ _ _) as [e|] eqn:He.
  - intros Hf _; apply (inj Some) in Hf; subst f. cbn [f_text].
    apply first_attempt in He as (w & Hw & Ht & Hne). rewrite Ht. by apply Hne.
  - destruct s as [|c s]; [discriminate|].
    destruct (search U r false (Some c) s); [|discriminate].
    intros Hf; apply (inj Some) in Hf; subst f. discriminate.
Qed.

Lemma scan_eq r fuel adv p s :
  scan U r (S fuel) adv p s =
    match search U r adv p s with
    | None => ([], s)
    | Some f =>
        let '(fs, tl) :=
          scan U r fuel (bool_decide (f_text f = [])) (f_prev f) (f_rest f) in
        (f :: fs, tl)
    end.
Proof. reflexivity. Qed.

(** The matches of a scan and the texts between them make up the text. *)
Lemma scan_text r fuel :
  ∀ adv p s fs tl,
    scan U r fuel adv p s = (fs, tl) →
    s = concat (map (λ f, f_pre f ++ f_text f) fs) ++ tl.
Proof.
  induction fuel as [|fuel IH]; intros adv p s fs tl.
  - intros [= <- <-]. reflexivity.
  - rewrite scan_eq. destruct (search U r adv p s) as [f|] eqn:Hf.
    + destruct (scan U r fuel _ _ _) as [fs' tl'] eqn:Hscan.
      intros [= <- <-]. apply IH in Hscan. apply search_found in Hf.
      cbn [map concat]. rewrite <- !app_assoc, <- Hscan. exact Hf.
    + intros [= <- <-]. reflexivity.
Qed.

(** What holds of every match of [search] holds of every match of a scan. *)
Lemma scan_Forall r (P : found → Prop) :
  (∀ adv p s f, search U r adv p s = Some f → P f) →
  ∀ fuel adv p s fs tl, scan U r fuel adv p s = (fs, tl) → Forall P fs.
Proof.
  intros HP. induction fuel as [|fuel IH]; intros adv p s fs tl.
  - intros [= <- <-]. constructor.
  - rewrite scan_eq. destruct (search U r adv p s) as [f|] eqn:Hf.
    + destruct (scan U r fuel _ _ _) as [fs' tl'] eqn:Hscan.
      intros [= <- <-]. constructor; [by eapply HP|by eapply IH].
    + intros [= <- <-]. constructor.
Qed.

Lemma scan_all_none r s :
  re_search U r s = None → scan_all U r s = ([], s).
Proof.
  unfold re_search, scan_all. intros H.
  replace (2 * length s + 2)%nat with (S (2 * length s + 1)) by lia.
  by rewrite scan_eq, H.
Qed.

Lemma scan_all_some r s f :
  re_search U r s = Some f →
  ∃ fs tl, scan_all U r s = (f :: fs, tl).
Proof.
  unfold re_search, scan_all. intros H.
  replace (2 * length s + 2)%nat with (S (2 * length s + 1)) by lia.
  rewrite scan_eq, H. destruct (scan U r _ _ _ _) as [fs tl]. by exists fs, tl.
Qed.

(** A group hands on what it matched. *)
Lemma rmatch_group R k st e :
  rmatch U (Group R) k st = Some e →
  ∃ g s2, rest st = g ++ rest s2
          ∧ k (MState (prev s2) (rest s2) (Some g)) = Some e.
Proof.
  cbn [rmatch]. intros H.
  apply rmatch_hands_on in H as (s2 & Hk & [g Hg]).
  exists g, s2. split; [done|]. by rewrite Hg, take_suffix_diff in Hk.
Qed.

(** One attempt of [(?:^|\s)(R)]: the group holds all of the match but the
    one whitespace character it may start with. *)
Lemma rmatch_sep_group (q : N → bool) (R : regex) k st e :
  rmatch U (Alt Bol (Chr q) +++ Group R) k st = Some e →
  ∃ sep g s2,
    rest st = sep ++ g ++ rest s2
    ∧ k (MState (prev s2) (rest s2) (Some g)) = Some e
    ∧ (sep = [] ∨ ∃ c, sep = [c] ∧ q c = true).
Proof.
  change (rmatch U (Alt Bol (Chr q) +++ Group R) k st)
    with (match rmatch U Bol (rmatch U (Group R) k) st with
          | Some x => Some x
          | None => rmatch U (Chr q) (rmatch U (Group R) k) st
          end).
  set (k' := rmatch U (Group R) k).
  destruct (rmatch U Bol k' st) as [x|] eqn:Hbol.
  - intros Hx; apply (inj Some) in Hx; subst x.
    cbn [rmatch] in Hbol. destruct (prev st); [discriminate|].
    apply rmatch_group in Hbol as (g & s2 & Hg & Hk).
    exists [], g, s2. split; [done|]. split; [done|by left].
  - clear Hbol. cbn [rmatch].
    destruct (rest st) as [|c tl] eqn:Hst; [discriminate|].
    destruct (q c) eqn:Hq; [|discriminate]. intros H.
    apply rmatch_group in H as (g & s2 & Hg & Hk). cbn [rest] in Hg.
    exists [c], g, s2. split; [by rewrite Hg|]. split; [done|].
    right. by exists c.
Qed.

Lemma search_sep_group (q : N → bool) (R : regex) adv p s f :
  search U (Alt Bol (Chr q) +++ Group R) adv p s = Some f →
  ∃ sep g, f_text f = sep ++ g ∧ f_grp f = Some g
           ∧ (sep = [] ∨ ∃ c, sep = [c] ∧ q c = true).
Proof.
  revert adv p f.
  assert (Hfirst : ∀ adv p s e,
    rmatch U (Alt Bol (Chr q) +++ Group R)
      (λ e, if adv && (length (rest e) =? length s)%nat then None else Some e)
      (MState p s None) = Some e →
    ∃ sep g, take (length s - length (rest e)) s = sep ++ g ∧ grp e = Some g
             ∧ (sep = [] ∨ ∃ c, sep = [c] ∧ q c = true)).
  { intros adv p s0 e He.
    apply rmatch_sep_group in He as (sep & g & s2 & Hs & Hk & Hsep).
    cbn [rest] in Hs, Hk. destruct (adv && _); [discriminate|].
    apply (inj Some) in Hk; subst e. cbn [rest grp].
    exists sep, g. split; [|done].
    rewrite Hs, app_assoc. apply take_suffix_diff. }
  induction s as [|c s IH]; intros adv p f; rewrite search_eq;
    (destruct (rmatch _ _ _ _) as [e|] eqn:He;
     [intros Hf; apply (inj Some) in Hf; subst f; cbn [f_text f_grp];
      by eapply Hfirst|]).
  - discriminate.
  - destruct (search U _ false (Some c) s) as [f'|] eqn:Hs; [|discriminate].
    intros Hf; apply (inj Some) in Hf; subst f. cbn [f_text f_grp].
    by eapply IH.
Qed.

End MatcherFacts.

Section FuelFacts.
Variable U : unicode_data.

Lemma rep_loop_local m lo hi :
  local_to_text m →
  ∀ fuel k1 k2 n s,
    (∀ s', suffix (rest s') (rest s) → k1 s' = k2 s') →
    rep_loop m lo hi k1 fuel n s = rep_loop m lo hi k2 fuel n s.
Proof.
  intros Hm. induction fuel as [|fuel IH]; intros k1 k2 n s Hk; simpl.
  - by rewrite (Hk s).
  - rewrite (Hk s) by done.
    destruct (upto hi n); [|done].
    erewrite (Hm _ _ s); [reflexivity|].
    intros s' Hs'. simpl. destruct (_ <? _)%nat; [|done].
    apply IH. intros s'' Hs''. apply Hk. by etrans.
Qed.

Lemma rmatch_local r : local_to_text (rmatch U r).
Proof.
  induction r as [|p| | |r1 IH1 r2 IH2|r1 IH1 r2 IH2|lo hi r IH|r IH];
    intros k1 k2 s Hk; simpl.
  - by apply Hk.
  - destruct (rest s) as [|c tl] eqn:Hs; [done|].
    destruct (p c); [|done]. apply Hk. simpl. by apply suffix_cons_r.
  - destruct (prev s); [done|]. by apply Hk.
  - destruct (xorb _ _); [|done]. by apply Hk.
  - apply IH1. intros s1 Hs1. apply IH2. intros s2 Hs2. apply Hk. by etrans.
  - rewrite (IH1 k1 k2 s Hk), (IH2 k1 k2 s Hk). done.
  - by apply rep_loop_local.
  - apply IH. intros s1 Hs1. by apply Hk.
Qed.

(** The fuel of a repeat is enough: with any fuel that is at least the
    length of the text ahead the loop does the same. *)
Lemma rep_loop_fuel m lo hi k :
  hands_on m → local_to_text m →
  ∀ f1 f2 n s,
    (length (rest s) ≤ f1)%nat → (length (rest s) ≤ f2)%nat →
    rep_loop m lo hi k f1 n s = rep_loop m lo hi k f2 n s.
Proof.
  intros Hm Hloc.
  assert (Hstop : ∀ f n s, rest s = [] →
            rep_loop m lo hi k f n s = (if (lo <=? n)%nat then k s else None)).
  { intros [|f] n s Hs; simpl; [done|].
    destruct (upto hi n); [|done].
    match goal with |- context [m ?k' s] => destruct (m k' s) as [x|] eqn:Hx end;
      [|done].
    apply Hm in Hx as (s' & Hx & _). rewrite Hs in Hx. discriminate. }
  induction f1 as [|f1 IH]; intros f2 n s H1 H2.
  - assert (rest s = []) as Hs by (destruct (rest s); [done|simpl in H1; lia]).
    by rewrite !Hstop.
  - destruct f2 as [|f2].
    + assert (rest s = []) as Hs by (destruct (rest s); [done|simpl in H2; lia]).
      by rewrite !Hstop.
    + simpl. destruct (upto hi n); [|done].
      erewrite (Hloc _ _ s); [reflexivity|].
      intros s' Hs'. simpl.
      destruct (Nat.ltb_spec (length (rest s')) (length (rest s))); [|done].
      apply IH; lia.
Qed.

(** What is left to scan gets smaller with every match. *)
Lemma scan_fuel r :
  ∀ f1 f2 (adv : bool) p s,
    (2 * length s + (if adv then 0 else 1) < f1)%nat →
    (2 * length s + (if adv then 0 else 1) < f2)%nat →
    scan U r f1 adv p s = scan U r f2 adv p s.
Proof.
  induction f1 as [|f1 IH]; intros f2 adv p s H1 H2; [lia|].
  destruct f2 as [|f2]; [lia|]. rewrite !scan_eq.
  destruct (search U r adv p s) as [f|] eqn:Hf; [|done].
  pose proof (search_found U _ _ _ _ _ Hf) as Hs.
  apply (f_equal length) in Hs. rewrite !length_app in Hs.
  assert (Hlt : (2 * length (f_rest f)
                 + (if bool_decide (f_text f = []) then 0 else 1)
                 < 2 * length s + (if adv then 0 else 1))%nat).
  { case_bool_decide as Ht.
    - destruct (f_pre f) as [|c pre] eqn:Hpre; [|simpl in Hs; lia].
      destruct adv; [|lia].
      by apply search_advances in Hf.
    - destruct (f_text f); [done|simpl in Hs; lia]. }
  rewrite (IH f2); [done|lia|lia].
Qed.

(** The fuel of [scan_all] is enough. *)
Lemma scan_all_fuel r s n :
  scan U r (2 * length s + 2 + n) false None s = scan_all U r s.
Proof. unfold scan_all. apply scan_fuel; lia. Qed.

End FuelFacts.

(** ** Groups *)

Section GroupFacts.
Variable U : unicode_data.

Lemma rep_loop_keeps_group m lo hi :
  keeps_group m →
  ∀ fuel k n s x,
    rep_loop m lo hi k fuel n s = Some x →
    ∃ s', k s' = Some x ∧ grp s' = grp s.
Proof.
  intros Hm fuel k. induction fuel as [|fuel IH]; intros n s x; simpl.
  - destruct (lo <=? n)%nat; [|discriminate]. intros Hk. by exists s.
  - assert (Hleave : (if (lo <=? n)%nat then k s else None) = Some x →
                     ∃ s', k s' = Some x ∧ grp s' = grp s).
    { destruct (lo <=? n)%nat; [|discriminate]. intros Hk. by exists s. }
    destruct (upto hi n); [|exact Hleave].
    match goal with
    | |- context [m ?k' s] => destruct (m k' s) as [y|] eqn:Hagain
    end; [|exact Hleave].
    intros [= ->]. apply Hm in Hagain as (s1 & Hs1 & Hg).
    destruct (length (rest s1) <? length (rest s))%nat; [|discriminate].
    apply IH in Hs1 as (s' & Hk & Hg'). exists s'. split; [done|]. congruence.
Qed.

(** A pattern without a group leaves the group as it found it. *)
Lemma rmatch_keeps_group r : has_group r = false → keeps_group (rmatch U r).
Proof.
  induction r as [|p| | |r1 IH1 r2 IH2|r1 IH1 r2 IH2|lo hi r IH|r IH];
    simpl; intros Hg k s x.
  - intros Hk. by exists s.
  - destruct (rest s) as [|c tl]; [discriminate|].
    destruct (p c); [|discriminate]. intros Hk. eexists. split; [exact Hk|done].
  - destruct (prev s); [discriminate|]. intros Hk. by exists s.
  - destruct (xorb _ _); [|discriminate]. intros Hk. by exists s.
  - apply orb_false_iff in Hg as [Hg1 Hg2]. intros H.
    apply (IH1 Hg1) in H as (s1 & H & E1).
    apply (IH2 Hg2) in H as (s2 & H & E2). exists s2. split; [done|congruence].
  - apply orb_false_iff in Hg as [Hg1 Hg2].
    destruct (rmatch U r1 k s) eqn:H1.
    + intros [= ->]. by apply (IH1 Hg1).
    + by apply (IH2 Hg2).
  - apply rep_loop_keeps_group. by apply IH.
  - discriminate.
Qed.

(** A literal word matches itself only. *)
Lemma rmatch_word (w : str) :
  ∀ k s x,
    rmatch U (Word w) k s = Some x →
    ∃ s', k s' = Some x ∧ rest s = w ++ rest s'.
Proof.
  induction w as [|c w IH]; intros k s x.
  - simpl. intros Hk. by exists s.
  - assert (Hstep : rmatch U (Lit c +++ Word w) k s = Some x →
                    ∃ s', k s' = Some x ∧ rest s = (c :: w) ++ rest s').
    { cbn [rmatch Lit]. unfold Lit.
      destruct (rest s) as [|c' tl] eqn:Hs; [discriminate|].
      destruct (N.eqb_spec c c') as [<-|]; [|discriminate].
      intros H. apply IH in H as (s' & Hk & Hr). cbn [rest] in Hr.
      exists s'. split; [done|]. by rewrite Hr. }
    destruct w as [|c2 w]; [|exact Hstep].
    intros H. apply Hstep. exact H.
Qed.

(** [(?:q)?] takes one character or none. *)
Lemma rmatch_opt_chr q k s x :
  rmatch U (Opt (Chr q)) k s = Some x →
  (∃ c tl, rest s = c :: tl ∧ q c = true
           ∧ k (MState (Some c) tl (grp s)) = Some x)
  ∨ k s = Some x.
Proof.
  unfold Opt.
  change (rmatch U (Rep 0 (Some 1%nat) (Chr q)) k s)
    with (rep_loop (rmatch U (Chr q)) 0 (Some 1%nat) k (length (rest s)) 0 s).
  destruct (length (rest s)) as [|fuel] eqn:Hlen.
  - cbn [rep_loop Nat.leb]. by right.
  - cbn [rep_loop upto Nat.leb Nat.ltb]. rewrite rmatch_chr.
    destruct (rest s) as [|c tl] eqn:Hs; [by right|].
    destruct (q c) eqn:Hq; [|by right]. cbn [rest length].
    rewrite Nat.leb_refl.
    match goal with
    | |- context [rep_loop ?m 0 (Some 1%nat) k fuel 1 ?st] =>
        assert (Hin : rep_loop m 0 (Some 1%nat) k fuel 1 st = k st)
          by (destruct fuel; reflexivity)
    end.
    rewrite Hin. destruct (k _) eqn:Hk.
    + intros [= ->]. left. by exists c, tl.
    + by right.
Qed.

Lemma rmatch_alt r1 r2 k s x :
  rmatch U (Alt r1 r2) k s = Some x →
  rmatch U r1 k s = Some x ∨ rmatch U r2 k s = Some x.
Proof.
  cbn [rmatch]. destruct (rmatch U r1 k s); [by left|by right].
Qed.

(** A group over a pattern that matches only texts of [W] holds one of
    them. *)
Lemma rmatch_group_only (W : str → Prop) G k st e :
  matches_only W (rmatch U G) →
  rmatch U (Group G) k st = Some e →
  ∃ w s2, W w ∧ k (MState (prev s2) (rest s2) (Some w)) = Some e.
Proof.
  intros HG. cbn [rmatch]. intros H.
  apply HG in H as (s2 & w & HW & Hr & Hk).
  exists w, s2. split; [done|]. by rewrite Hr, take_suffix_diff in Hk.
Qed.

(** In a match of [(G)R] with no group in [R], the group holds what [G]
    matched. *)
Lemma search_group_first (W : str → Prop) G R :
  has_group R = false → matches_only W (rmatch U G) →
  ∀ s adv p f,
    search U (Group G +++ R) adv p s = Some f →
    ∃ w, f_grp f = Some w ∧ W w.
Proof.
  intros HR HG.
  assert (Hfirst : ∀ (adv : bool) p s e,
            rmatch U (Group G +++ R)
              (λ e, if adv && (length (rest e) =? length s)%nat
                    then None else Some e)
              (MState p s None) = Some e →
            ∃ w, grp e = Some w ∧ W w).
  { intros adv p s e He.
    change (rmatch U (Group G +++ R) ?k ?st)
      with (rmatch U (Group G) (rmatch U R k) st) in He.
    apply (rmatch_group_only W) in He as (w & s2 & HW & He); [|done].
    apply (rmatch_keeps_group R HR) in He as (s3 & He & Hgrp).
    destruct (adv && _); [discriminate|].
    apply (inj Some) in He; subst s3. exists w. by split. }
  induction s as [|c s IH]; intros adv p f; rewrite search_eq;
    (destruct (rmatch _ _ _ _) as [e|] eqn:He;
     [intros Hf; apply (inj Some) in Hf; subst f; cbn [f_grp];
      by eapply Hfirst|]).
  - discriminate.
  - destruct (search U _ false (Some c) s) as [f'|] eqn:Hs; [|discriminate].
    intros Hf; apply (inj Some) in Hf; subst f. cbn [f_grp]. by eapply IH.
Qed.

End GroupFacts.

(** ** Entities *)

Section EntityFacts.
Import Entities.
Variable U : unicode_data.

(** The group of the amount pattern matches a currency mark and nothing
    more. *)
Lemma currency_group_only :
  matches_only (λ w, w ∈ currency_marks)
    (rmatch U (Alt (Lit 8377) (Alt (Lit 36) (Word (u "Rs") +++ Opt (Lit 46))))).
Proof.
  intros k s x H. unfold currency_marks.
  apply rmatch_alt in H as [H|H]; [|apply rmatch_alt in H as [H|H]].
  - apply (rmatch_word U [8377]) in H as (s' & Hk & Hr).
    exists s', [8377]. split; [by left|done].
  - apply (rmatch_word U [36]) in H as (s' & Hk & Hr).
    exists s', [36]. split; [right; by left|done].
  - change (rmatch U (Word (u "Rs") +++ Opt (Lit 46)) k s)
      with (rmatch U (Word (u "Rs")) (rmatch U (Opt (Lit 46)) k) s) in H.
    apply rmatch_word in H as (s1 & H & Hr).
    apply rmatch_opt_chr in H as [(c & tl & Hs1 & Hc & Hk)|Hk].
    + apply N.eqb_eq in Hc as <-. eexists _, (u "Rs."). split.
      { do 3 right. by left. }
      split; [|exact Hk]. cbn [rest]. rewrite Hr, Hs1. reflexivity.
    + exists s1, (u "Rs"). split; [|done]. do 2 right. by left.
Qed.

(** The group of the party pattern matches a role keyword and nothing
    more. *)
Lemma role_group_only :
  matches_only (λ w, w ∈ role_keywords)
    (rmatch U (Alt (Word (u "Employer")) (Alt (Word (u "Employee"))
               (Alt (Word (u "Company")) (Alt (Word (u "Vendor"))
                    (Word (u "Client"))))))).
Proof.
  intros k s x H. unfold role_keywords.
  repeat (apply rmatch_alt in H as [H|H]);
    apply rmatch_word in H as (s' & Hk & Hr);
    (eexists s', _; split; [|split; [exact Hr|exact Hk]]);
    repeat (first [apply list_elem_of_here | apply list_elem_of_further]).
Qed.

(** What [findall] returns for a pattern [(G)R] with no group in [R]. *)
Lemma findall_group_first (W : str → Prop) G R (text x : str) :
  has_group R = false → matches_only W (rmatch U G) →
  x ∈ re_findall U (Group G +++ R) text → W x.
Proof.
  intros HR HG. unfold re_findall. cbn [has_group orb].
  intros Hx. apply list_elem_of_In, in_map_iff in Hx as (f & <- & Hf).
  destruct (scan_all U (Group G +++ R) text) as [fs tl] eqn:Hscan.
  cbn [fst] in Hf.
  assert (Hall : Forall (λ f, ∃ w, f_grp f = Some w ∧ W w) fs).
  { eapply scan_Forall; [|exact Hscan].
    intros adv p s f'. by apply search_group_first. }
  rewrite Forall_forall in Hall.
  destruct (Hall f) as (w & -> & Hw); [by apply list_elem_of_In|]. exact Hw.
Qed.

Lemma paid_amounts : re_findall U (amounts_re U) paid_text = [u "Rs."].
Proof. vm_compute. reflexivity. Qed.

Lemma paid_dates : re_findall U (dates_re U) paid_text = [u "12/04/2023"].
Proof. vm_compute. reflexivity. Qed.

Lemma paid_jurisdiction : re_findall U jurisdiction_re paid_text = [u "Mumbai"].
Proof. vm_compute. reflexivity. Qed.

Lemma paid_parties : re_findall U parties_re paid_text = [].
Proof. vm_compute. reflexivity. Qed.

Lemma found_set_one (x : str) : list_to_set [x] =@{gset str} {[ x ]}.
Proof. rewrite list_to_set_cons, list_to_set_nil. apply (right_id_L ∅ (∪)). Qed.

(** C2: the Amounts and Parties patterns have a capturing group, so for
    them [findall] returns what the group captured: whatever the text, the
    Amounts set holds currency marks only and the Parties set role keywords
    only.  On "Paid Rs. 5,000 on 12/04/2023 in Mumbai" the date and the
    place are found whole, but the Amounts set is the currency mark "Rs."
    and not the amount "Rs. 5,000". *)
Theorem extract_entities_keeps_groups :
  (∀ text x, x ∈ Amounts (extract_entities U text) → x ∈ currency_marks)
  ∧ (∀ text x, x ∈ Parties (extract_entities U text) → x ∈ role_keywords)
  ∧ Amounts (extract_entities U paid_text) = {[ u "Rs." ]}
  ∧ (u "Rs. 5,000" ∉ Amounts (extract_entities U paid_text))
  ∧ Dates (extract_entities U paid_text) = {[ u "12/04/2023" ]}
  ∧ Jurisdiction (extract_entities U paid_text) = {[ u "Mumbai" ]}
  ∧ Parties (extract_entities U paid_text) = ∅.
Proof.
  split.
  { intros text x. unfold extract_entities, found_set. cbn [Amounts].
    rewrite elem_of_list_to_set. unfold amounts_re.
    apply (findall_group_first (λ w, w ∈ currency_marks));
      [reflexivity|apply currency_group_only]. }
  split.
  { intros text x. unfold extract_entities, found_set. cbn [Parties].
    rewrite elem_of_list_to_set. unfold parties_re.
    apply (findall_group_first (λ w, w ∈ role_keywords));
      [reflexivity|apply role_group_only]. }
  unfold extract_entities, found_set. cbn [Amounts Dates Jurisdiction Parties].
  rewrite paid_amounts, paid_dates, paid_jurisdiction, paid_parties.
  rewrite !found_set_one, list_to_set_nil.
  repeat split; try reflexivity.
  rewrite elem_of_singleton. discriminate.
Qed.

End EntityFacts.

(** ** Whitespace *)

Section CollapseFacts.
Variable U : unicode_data.

Lemma skip_run_rest q p s g : rest (skip_run q p s g) = lstrip q s.
Proof.
  revert p. induction s as [|c s IH]; intros p; simpl; [done|].
  destruct (q c); [apply IH|done].
Qed.

Lemma lstrip_length q (s : str) : (length (lstrip q s) ≤ length s)%nat.
Proof.
  induction s as [|c s IH]; simpl; [done|]. destruct (q c); simpl; lia.
Qed.

(** A greedy [q+] or [q*] whose continuation takes the end of the run stops
    there. *)
Lemma plus_chr_loop q k fuel :
  ∀ n p s g x,
    (length s ≤ fuel)%nat →
    k (skip_run q p s g) = Some x →
    (1 ≤ n)%nat ∨ (∃ c s', s = c :: s' ∧ q c = true) →
    rep_loop (rmatch U (Chr q)) 1 None k fuel n (MState p s g) = Some x.
Proof.
  induction fuel as [|fuel IH]; intros n p s g x Hlen Hk Hn.
  - destruct s; [|simpl in Hlen; lia].
    destruct Hn as [Hn|(c & s' & H & _)]; [|discriminate].
    cbn [rep_loop]. cbn [skip_run] in Hk.
    destruct (Nat.leb_spec 1 n); [done|lia].
  - cbn [rep_loop upto]. rewrite rmatch_chr. cbn [rest grp].
    destruct s as [|c s].
    + destruct Hn as [Hn|(c & s' & H & _)]; [|discriminate].
      cbn [skip_run] in Hk.
      destruct (Nat.leb_spec 1 n); [done|lia].
    + cbn [skip_run] in Hk. destruct (q c) eqn:Hq.
      * cbn [rest length].
        destruct (Nat.ltb_spec (length s) (S (length s))); [|lia].
        rewrite (IH (S n) (Some c) s g x); [done|simpl in Hlen; lia|done|].
        left. lia.
      * destruct Hn as [Hn|(c' & s' & [= <- <-] & Hq')]; [|congruence].
        destruct (Nat.leb_spec 1 n); [done|lia].
Qed.

Lemma plus_chr_stuck q k fuel p s g :
  (∀ c s', s = c :: s' → q c = false) →
  rep_loop (rmatch U (Chr q)) 1 None k fuel 0 (MState p s g) = None.
Proof.
  intros Hs. destruct fuel; [done|].
  cbn [rep_loop upto]. rewrite rmatch_chr. cbn [rest grp].
  destruct s as [|c s]; [done|]. by rewrite (Hs c s).
Qed.

(** One attempt of [q+] at [s]: it takes the whole run at the head of [s],
    and fails when there is none. *)
Lemma plus_chr_attempt q (adv : bool) p s :
  rmatch U (Plus (Chr q))
    (λ e, if adv && (length (rest e) =? length s)%nat then None else Some e)
    (MState p s None)
  = match s with
    | c :: _ => if q c then Some (skip_run q p s None) else None
    | [] => None
    end.
Proof.
  unfold Plus. cbn [rmatch rest].
  destruct s as [|c s]; [by apply plus_chr_stuck|].
  destruct (q c) eqn:Hq.
  - apply plus_chr_loop; [done| |right; by exists c, s].
    rewrite skip_run_rest. simpl. rewrite Hq.
    pose proof (lstrip_length q s) as Hle.
    destruct (Nat.eqb_spec (length (lstrip q s)) (S (length s))); [lia|].
    by rewrite andb_false_r.
  - apply plus_chr_stuck. intros c' s' [= <- <-]. done.
Qed.

Lemma squeeze_run (s : str) : squeeze true s = squeeze false (lstrip is_space s).
Proof.
  induction s as [|c s IH]; simpl; [done|].
  destruct (is_space c) eqn:Hc; [done|]. simpl. by rewrite Hc.
Qed.

(** What [search] finds of [\s+]: the first run of whitespace. *)
Lemma search_spaces (s : str) :
  ∀ (adv : bool) p,
    match search U (Plus (Chr is_space)) adv p s with
    | None => squeeze false s = s
    | Some f =>
        squeeze false s = f_pre f ++ 32 :: squeeze false (f_rest f)
        ∧ f_text f ≠ []
        ∧ (length (f_rest f) < length s)%nat
    end.
Proof.
  induction s as [|c s IH]; intros adv p; rewrite search_eq, plus_chr_attempt.
  - done.
  - simpl squeeze. destruct (is_space c) eqn:Hc.
    + rewrite skip_run_rest. cbn [f_pre f_text f_rest app lstrip]. rewrite Hc.
      pose proof (lstrip_length is_space s) as Hle.
      split; [by rewrite squeeze_run|]. split; [|simpl; lia].
      cbn [length]. destruct (length (lstrip is_space s)) eqn:E.
      * done.
      * replace (S (length s) - S n)%nat with (length s - n)%nat by lia.
        destruct (length s - n)%nat eqn:E'; [lia|done].
    + specialize (IH false (Some c)).
      destruct (search U (Plus (Chr is_space)) false (Some c) s) as [f|].
      * destruct IH as (Hsq & Hne & Hlen). cbn [f_pre f_text f_rest].
        split; [by rewrite Hsq|]. split; [done|simpl; lia].
      * by rewrite IH.
Qed.

Lemma scan_spaces fuel :
  ∀ (adv : bool) p s fs tl,
    (length s < fuel)%nat →
    scan U (Plus (Chr is_space)) fuel adv p s = (fs, tl) →
    flat_map (λ f, f_pre f ++ u " ") fs ++ tl = squeeze false s.
Proof.
  induction fuel as [|fuel IH]; intros adv p s fs tl Hlen; [lia|].
  rewrite scan_eq. pose proof (search_spaces s adv p) as Hs.
  destruct (search U (Plus (Chr is_space)) adv p s) as [f|].
  - destruct Hs as (Hsq & Hne & Hlt).
    destruct (scan U _ fuel _ _ _) as [fs' tl'] eqn:Hscan.
    intros [= <- <-]. apply IH in Hscan; [|lia].
    cbn [flat_map]. rewrite <- !app_assoc, Hscan, Hsq. reflexivity.
  - intros [= <- <-]. by rewrite Hs.
Qed.

(** [re.sub(r"\s+", " ", text)] turns every run of whitespace into one
    space. *)
Lemma collapse_squeeze (T : str) : Clauses.collapse U T = squeeze false T.
Proof.
  unfold Clauses.collapse, re_sub.
  destruct (scan_all U (Plus (Chr is_space)) T) as [fs tl] eqn:Hscan.
  eapply scan_spaces; [|exact Hscan]. lia.
Qed.

End CollapseFacts.

(** ** Clause splitting *)

Section SegmenterFacts.
Import Clauses.
Variable U : unicode_data.

Lemma pattern_has_group : has_group (pattern U) = true.
Proof. reflexivity. Qed.

Lemma scan_pattern_headings fuel adv p s fs tl :
  scan U (pattern U) fuel adv p s = (fs, tl) → Forall heading_like fs.
Proof.
  apply scan_Forall. intros adv' p' s' f. unfold pattern. apply search_sep_group.
Qed.

Lemma clause_loop_pair (h b : str) (ps : list (option str)) :
  clause_loop (Some h :: Some b :: ps) =
    cs ← clause_loop ps;
    Some (Clause (strip colon_or_blank h) (strip is_space b) :: cs).
Proof. reflexivity. Qed.

(** The loop over the parts of a split turns every heading and the piece
    after it into a clause. *)
Lemma clause_loop_segments (fs : list found) :
  ∀ f tl,
    Forall heading_like (f :: fs) →
    ∃ segs,
      segs ≠ [] ∧ Forall sep_ok segs
      ∧ clause_loop
          (f_grp f :: flat_map (λ f, [Some (f_pre f); f_grp f]) fs ++ [Some tl])
        = Some (map seg_clause segs)
      ∧ f_text f ++ concat (map (λ f, f_pre f ++ f_text f) fs) ++ tl
        = concat (map seg_text segs).
Proof.
  induction fs as [|f2 fs IH]; intros f tl Hall;
    apply Forall_cons in Hall as [(sep & g & Htext & Hgrp & Hsep) Hall].
  - exists [Segment sep g tl]. split; [done|]. split.
    { constructor; [exact Hsep|constructor]. }
    rewrite Hgrp, Htext. split; [reflexivity|].
    cbn [map concat]. unfold seg_text. cbn [s_sep s_heading s_body].
    by rewrite app_nil_r, <- app_assoc.
  - destruct (IH f2 tl Hall) as (segs & Hne & Hok & Hloop & Hcat).
    exists (Segment sep g (f_pre f2) :: segs). split; [done|]. split.
    { constructor; [exact Hsep|exact Hok]. }
    rewrite Hgrp, Htext. split.
    + cbn [flat_map app]. rewrite clause_loop_pair, Hloop. reflexivity.
    + cbn [map concat]. rewrite <- Hcat. unfold seg_text.
      cbn [s_sep s_heading s_body]. rewrite <- !app_assoc. reflexivity.
Qed.

(** The two shapes of a segmentation: the fallback clause when no heading
    matches, else one clause for each headed segment of the collapsed
    text. *)
Lemma extract_clauses_shape (T : str) :
  (re_search U (pattern U) (collapse U T) = None
   ∧ extract_clauses U T = Some [Clause (u "General Clause") (collapse U T)])
  ∨ (∃ f pre segs,
       re_search U (pattern U) (collapse U T) = Some f
       ∧ segs ≠ [] ∧ Forall sep_ok segs
       ∧ collapse U T = pre ++ concat (map seg_text segs)
       ∧ extract_clauses U T = Some (map seg_clause segs)).
Proof.
  unfold extract_clauses, re_split. rewrite pattern_has_group.
  destruct (re_search U (pattern U) (collapse U T)) as [f|] eqn:Hsearch.
  - right. destruct (scan_all_some U _ _ _ Hsearch) as (fs & tl & Hscan).
    rewrite Hscan.
    pose proof (scan_text U _ _ _ _ _ _ _ Hscan) as Htext.
    pose proof (scan_pattern_headings _ _ _ _ _ _ Hscan) as Hall.
    destruct (clause_loop_segments fs f tl Hall)
      as (segs & Hne & Hok & Hloop & Hcat).
    exists f, (f_pre f), segs. split; [done|]. split; [done|]. split; [done|].
    split.
    + rewrite Htext at 1. cbn [map concat]. rewrite <- Hcat, <- !app_assoc.
      reflexivity.
    + cbn [flat_map app drop]. rewrite Hloop. cbn [mbind option_bind].
      destruct segs; [done|reflexivity].
  - left. split; [done|]. by rewrite (scan_all_none U _ _ Hsearch).
Qed.

Lemma re_sub_nonempty r (repl s : str) :
  s ≠ [] → repl ≠ [] → re_sub U r repl s ≠ [].
Proof.
  intros Hs Hrepl. unfold re_sub.
  destruct (scan_all U r s) as [fs tl] eqn:Hscan.
  apply scan_text in Hscan. destruct fs as [|f fs].
  - simpl in *. congruence.
  - cbn [flat_map]. intros H.
    apply app_eq_nil in H as [H _]. apply app_eq_nil in H as [H _].
    apply app_eq_nil in H as [_ H]. done.
Qed.

Lemma collapse_nonempty (T : str) : T ≠ [] → collapse U T ≠ [].
Proof. intros H. apply re_sub_nonempty; [done|discriminate]. Qed.

Lemma lstrip_nil p (s : str) : lstrip p s = [] ↔ ∀ c, c ∈ s → p c = true.
Proof.
  induction s as [|c s IH]; simpl.
  - split; [|done]. intros _ c Hc. by apply elem_of_nil in Hc.
  - destruct (p c) eqn:Hp.
    + rewrite IH. split.
      * intros H c' Hc'. apply elem_of_cons in Hc' as [->|Hc']; [done|by apply H].
      * intros H c' Hc'. apply H. by right.
    + split; [discriminate|]. intros H. rewrite H in Hp; [discriminate|by left].
Qed.

Lemma lstrip_head p (s : str) c t : lstrip p s = c :: t → p c = false.
Proof.
  induction s as [|c' s IH]; simpl; [discriminate|].
  destruct (p c') eqn:Hp; [exact IH|]. by intros [= -> _].
Qed.

(** [strip] leaves nothing exactly of a text made of stripped characters
    only. *)
Lemma strip_nil p (s : str) : strip p s = [] ↔ ∀ c, c ∈ s → p c = true.
Proof.
  unfold strip, rstrip. split.
  - intros H. apply (f_equal (@rev N)) in H. rewrite rev_involutive in H.
    simpl in H. apply lstrip_nil.
    destruct (lstrip p s) as [|c t] eqn:Hl; [done|].
    apply lstrip_head in Hl. rewrite (proj1 (lstrip_nil p _) H c) in Hl; [done|].
    apply list_elem_of_In, in_rev. rewrite rev_involutive. by left.
  - intros H. apply lstrip_nil in H. by rewrite H.
Qed.

Lemma strip_not_nil p (s : str) :
  strip p s ≠ [] ↔ ∃ c, c ∈ s ∧ p c = false.
Proof.
  rewrite strip_nil. split.
  - intros H. induction s as [|c s IH].
    + exfalso. apply H. intros c Hc. by apply elem_of_nil in Hc.
    + destruct (p c) eqn:Hp; [|exists c; split; [by left|done]].
      destruct IH as (c' & Hc' & Hp').
      * intros Hall. apply H. intros c' Hc'.
        apply elem_of_cons in Hc' as [->|Hc']; [done|by apply Hall].
      * exists c'. split; [by right|done].
  - intros (c & Hc & Hp) H. rewrite (H c Hc) in Hp. discriminate.
Qed.

(** C1: segmentation returns, and what it returns is never empty; the text
    it works on is the input with every run of whitespace collapsed to one
    space; and when no heading matches in that text, the result is the one
    clause titled "General Clause" whose text is the whole collapsed text. *)
Theorem extract_clauses_nonempty_fallback (T : str) :
  (∃ cs, extract_clauses U T = Some cs ∧ cs ≠ [])
  ∧ collapse U T = squeeze false T
  ∧ (re_search U (pattern U) (collapse U T) = None →
     extract_clauses U T = Some [Clause (u "General Clause") (collapse U T)]).
Proof.
  split; [|split; [apply collapse_squeeze|]];
    destruct (extract_clauses_shape T)
      as [[Hnone Hcs]|(f & pre & segs & Hsome & Hne & _ & _ & Hcs)].
  - eexists. split; [exact Hcs|done].
  - eexists. split; [exact Hcs|]. destruct segs; [done|discriminate].
  - done.
  - congruence.
Qed.

End SegmenterFacts.

Lemma extract_clauses_nonempty_fallback_witness :
  re_search ascii_only (Clauses.pattern ascii_only)
    (Clauses.collapse ascii_only (u "Payment  is due   monthly")) = None
  ∧ Clauses.extract_clauses ascii_only (u "Payment  is due   monthly")
    = Some [Clauses.Clause (u "General Clause") (u "Payment is due monthly")].
Proof.
  split; [vm_compute; reflexivity|].
  apply (extract_clauses_nonempty_fallback ascii_only
           (u "Payment  is due   monthly")).
  vm_compute. reflexivity.
Defined.

(** C4 as stated fails: of "Intro 1. Term: foo" the only body is "foo". *)
Lemma bodies_alone_lose_text :
  ¬ ∃ U, ∀ T cs,
      Clauses.extract_clauses U T = Some cs →
      no_space (concat (map Clauses.text cs)) = no_space T.
Proof.
  intros [U H].
  specialize (H (u "Intro 1. Term: foo")
                [Clauses.Clause (u "1. Term") (u "foo")]).
  assert (Hrun : Clauses.extract_clauses U (u "Intro 1. Term: foo")
                 = Some [Clauses.Clause (u "1. Term") (u "foo")])
    by (vm_compute; reflexivity).
  apply H in Hrun. vm_compute in Hrun. discriminate.
Qed.

(** C5 as stated fails: the clause of "1. Term:" has an empty text. *)
Lemma heading_without_body_has_empty_text :
  ¬ ∃ U, ∀ T cs c,
      Clauses.extract_clauses U T = Some cs → c ∈ cs → Clauses.text c ≠ [].
Proof.
  intros [U H].
  apply (H (u "1. Term:") [Clauses.Clause (u "1. Term") []]
           (Clauses.Clause (u "1. Term") [])).
  - vm_compute. reflexivity.
  - by left.
  - reflexivity.
Qed.

(** ** What a match is made of *)

Section SoundnessFacts.
Variable U : unicode_data.

Lemma occurs_in_refl (s : str) : occurs_in s s.
Proof. exists [], []. by rewrite app_nil_r. Qed.

Lemma occurs_in_nil (s : str) : occurs_in [] s.
Proof. by exists [], s. Qed.

Lemma occurs_in_trans (x y z : str) :
  occurs_in x y → occurs_in y z → occurs_in x z.
Proof.
  intros (a & b & ->) (c & d & ->). exists (c ++ a), (b ++ d).
  by rewrite <- !app_assoc.
Qed.

Lemma occurs_in_suffix (x s t : str) :
  occurs_in x s → suffix s t → occurs_in x t.
Proof.
  intros Hx [k ->]. eapply occurs_in_trans; [exact Hx|]. exists k, [].
  by rewrite app_nil_r.
Qed.

Lemma occurs_in_str_in (x s : str) : occurs_in x s ↔ str_in x s = true.
Proof. symmetry. apply str_in_spec. Qed.

Lemma rep_loop_group_from_text m lo hi :
  group_from_text m →
  ∀ fuel k n s x,
    rep_loop m lo hi k fuel n s = Some x →
    ∃ s', k s' = Some x ∧ suffix (rest s') (rest s)
          ∧ (grp s' = grp s ∨ ∃ g, grp s' = Some g ∧ occurs_in g (rest s)).
Proof.
  intros Hm fuel k. induction fuel as [|fuel IH]; intros n s x; simpl.
  - destruct (lo <=? n)%nat; [|discriminate]. intros Hk. exists s. by auto.
  - assert (Hleave : (if (lo <=? n)%nat then k s else None) = Some x →
      ∃ s', k s' = Some x ∧ suffix (rest s') (rest s)
            ∧ (grp s' = grp s ∨ ∃ g, grp s' = Some g ∧ occurs_in g (rest s))).
    { destruct (lo <=? n)%nat; [|discriminate]. intros Hk. exists s. by auto. }
    destruct (upto hi n); [|exact Hleave].
    match goal with
    | |- context [m ?k' s] => destruct (m k' s) as [y|] eqn:Hagain
    end; [|exact Hleave].
    intros [= ->]. apply Hm in Hagain as (s1 & Hs1 & Hsuf & Hg).
    destruct (length (rest s1) <? length (rest s))%nat; [|discriminate].
    apply IH in Hs1 as (s' & Hk & Hsuf' & Hg'). exists s'. split; [done|].
    split; [by etrans|].
    destruct Hg' as [Hg'|(g & Hg' & Hocc)].
    + rewrite Hg'. exact Hg.
    + right. exists g. split; [done|]. by eapply occurs_in_suffix.
Qed.

(** Whatever a pattern captures is a piece of the text it was run on. *)
Lemma rmatch_group_from_text r : group_from_text (rmatch U r).
Proof.
  induction r as [|p| | |r1 IH1 r2 IH2|r1 IH1 r2 IH2|lo hi r IH|r IH];
    intros k s x; simpl.
  - intros Hk. exists s. by auto.
  - destruct (rest s) as [|c tl] eqn:Hs; [discriminate|].
    destruct (p c); [|discriminate]. intros Hk.
    eexists. split; [exact Hk|]. simpl. split; [by apply suffix_cons_r|by left].
  - destruct (prev s); [discriminate|]. intros Hk. exists s. by auto.
  - destruct (xorb _ _); [|discriminate]. intros Hk. exists s. by auto.
  - intros H. apply IH1 in H as (s1 & H & Hsuf1 & Hg1).
    apply IH2 in H as (s2 & H & Hsuf2 & Hg2). exists s2. split; [done|].
    split; [by etrans|].
    destruct Hg2 as [Hg2|(g & Hg2 & Hocc)].
    + rewrite Hg2. exact Hg1.
    + right. exists g. split; [done|]. by eapply occurs_in_suffix.
  - destruct (rmatch U r1 k s) eqn:H1.
    + intros [= ->]. by apply IH1.
    + by apply IH2.
  - by apply rep_loop_group_from_text.
  - intros H. apply IH in H as (s1 & H & Hsuf & _).
    eexists. split; [exact H|]. cbn [rest grp]. split; [done|]. right.
    eexists. split; [done|].
    exists [], (drop (length (rest s) - length (rest s1)) (rest s)).
    by rewrite app_nil_l, take_drop.
Qed.

(** The match and the group of a match are pieces of the text searched. *)
Lemma search_occurs r :
  ∀ s adv p f,
    search U r adv p s = Some f →
    occurs_in (f_text f) s ∧ suffix (f_rest f) s
    ∧ (f_grp f = None ∨ ∃ g, f_grp f = Some g ∧ occurs_in g s).
Proof.
  assert (Hfirst : ∀ (adv : bool) p s e,
    rmatch U r
      (λ e, if adv && (length (rest e) =? length s)%nat then None else Some e)
      (MState p s None) = Some e →
    occurs_in (take (length s - length (rest e)) s) s ∧ suffix (rest e) s
    ∧ (grp e = None ∨ ∃ g, grp e = Some g ∧ occurs_in g s)).
  { intros adv p s e He. split; [|split].
    - exists [], (drop (length s - length (rest e)) s).
      by rewrite app_nil_l, take_drop.
    - apply first_attempt in He as (w & Hw & _). by exists w.
    - apply rmatch_group_from_text in He as (e' & He & _ & Hg).
      destruct (adv && _); [discriminate|]. apply (inj Some) in He; subst e'.
      exact Hg. }
  induction s as [|c s IH]; intros adv p f; rewrite search_eq;
    (destruct (rmatch _ _ _ _) as [e|] eqn:He;
     [intros Hf; apply (inj Some) in Hf; subst f; cbn [f_text f_grp f_rest];
      by eapply Hfirst|]).
  - discriminate.
  - destruct (search U r false (Some c) s) as [f'|] eqn:Hs; [|discriminate].
    intros Hf; apply (inj Some) in Hf; subst f. cbn [f_text f_grp f_rest].
    apply IH in Hs as (Ht & Hr & Hg).
    assert (Hsuf : suffix s (c :: s)) by (by apply suffix_cons_r).
    split; [by eapply occurs_in_suffix|]. split; [by etrans|].
    destruct Hg as [Hg|(g & Hg & Hocc)]; [by left|right].
    exists g. split; [done|]. by eapply occurs_in_suffix.
Qed.

Lemma scan_occurs r fuel :
  ∀ adv p s fs tl,
    scan U r fuel adv p s = (fs, tl) →
    Forall (λ f, occurs_in (f_text f) s
                 ∧ (f_grp f = None ∨ ∃ g, f_grp f = Some g ∧ occurs_in g s)) fs.
Proof.
  induction fuel as [|fuel IH]; intros adv p s fs tl.
  - intros [= <- <-]. constructor.
  - rewrite scan_eq. destruct (search U r adv p s) as [f|] eqn:Hf.
    + destruct (scan U r fuel _ _ _) as [fs' tl'] eqn:Hscan.
      intros [= <- <-]. apply search_occurs in Hf as (Ht & Hsuf & Hg).
      constructor; [by split|].
      apply IH in Hscan. eapply Forall_impl; [exact Hscan|].
      intros f' [Ht' Hg']. split; [by eapply occurs_in_suffix|].
      destruct Hg' as [Hg'|(g & Hg' & Hocc)]; [by left|right].
      exists g. split; [done|]. by eapply occurs_in_suffix.
    + intros [= <- <-]. constructor.
Qed.

(** [findall] returns pieces of the text only. *)
Lemma findall_occurs r (text x : str) :
  x ∈ re_findall U r text → occurs_in x text.
Proof.
  unfold re_findall. intros Hx.
  apply list_elem_of_In, in_map_iff in Hx as (f & <- & Hf).
  destruct (scan_all U r text) as [fs tl] eqn:Hscan. cbn [fst] in Hf.
  apply scan_occurs in Hscan. rewrite Forall_forall in Hscan.
  destruct (Hscan f) as [Ht Hg]; [by apply list_elem_of_In|].
  destruct (has_group r); [|exact Ht].
  destruct Hg as [->|(g & -> & Hocc)]; [apply occurs_in_nil|exact Hocc].
Qed.

End SoundnessFacts.

Section LanguageOfPattern.
Variable U : unicode_data.

Lemma rep_loop_sound m lo hi (L : str → Prop) :
  matches_only L m →
  ∀ fuel k n s x,
    (∀ h, hi = Some h → (n ≤ h)%nat) →
    rep_loop m lo hi k fuel n s = Some x →
    ∃ s' ws,
      Forall L ws ∧ rest s = concat ws ++ rest s' ∧ k s' = Some x
      ∧ (lo ≤ n + length ws)%nat
      ∧ ∀ h, hi = Some h → (n + length ws ≤ h)%nat.
Proof.
  intros Hm fuel k. induction fuel as [|fuel IH]; intros n s x Hn; simpl.
  - destruct (Nat.leb_spec lo n); [|discriminate]. intros Hk.
    exists s, []. simpl. repeat split; try done; try lia.
    intros h Hh. specialize (Hn h Hh). lia.
  - assert (Hleave : (if (lo <=? n)%nat then k s else None) = Some x →
      ∃ s' ws,
        Forall L ws ∧ rest s = concat ws ++ rest s' ∧ k s' = Some x
        ∧ (lo ≤ n + length ws)%nat
        ∧ ∀ h, hi = Some h → (n + length ws ≤ h)%nat).
    { destruct (Nat.leb_spec lo n); [|discriminate]. intros Hk.
      exists s, []. simpl. repeat split; try done; try lia.
      intros h Hh. specialize (Hn h Hh). lia. }
    destruct (upto hi n) eqn:Hup; [|exact Hleave].
    match goal with
    | |- context [m ?k' s] => destruct (m k' s) as [y|] eqn:Hagain
    end; [|exact Hleave].
    intros [= ->]. apply Hm in Hagain as (s1 & w & Hw & Hr & Hs1).
    destruct (length (rest s1) <? length (rest s))%nat; [|discriminate].
    apply IH in Hs1 as (s' & ws & Hws & Hr' & Hk & Hlo & Hhi).
    + exists s', (w :: ws). split; [by constructor|].
      split; [simpl; by rewrite Hr, Hr', app_assoc|]. split; [done|].
      simpl. split; [lia|]. intros h Hh. specialize (Hhi h Hh). lia.
    + intros h Hh. subst hi. simpl in Hup. apply Nat.ltb_lt in Hup. lia.
Qed.

(** What a pattern matches is a text of its language. *)
Lemma rmatch_sound r : matches_only (in_lang r) (rmatch U r).
Proof.
  induction r as [|p| | |r1 IH1 r2 IH2|r1 IH1 r2 IH2|lo hi r IH|r IH];
    intros k s x; cbn [rmatch in_lang].
  - intros Hk. by exists s, [].
  - destruct (rest s) as [|c tl] eqn:Hs; [discriminate|].
    destruct (p c) eqn:Hp; [|discriminate]. intros Hk.
    eexists _, [c]. split; [by exists c|]. split; [|exact Hk]. done.
  - destruct (prev s); [discriminate|]. intros Hk. by exists s, [].
  - destruct (xorb _ _); [|discriminate]. intros Hk. by exists s, [].
  - intros H. apply IH1 in H as (s1 & w1 & Hw1 & Hr1 & H).
    apply IH2 in H as (s2 & w2 & Hw2 & Hr2 & H).
    exists s2, (w1 ++ w2). split; [by exists w1, w2|].
    split; [by rewrite Hr1, Hr2, app_assoc|done].
  - destruct (rmatch U r1 k s) eqn:H1.
    + intros [= ->]. apply IH1 in H1 as (s' & w & Hw & Hr & Hk).
      exists s', w. by auto.
    + intros H2. apply IH2 in H2 as (s' & w & Hw & Hr & Hk).
      exists s', w. by auto.
  - intros H. apply (rep_loop_sound _ _ _ (in_lang r) IH) in H
      as (s' & ws & Hws & Hr & Hk & Hlo & Hhi); [|intros; lia].
    exists s', (concat ws). split; [|done]. exists ws. by auto.
  - intros H. apply IH in H as (s1 & w & Hw & Hr & Hk).
    eexists _, w. split; [done|]. split; [|exact Hk]. done.
Qed.

(** The text of a match is a text of the pattern's language. *)
Lemma search_sound r :
  ∀ s adv p f, search U r adv p s = Some f → in_lang r (f_text f).
Proof.
  induction s as [|c s IH]; intros adv p f; rewrite search_eq;
    (destruct (rmatch _ _ _ _) as [e|] eqn:He;
     [intros Hf; apply (inj Some) in Hf; subst f; cbn [f_text];
      pose proof He as Hw; apply first_attempt in Hw as (w & Hw & -> & _);
      apply rmatch_sound in He as (e' & w' & Hl & Hr & He);
      destruct (adv && _); [discriminate|];
      apply (inj Some) in He; subst e'; cbn [rest] in Hr;
      rewrite Hr in Hw; apply app_inv_tail in Hw; by subst w'|]).
  - discriminate.
  - destruct (search U r false (Some c) s) as [f'|] eqn:Hs; [|discriminate].
    intros Hf; apply (inj Some) in Hf; subst f. cbn [f_text]. by eapply IH.
Qed.

(** Without a group, [findall] returns texts of the pattern's language. *)
Lemma findall_sound r (text x : str) :
  has_group r = false → x ∈ re_findall U r text → in_lang r x.
Proof.
  unfold re_findall. intros -> Hx.
  apply list_elem_of_In, in_map_iff in Hx as (f & <- & Hf).
  destruct (scan_all U r text) as [fs tl] eqn:Hscan. cbn [fst] in Hf.
  assert (Hall : Forall (λ f, in_lang r (f_text f)) fs).
  { eapply scan_Forall; [|exact Hscan]. intros adv p s f'. apply search_sound. }
  rewrite Forall_forall in Hall. apply Hall. by apply list_elem_of_In.
Qed.

Lemma in_lang_word (w x : str) : in_lang (Word w) x → x = w.
Proof.
  revert x. induction w as [|c w IH]; intros x; [done|].
  assert (Hstep : in_lang (Lit c +++ Word w) x → x = c :: w).
  { cbn [in_lang Lit]. unfold Lit. cbn [in_lang].
    intros (w1 & w2 & -> & (c' & -> & Hc) & Hw2).
    apply N.eqb_eq in Hc as <-. by rewrite (IH _ Hw2). }
  destruct w as [|c2 w]; [|exact Hstep].
  unfold Word, Lit. cbn [in_lang]. intros (c' & -> & Hc).
  by apply N.eqb_eq in Hc as <-.
Qed.

End LanguageOfPattern.

(** ** Literal names *)

Section NameFacts.
Variable U : unicode_data.

Lemma in_lang_alts n ns x : in_lang (alts n ns) x → x ∈ n :: ns.
Proof.
  revert n. induction ns as [|n' ns IH]; intros n; cbn [alts in_lang].
  - intros H. apply in_lang_word in H as ->. by left.
  - intros [H|H].
    + apply in_lang_word in H as ->. by left.
    + right. by apply IH.
Qed.

Lemma apart_spec names x y :
  apart names = true → x ∈ names → y ∈ names →
  ∃ h t h' t', x = h :: t ∧ y = h' :: t'
               ∧ (h = h' → x = y) ∧ (h ∉ t').
Proof.
  unfold apart. rewrite forallb_forall. intros Hap Hx Hy.
  specialize (Hap x (proj1 (list_elem_of_In _ _) Hx)).
  destruct x as [|h t]; [discriminate|].
  rewrite forallb_forall in Hap.
  specialize (Hap y (proj1 (list_elem_of_In _ _) Hy)).
  destruct y as [|h' t']; [discriminate|].
  apply andb_true_iff in Hap as [H1 H2].
  exists h, t, h', t'. split; [done|]. split; [done|]. split.
  - intros <-. apply orb_true_iff in H1 as [H1|H1].
    + by apply str_eqb_eq in H1.
    + rewrite N.eqb_refl in H1. discriminate.
  - intros Hin. apply negb_true_iff in H2.
    assert (existsb (N.eqb h) t' = true); [|congruence].
    apply existsb_exists. exists h. split; [by apply list_elem_of_In|].
    apply N.eqb_refl.
Qed.

(** A word matches where the text starts with it, when the continuation
    takes every later position. *)
Lemma rmatch_word_some (w : str) :
  ∀ k st t,
    w ≠ [] → rest st = w ++ t →
    (∀ s', (length (rest s') < length (rest st))%nat → is_Some (k s')) →
    is_Some (rmatch U (Word w) k st).
Proof.
  induction w as [|c w IH]; intros k st t Hne Hst Hk; [done|].
  assert (Hlit : ∀ k', (∀ s', (length (rest s') < length (rest st))%nat →
                               is_Some (k' s')) →
                       is_Some (rmatch U (Lit c) k' st)).
  { intros k' Hk'. unfold Lit. rewrite rmatch_chr, Hst. cbn [app].
    rewrite N.eqb_refl. apply Hk'. rewrite Hst. simpl. lia. }
  destruct w as [|c2 w]; [by apply Hlit|].
  change (rmatch U (Word (c :: c2 :: w)) k st)
    with (rmatch U (Lit c) (rmatch U (Word (c2 :: w)) k) st).
  unfold Lit. rewrite rmatch_chr, Hst. cbn [app]. rewrite N.eqb_refl.
  apply (IH _ _ t); [done|done|].
  intros s' Hs'. apply Hk. rewrite Hst. simpl in *. lia.
Qed.

Lemma rmatch_alts_some n ns x k st t :
  x ∈ n :: ns → x ≠ [] → rest st = x ++ t →
  (∀ s', (length (rest s') < length (rest st))%nat → is_Some (k s')) →
  is_Some (rmatch U (alts n ns) k st).
Proof.
  intros Hx Hne Hst Hk. revert n Hx.
  induction ns as [|n' ns IH]; intros n Hx; cbn [alts].
  - apply elem_of_cons in Hx as [->|Hx]; [|by apply elem_of_nil in Hx].
    by eapply rmatch_word_some.
  - cbn [rmatch]. destruct (rmatch U (Word n) k st) eqn:Hn; [done|].
    apply elem_of_cons in Hx as [->|Hx]; [|by apply IH].
    pose proof (rmatch_word_some n k st t Hne Hst Hk) as [? Hs]. congruence.
Qed.

(** A group hands on a text of its pattern's language. *)
Lemma rmatch_group_sound G k st e :
  rmatch U (Group G) k st = Some e →
  ∃ w s2, in_lang G w ∧ rest st = w ++ rest s2
          ∧ k (MState (prev s2) (rest s2) (Some w)) = Some e.
Proof.
  cbn [rmatch]. intros H.
  apply rmatch_sound in H as (s2 & w & Hw & Hr & Hk).
  exists w, s2. split; [done|]. split; [done|].
  by rewrite Hr, take_suffix_diff in Hk.
Qed.

(** An attempt of [(G)]: the group is the match, a text of [G]. *)
Lemma attempt_group_alone G (adv : bool) p s e :
  rmatch U (Group G)
    (λ e, if adv && (length (rest e) =? length s)%nat then None else Some e)
    (MState p s None) = Some e →
  ∃ w, take (length s - length (rest e)) s = w ∧ grp e = Some w
       ∧ in_lang G w.
Proof.
  intros He. apply rmatch_group_sound in He as (w & s2 & Hw & Hr & He).
  destruct (adv && _); [discriminate|].
  apply (inj Some) in He; subst e. cbn [rest grp] in *. exists w.
  split; [|done]. rewrite Hr. apply take_suffix_diff.
Qed.

Lemma search_group_alone G :
  ∀ s adv p f,
    search U (Group G) adv p s = Some f →
    f_grp f = Some (f_text f) ∧ in_lang G (f_text f).
Proof.
  induction s as [|c s IH]; intros adv p f; rewrite search_eq;
    (destruct (rmatch _ _ _ _) as [e|] eqn:He;
     [intros Hf; apply (inj Some) in Hf; subst f; cbn [f_text f_grp];
      apply attempt_group_alone in He as (w & -> & -> & Hw); done|]).
  - discriminate.
  - destruct (search U _ false (Some c) s) as [f'|] eqn:Hs; [|discriminate].
    intros Hf; apply (inj Some) in Hf; subst f. cbn [f_text f_grp]. by eapply IH.
Qed.

(** Where a name starts the text, an attempt of [(n|n1|...)] succeeds. *)
Lemma attempt_names_some n ns x t (adv : bool) p :
  x ∈ n :: ns → x ≠ [] →
  is_Some (rmatch U (Group (alts n ns))
             (λ e, if adv && (length (rest e) =? length (x ++ t))%nat
                   then None else Some e)
             (MState p (x ++ t) None)).
Proof.
  intros Hx Hne. cbn [rmatch].
  apply (rmatch_alts_some n ns x _ _ t); [done|done|done|].
  intros s' Hs'. cbn [rest] in *.
  destruct (Nat.eqb_spec (length (rest s')) (length (x ++ t))); [lia|].
  by rewrite andb_false_r.
Qed.

(** [search] finds a match no later than a place where an attempt
    succeeds. *)
Lemma search_reaches r t :
  (∀ (adv : bool) p,
     is_Some (rmatch U r
                (λ e, if adv && (length (rest e) =? length t)%nat
                      then None else Some e)
                (MState p t None))) →
  ∀ a adv p,
    ∃ f, search U r adv p (a ++ t) = Some f
         ∧ (length (f_pre f) ≤ length a)%nat.
Proof.
  intros Ht. induction a as [|c a IH]; intros adv p; rewrite search_eq.
  - cbn [app]. destruct (Ht adv p) as [e ->]. eexists. split; [done|]. simpl. lia.
  - destruct (rmatch _ _ _ _) as [e|].
    + eexists. split; [done|]. simpl. lia.
    + cbn [app]. destruct (IH false (Some c)) as (f & -> & Hlen).
      eexists. split; [done|]. simpl. lia.
Qed.

(** A scan for names that are apart finds every name that occurs in the
    text. *)
Lemma scan_names_complete n ns x :
  apart (n :: ns) = true → x ∈ n :: ns →
  ∀ fuel s adv p fs tl,
    (length s < fuel)%nat →
    scan U (Group (alts n ns)) fuel adv p s = (fs, tl) →
    occurs_in x s →
    ∃ f, f ∈ fs ∧ f_grp f = Some x.
Proof.
  intros Hap Hx.
  destruct (apart_spec _ x x Hap Hx Hx) as (h & t & _ & _ & -> & _ & _ & _).
  induction fuel as [|fuel IH]; intros s adv p fs tl Hfuel; [lia|].
  rewrite scan_eq. intros Hscan (a & b & ->).
  destruct (search_reaches (Group (alts n ns)) ((h :: t) ++ b)) with (a := a)
    (adv := adv) (p := p) as (f & Hf & Hlen).
  { intros adv' p'. by apply attempt_names_some. }
  rewrite Hf in Hscan.
  destruct (scan U _ fuel _ _ _) as [fs' tl'] eqn:Hrest.
  apply (inj2 pair) in Hscan as [<- <-].
  pose proof (search_found U _ _ _ _ _ Hf) as Hsplit.
  apply search_group_alone in Hf as [Hg Hy].
  apply in_lang_alts in Hy.
  destruct (apart_spec _ (f_text f) (h :: t) Hap Hy Hx)
    as (hy & ty & h' & t' & Hty & [= <- <-] & Hsame & Hnotin).
  assert (Hlater : occurs_in (h :: t) (f_rest f) →
                   ∃ f0, f0 ∈ f :: fs' ∧ f_grp f0 = Some (h :: t)).
  { intros Hocc.
    assert (Hshort : (length (f_rest f) < fuel)%nat).
    { apply (f_equal length) in Hsplit. rewrite !length_app, Hty in Hsplit.
      rewrite !length_app in Hfuel. simpl in Hsplit, Hfuel. lia. }
    destruct (IH _ _ _ _ _ Hshort Hrest Hocc) as (f0 & Hin & Hg0).
    exists f0. split; [by right|done]. }
  apply app_eq_app in Hsplit as [l [[Ha Hl]|[Hpre Hl]]].
  - destruct l as [|c l].
    + cbn [app] in Hl. rewrite Hty in Hl. injection Hl as -> Hl.
      exists f. split; [by left|]. by rewrite Hg, Hsame.
    + apply app_eq_app in Hl as [l2 [[Hy2 Hr]|[Hl2 Hr]]].
      * destruct l2 as [|c2 l2].
        -- apply Hlater. exists [], b. cbn [app] in *. congruence.
        -- exfalso. cbn [app] in Hr. injection Hr as <- Hr.
           apply (apart_spec _ (h :: t) (f_text f) Hap Hx) in Hy
             as (h1 & t1 & h2 & t2 & [= <- <-] & Hty2 & _ & Hno).
           rewrite Hty2 in Hy2. cbn [app] in Hy2. injection Hy2 as _ Hy2.
           apply Hno. rewrite Hy2. apply elem_of_app. right. by left.
      * apply Hlater. exists l2, b. by rewrite Hr.
  - rewrite Hpre, length_app in Hlen. destruct l as [|c l]; [|simpl in Hlen; lia].
    cbn [app] in Hl. rewrite Hty in Hl. injection Hl as <- Hl.
    exists f. split; [by left|]. by rewrite Hg, Hsame.
Qed.

End NameFacts.

(** ** What the entity sets hold *)

Section EntityContents.
Import Entities.
Variable U : unicode_data.

Lemma in_lang_rep_chr lo hi q (w : str) :
  in_lang (Rep lo hi (Chr q)) w →
  Forall (λ c, q c = true) w ∧ (lo ≤ length w)%nat
  ∧ ∀ h, hi = Some h → (length w ≤ h)%nat.
Proof.
  cbn [in_lang]. intros (ws & -> & Hws & Hlo & Hhi).
  assert (Hcat : Forall (λ c, q c = true) (concat ws)
                 ∧ length (concat ws) = length ws).
  { clear Hlo Hhi. induction Hws as [|w ws (c & -> & Hc) _ [IH1 IH2]].
    - by split.
    - cbn [concat app length]. split; [by constructor|by rewrite IH2]. }
  destruct Hcat as [Hall Hlen]. rewrite Hlen. done.
Qed.

Lemma jurisdiction_re_alts :
  jurisdiction_re = Group (alts (u "India")
                             [u "Tamil Nadu"; u "Delhi"; u "Mumbai"; u "Chennai"]).
Proof. reflexivity. Qed.

Lemma gazetteer_apart : apart gazetteer = true.
Proof. vm_compute. reflexivity. Qed.

Lemma findall_jurisdiction (text x : str) :
  x ∈ re_findall U jurisdiction_re text ↔ x ∈ gazetteer ∧ occurs_in x text.
Proof.
  split.
  - intros Hx. split; [|by eapply findall_occurs].
    revert Hx. unfold re_findall. rewrite jurisdiction_re_alts. cbn [has_group].
    intros Hx. apply list_elem_of_In, in_map_iff in Hx as (f & <- & Hf).
    destruct (scan_all U _ text) as [fs tl] eqn:Hscan. cbn [fst] in Hf.
    assert (Hall : Forall (λ f, f_grp f = Some (f_text f)
                                ∧ in_lang (alts (u "India")
                                     [u "Tamil Nadu"; u "Delhi"; u "Mumbai";
                                      u "Chennai"]) (f_text f)) fs).
    { eapply scan_Forall; [|exact Hscan]. intros adv p s f'.
      apply search_group_alone. }
    rewrite Forall_forall in Hall.
    destruct (Hall f) as [-> Hl]; [by apply list_elem_of_In|].
    by apply in_lang_alts in Hl.
  - intros [Hx Hocc]. unfold re_findall. rewrite jurisdiction_re_alts.
    cbn [has_group].
    destruct (scan_all U _ text) as [fs tl] eqn:Hscan. cbn [fst].
    unfold scan_all in Hscan.
    assert (Hfuel : (length text < 2 * length text + 2)%nat) by lia.
    destruct (scan_names_complete U _ _ x gazetteer_apart Hx _ _ _ _ _ _
                Hfuel Hscan Hocc) as (f & Hf & Hg).
    apply list_elem_of_In, in_map_iff. exists f.
    split; [by rewrite Hg|by apply list_elem_of_In].
Qed.

(** X1: every string in any of the four entity sets occurs in the text as
    a substring: nothing is reported that the text does not spell. *)
Theorem entities_occur_in_text (text x : str) :
  x ∈ Parties (extract_entities U text) ∪ Dates (extract_entities U text)
      ∪ Amounts (extract_entities U text)
      ∪ Jurisdiction (extract_entities U text) →
  str_in x text = true.
Proof.
  unfold extract_entities, found_set.
  cbn [Parties Dates Amounts Jurisdiction].
  rewrite !elem_of_union, !elem_of_list_to_set.
  intros [[[H|H]|H]|H]; apply occurs_in_str_in; by eapply findall_occurs.
Qed.

(** X2: the Jurisdiction set is exactly the set of the place names India,
    Tamil Nadu, Delhi, Mumbai and Chennai that occur in the text, spelled
    with these capitals. *)
Theorem jurisdiction_is_names_in_text (text x : str) :
  x ∈ Jurisdiction (extract_entities U text)
  ↔ x ∈ gazetteer ∧ str_in x text = true.
Proof.
  unfold extract_entities, found_set. cbn [Jurisdiction].
  rewrite elem_of_list_to_set, findall_jurisdiction, occurs_in_str_in. done.
Qed.

(** X3: every string in the Dates set is one or two digits, a slash or a
    dash, one or two digits, a slash or a dash, and two to four digits: six
    to ten characters, with no check that the numbers name a day of the
    calendar or that the two separators are the same. *)
Theorem dates_are_digit_groups (text x : str) :
  x ∈ Dates (extract_entities U text) →
  ∃ d s1 m s2 y,
    x = d ++ [s1] ++ m ++ [s2] ++ y
    ∧ Forall (λ c, is_digit U c = true) (d ++ m ++ y)
    ∧ slash_or_dash s1 = true ∧ slash_or_dash s2 = true
    ∧ (1 ≤ length d ≤ 2)%nat ∧ (1 ≤ length m ≤ 2)%nat
    ∧ (2 ≤ length y ≤ 4)%nat
    ∧ (6 ≤ length x ≤ 10)%nat.
Proof.
  unfold extract_entities, found_set. cbn [Dates].
  rewrite elem_of_list_to_set. intros Hx.
  apply findall_sound in Hx; [|reflexivity].
  unfold dates_re, digit in Hx. cbn [in_lang] in Hx.
  destruct Hx as (b1 & r1 & -> & -> & d & r2 & -> & Hd & w1 & r3 & -> &
                  (s1 & -> & Hs1) & m & r4 & -> & Hm & w2 & r5 & -> &
                  (s2 & -> & Hs2) & y & b2 & -> & Hy & ->).
  apply (in_lang_rep_chr 1 (Some 2%nat)) in Hd as (Hd & Hd1 & Hd2).
  apply (in_lang_rep_chr 1 (Some 2%nat)) in Hm as (Hm & Hm1 & Hm2).
  apply (in_lang_rep_chr 2 (Some 4%nat)) in Hy as (Hy & Hy1 & Hy2).
  specialize (Hd2 _ eq_refl). specialize (Hm2 _ eq_refl).
  specialize (Hy2 _ eq_refl).
  exists d, s1, m, s2, y. rewrite app_nil_r. cbn [app].
  split; [done|]. split; [by rewrite !Forall_app|].
  repeat (split; [done|]).
  rewrite !length_app. simpl. rewrite !length_app. simpl. lia.
Qed.

End EntityContents.

Lemma entities_occur_in_text_witness :
  str_in (u "12/04/2023") Entities.paid_text = true.
Proof.
  apply (entities_occur_in_text ascii_only Entities.paid_text (u "12/04/2023")).
  unfold Entities.extract_entities, Entities.found_set.
  cbn [Entities.Parties Entities.Dates Entities.Amounts Entities.Jurisdiction].
  apply elem_of_union. left. apply elem_of_union. left.
  apply elem_of_union. right. apply elem_of_list_to_set.
  rewrite paid_dates. apply list_elem_of_here.
Defined.

Lemma dates_are_digit_groups_witness :
  ∃ d s1 m s2 y,
    u "99-99/9999" = d ++ [s1] ++ m ++ [s2] ++ y
    ∧ Forall (λ c, is_digit ascii_only c = true) (d ++ m ++ y)
    ∧ Entities.slash_or_dash s1 = true ∧ Entities.slash_or_dash s2 = true
    ∧ (1 ≤ length d ≤ 2)%nat ∧ (1 ≤ length m ≤ 2)%nat
    ∧ (2 ≤ length y ≤ 4)%nat
    ∧ (6 ≤ length (u "99-99/9999") ≤ 10)%nat.
Proof.
  apply (dates_are_digit_groups ascii_only (u "due 99-99/9999.")).
  unfold Entities.extract_entities, Entities.found_set. cbn [Entities.Dates].
  apply elem_of_list_to_set.
  assert (Hrun : re_findall ascii_only (Entities.dates_re ascii_only)
                   (u "due 99-99/9999.") = [u "99-99/9999"])
    by (vm_compute; reflexivity).
  rewrite Hrun. apply list_elem_of_here.
Defined.

(** ** Headings and titles *)

Section HeadingFacts.
Import Clauses.
Variable U : unicode_data.

Lemma pattern_heading_body :
  pattern U = Alt Bol (Chr is_space) +++ Group (heading_body U).
Proof. reflexivity. Qed.

(** One attempt of [(?:^|\s)(R)], with what the group holds. *)
Lemma rmatch_sep_group_sound (q : N → bool) (R : regex) k st e :
  rmatch U (Alt Bol (Chr q) +++ Group R) k st = Some e →
  ∃ sep g s2,
    rest st = sep ++ g ++ rest s2
    ∧ k (MState (prev s2) (rest s2) (Some g)) = Some e
    ∧ (sep = [] ∨ ∃ c, sep = [c] ∧ q c = true)
    ∧ in_lang R g.
Proof.
  change (rmatch U (Alt Bol (Chr q) +++ Group R) k st)
    with (match rmatch U Bol (rmatch U (Group R) k) st with
          | Some x => Some x
          | None => rmatch U (Chr q) (rmatch U (Group R) k) st
          end).
  set (k' := rmatch U (Group R) k).
  destruct (rmatch U Bol k' st) as [x|] eqn:Hbol.
  - intros Hx; apply (inj Some) in Hx; subst x.
    cbn [rmatch] in Hbol. destruct (prev st); [discriminate|].
    apply rmatch_group_sound in Hbol as (g & s2 & Hl & Hg & Hk).
    exists [], g, s2. split; [done|]. split; [done|]. split; [by left|done].
  - clear Hbol. rewrite rmatch_chr.
    destruct (rest st) as [|c tl] eqn:Hst; [discriminate|].
    destruct (q c) eqn:Hq; [|discriminate]. intros H.
    apply rmatch_group_sound in H as (g & s2 & Hl & Hg & Hk). cbn [rest] in Hg.
    exists [c], g, s2. split; [by rewrite Hg|]. split; [done|].
    split; [right; by exists c|done].
Qed.

Lemma search_sep_group_sound (q : N → bool) (R : regex) :
  ∀ s adv p f,
    search U (Alt Bol (Chr q) +++ Group R) adv p s = Some f →
    ∃ sep g, f_text f = sep ++ g ∧ f_grp f = Some g
             ∧ (sep = [] ∨ ∃ c, sep = [c] ∧ q c = true)
             ∧ in_lang R g.
Proof.
  assert (Hfirst : ∀ (adv : bool) p s e,
    rmatch U (Alt Bol (Chr q) +++ Group R)
      (λ e, if adv && (length (rest e) =? length s)%nat then None else Some e)
      (MState p s None) = Some e →
    ∃ sep g, take (length s - length (rest e)) s = sep ++ g ∧ grp e = Some g
             ∧ (sep = [] ∨ ∃ c, sep = [c] ∧ q c = true)
             ∧ in_lang R g).
  { intros adv p s0 e He.
    apply rmatch_sep_group_sound in He as (sep & g & s2 & Hs & Hk & Hsep & Hl).
    cbn [rest] in Hs, Hk. destruct (adv && _); [discriminate|].
    apply (inj Some) in Hk; subst e. cbn [rest grp].
    exists sep, g. split; [|done].
    rewrite Hs, app_assoc. apply take_suffix_diff. }
  induction s as [|c s IH]; intros adv p f; rewrite search_eq;
    (destruct (rmatch _ _ _ _) as [e|] eqn:He;
     [intros Hf; apply (inj Some) in Hf; subst f; cbn [f_text f_grp];
      by eapply Hfirst|]).
  - discriminate.
  - destruct (search U _ false (Some c) s) as [f'|] eqn:Hs; [|discriminate].
    intros Hf; apply (inj Some) in Hf; subst f. cbn [f_text f_grp].
    by eapply IH.
Qed.

(** The loop over the parts of a split, with a property [P] of the
    headings. *)
Lemma clause_loop_headings (P : str → Prop) (fs : list found) :
  ∀ f tl,
    Forall (λ f, ∃ sep g, f_text f = sep ++ g ∧ f_grp f = Some g
                          ∧ (sep = [] ∨ ∃ c, sep = [c] ∧ is_space c = true)
                          ∧ P g) (f :: fs) →
    ∃ segs,
      segs ≠ [] ∧ Forall sep_ok segs ∧ Forall (λ g, P (s_heading g)) segs
      ∧ clause_loop
          (f_grp f :: flat_map (λ f, [Some (f_pre f); f_grp f]) fs ++ [Some tl])
        = Some (map seg_clause segs)
      ∧ f_text f ++ concat (map (λ f, f_pre f ++ f_text f) fs) ++ tl
        = concat (map seg_text segs).
Proof.
  induction fs as [|f2 fs IH]; intros f tl Hall;
    apply Forall_cons in Hall as [(sep & g & Htext & Hgrp & Hsep & HP) Hall].
  - exists [Segment sep g tl]. split; [done|]. split.
    { constructor; [exact Hsep|constructor]. }
    split; [by constructor|].
    rewrite Hgrp, Htext. split; [reflexivity|].
    cbn [map concat]. unfold seg_text. cbn [s_sep s_heading s_body].
    by rewrite app_nil_r, <- app_assoc.
  - destruct (IH f2 tl Hall) as (segs & Hne & Hok & Hhead & Hloop & Hcat).
    exists (Segment sep g (f_pre f2) :: segs). split; [done|]. split.
    { constructor; [exact Hsep|exact Hok]. }
    split; [by constructor|].
    rewrite Hgrp, Htext. split.
    + cbn [flat_map app]. rewrite clause_loop_pair, Hloop. reflexivity.
    + cbn [map concat]. rewrite <- Hcat. unfold seg_text.
      cbn [s_sep s_heading s_body]. rewrite <- !app_assoc. reflexivity.
Qed.

(** The two shapes of a segmentation, with what the headings are made
    of. *)
Lemma extract_clauses_segments (T : str) :
  (re_search U (pattern U) (collapse U T) = None
   ∧ extract_clauses U T = Some [Clause (u "General Clause") (collapse U T)])
  ∨ (∃ pre segs,
       segs ≠ [] ∧ Forall sep_ok segs
       ∧ Forall (λ g, in_lang (heading_body U) (s_heading g)) segs
       ∧ collapse U T = pre ++ concat (map seg_text segs)
       ∧ extract_clauses U T = Some (map seg_clause segs)).
Proof.
  unfold extract_clauses, re_split. rewrite pattern_has_group.
  destruct (re_search U (pattern U) (collapse U T)) as [f|] eqn:Hsearch.
  - right. destruct (scan_all_some U _ _ _ Hsearch) as (fs & tl & Hscan).
    rewrite Hscan.
    pose proof (scan_text U _ _ _ _ _ _ _ Hscan) as Htext.
    assert (Hall : Forall (λ f, ∃ sep g, f_text f = sep ++ g ∧ f_grp f = Some g
                      ∧ (sep = [] ∨ ∃ c, sep = [c] ∧ is_space c = true)
                      ∧ in_lang (heading_body U) g) (f :: fs)).
    { eapply scan_Forall; [|exact Hscan]. intros adv p s f'.
      rewrite pattern_heading_body. apply search_sep_group_sound. }
    destruct (clause_loop_headings _ fs f tl Hall)
      as (segs & Hne & Hok & Hhead & Hloop & Hcat).
    exists (f_pre f), segs. split; [done|]. split; [done|]. split; [done|].
    split.
    + rewrite Htext at 1. cbn [map concat]. rewrite <- Hcat, <- !app_assoc.
      reflexivity.
    + cbn [flat_map app drop]. rewrite Hloop. cbn [mbind option_bind].
      destruct segs; [done|reflexivity].
  - left. split; [done|]. by rewrite (scan_all_none U _ _ Hsearch).
Qed.

Lemma lstrip_app_keep p (x : str) c (y : str) :
  p c = false → lstrip p (x ++ c :: y) = lstrip p x ++ c :: y.
Proof.
  intros Hc. induction x as [|a x IH]; simpl; [by rewrite Hc|].
  destruct (p a); [exact IH|done].
Qed.

(** [rstrip] stops at a character it does not remove. *)
Lemma rstrip_app_keep p (a : str) c (b : str) :
  p c = false → rstrip p (a ++ c :: b) = a ++ c :: rstrip p b.
Proof.
  intros Hc. unfold rstrip.
  rewrite rev_app_distr. cbn [rev]. rewrite <- app_assoc. cbn [app].
  rewrite lstrip_app_keep by done.
  rewrite rev_app_distr. cbn [rev]. rewrite rev_involutive, <- app_assoc.
  reflexivity.
Qed.

Lemma rstrip_snoc_drop p (a : str) c :
  p c = true → rstrip p (a ++ [c]) = rstrip p a.
Proof.
  intros Hc. unfold rstrip. rewrite rev_app_distr. cbn [rev app lstrip].
  by rewrite Hc.
Qed.

Lemma lstrip_elem p (s : str) c : c ∈ lstrip p s → c ∈ s.
Proof.
  induction s as [|a s IH]; simpl; [done|].
  destruct (p a); [|done]. intros H. right. by apply IH.
Qed.

Lemma rstrip_elem p (s : str) c : c ∈ rstrip p s → c ∈ s.
Proof.
  unfold rstrip. intros H. apply list_elem_of_In, in_rev, list_elem_of_In, lstrip_elem in H.
  by apply list_elem_of_In, in_rev, list_elem_of_In.
Qed.

Lemma digit_not_colon_or_blank c :
  is_digit U c = true → colon_or_blank c = false ∧ c ≠ 58.
Proof.
  unfold is_digit, is_ascii, is_09, in_range, colon_or_blank.
  destruct (N.ltb_spec c 128).
  - rewrite andb_true_iff, !N.leb_le. intros [? ?].
    destruct (N.eqb_spec c 58); [lia|]. destruct (N.eqb_spec c 32); [lia|].
    done.
  - intros _. destruct (N.eqb_spec c 58); [lia|].
    destruct (N.eqb_spec c 32); [lia|]. done.
Qed.

(** What a heading is made of, and the title that is left of it. *)
Lemma heading_title (g : str) :
  in_lang (heading_body U) g →
  ∃ ds p sp A ls,
    g = ds ++ [p] ++ sp ++ [A] ++ ls ++ [58]
    ∧ strip colon_or_blank g = ds ++ [p] ++ sp ++ [A] ++ rstrip colon_or_blank ls
    ∧ ds ≠ [] ∧ Forall (λ c, is_digit U c = true) ds
    ∧ dot_or_paren p = true
    ∧ Forall (λ c, is_space c = true) sp
    ∧ is_AZ A = true
    ∧ ls ≠ [] ∧ Forall (λ c, letter_or_space c = true) ls.
Proof.
  unfold heading_body. cbn [in_lang Lit]. unfold Lit. cbn [in_lang].
  intros (ds & r1 & -> & Hds & w1 & r2 & -> & (p & -> & Hp) & sp & r3 & -> &
          Hsp & w2 & r4 & -> & (A & -> & HA) & ls & w3 & -> & Hls &
          (c & -> & Hc)).
  apply N.eqb_eq in Hc as <-.
  apply (in_lang_rep_chr 1 None) in Hds as (Hds & Hd1 & _).
  apply (in_lang_rep_chr 0 None) in Hsp as (Hsp & _ & _).
  apply (in_lang_rep_chr 1 None) in Hls as (Hls & Hl1 & _).
  exists ds, p, sp, A, ls.
  destruct ds as [|d ds]; [simpl in Hd1; lia|].
  destruct ls as [|l ls]; [simpl in Hl1; lia|].
  split; [done|]. split; [|done].
  apply Forall_cons in Hds as [Hd Hds].
  apply digit_not_colon_or_blank in Hd as [Hd _].
  assert (HAc : colon_or_blank A = false).
  { revert HA. unfold is_AZ, in_range, colon_or_blank.
    rewrite andb_true_iff, !N.leb_le. intros [? ?].
    destruct (N.eqb_spec A 58); [lia|]. destruct (N.eqb_spec A 32); [lia|].
    done. }
  unfold strip. cbn [app lstrip]. rewrite Hd.
  replace (d :: ds ++ p :: sp ++ A :: l :: ls ++ [58])
    with ((d :: ds ++ p :: sp) ++ A :: ((l :: ls) ++ [58]))
    by (cbn [app]; by rewrite <- app_assoc).
  rewrite rstrip_app_keep by done.
  rewrite rstrip_snoc_drop by done.
  cbn [app]. by rewrite <- app_assoc.
Qed.

(** X4: every clause has a title that is not empty and holds no colon: it
    is "General Clause", or the heading less its colon: digits, a dot or a
    closing parenthesis, whitespace if any, a capital letter, then letters
    and spaces without the spaces at the end. *)
Theorem clause_titles (T : str) :
  ∃ cs,
    extract_clauses U T = Some cs
    ∧ Forall (λ c, title c ≠ [] ∧ (58 ∉ title c)) cs
    ∧ Forall (λ c,
        title c = u "General Clause"
        ∨ ∃ ds p sp A ls,
            title c = ds ++ [p] ++ sp ++ [A] ++ rstrip colon_or_blank ls
            ∧ ds ≠ [] ∧ Forall (λ c, is_digit U c = true) ds
            ∧ dot_or_paren p = true
            ∧ Forall (λ c, is_space c = true) sp
            ∧ is_AZ A = true
            ∧ Forall (λ c, letter_or_space c = true) ls) cs.
Proof.
  destruct (extract_clauses_segments T)
    as [[_ Hcs]|(pre & segs & _ & _ & Hhead & _ & Hcs)].
  - eexists. split; [exact Hcs|]. split.
    + constructor; [|constructor]. cbn [title]. split; [discriminate|].
      intros H. vm_compute in H.
      repeat (apply elem_of_cons in H as [H|H]; [discriminate H|]).
      by apply elem_of_nil in H.
    + constructor; [by left|constructor].
  - eexists. split; [exact Hcs|].
    assert (Hall : Forall (λ g, ∃ ds p sp A ls,
        title (seg_clause g) = ds ++ [p] ++ sp ++ [A] ++ rstrip colon_or_blank ls
        ∧ ds ≠ [] ∧ Forall (λ c, is_digit U c = true) ds
        ∧ dot_or_paren p = true
        ∧ Forall (λ c, is_space c = true) sp
        ∧ is_AZ A = true
        ∧ Forall (λ c, letter_or_space c = true) ls) segs).
    { eapply Forall_impl; [exact Hhead|]. intros g Hg. cbn [seg_clause title].
      apply heading_title in Hg
        as (ds & p & sp & A & ls & _ & Ht & Hne & Hds & Hp & Hsp & HA & _ & Hls).
      exists ds, p, sp, A, ls. done. }
    split; rewrite Forall_map; (eapply Forall_impl; [exact Hall|]);
      intros g (ds & p & sp & A & ls & Ht & Hne & Hds & Hp & Hsp & HA & Hls).
    + rewrite Ht. split; [by destruct ds|].
      rewrite !elem_of_app, !list_elem_of_singleton.
      rewrite Forall_forall in Hds, Hsp, Hls.
      intros [Hin|[Heq|[Hin|[Heq|Hin]]]].
      * apply Hds, digit_not_colon_or_blank in Hin as [_ ?].
        done.
      * subst p. discriminate Hp.
      * apply Hsp in Hin. discriminate Hin.
      * subst A. discriminate HA.
      * apply rstrip_elem, Hls in Hin. discriminate Hin.
    + right. exists ds, p, sp, A, ls. done.
Qed.

End HeadingFacts.

(** ** Whitespace in the clauses *)

Section SpacingFacts.
Import Clauses.
Variable U : unicode_data.

Lemma squeeze_same (s t : str) :
  same_but_whitespace s t → ∀ b, squeeze b s = squeeze b t.
Proof.
  induction 1 as [|a c s t Hac _ IH]; intros b; [done|].
  cbn [squeeze]. destruct Hac as [<-|[Ha Hc]].
  - by rewrite !IH.
  - by rewrite Ha, Hc, !IH.
Qed.

Lemma squeeze_idem (s : str) : ∀ b, squeeze b (squeeze b s) = squeeze b s.
Proof.
  induction s as [|c s IH]; intros b; [done|].
  cbn [squeeze]. destruct (is_space c) eqn:Hc.
  - destruct b; [apply IH|]. cbn [squeeze].
    change (is_space 32) with true. cbv iota. by rewrite IH.
  - cbn [squeeze]. by rewrite Hc, IH.
Qed.

Lemma squeeze_spaces (s : str) :
  ∀ b c, c ∈ squeeze b s → is_space c = true → c = 32.
Proof.
  induction s as [|a s IH]; intros b c; cbn [squeeze].
  - intros H. by apply elem_of_nil in H.
  - destruct (is_space a) eqn:Ha.
    + destruct b; [apply IH|].
      intros H. apply elem_of_cons in H as [->|H]; [done|]. by eapply IH.
    + intros H. apply elem_of_cons in H as [->|H]; [congruence|]. by eapply IH.
Qed.

Lemma squeeze_no_double (s : str) :
  ∀ b, str_in [32; 32] (squeeze b s) = false
       ∧ (b = true → starts_with [32] (squeeze b s) = false).
Proof.
  induction s as [|a s IH]; intros b; cbn [squeeze].
  - by split.
  - destruct (is_space a) eqn:Ha.
    + destruct b; [apply IH|].
      destruct (IH true) as [H1 H2]. split; [|discriminate].
      cbn [str_in starts_with]. rewrite N.eqb_refl.
      cbn [starts_with] in H2. cbn [andb]. rewrite H1.
      specialize (H2 eq_refl).
      destruct (squeeze true s) as [|x xs]; [done|].
      cbn [starts_with] in *. destruct xs; by rewrite H2.
    + destruct (IH false) as [H1 _].
      assert (H32 : (32 =? a) = false).
      { destruct (N.eqb_spec 32 a) as [<-|]; [discriminate Ha|done]. }
      split.
      * cbn [str_in starts_with]. by rewrite H32, H1.
      * intros _. cbn [starts_with]. by rewrite H32.
Qed.

Lemma squeeze_single_spaced (s : str) : single_spaced (squeeze false s).
Proof.
  split; [apply squeeze_spaces|apply squeeze_no_double].
Qed.

Lemma single_spaced_occurs (x s : str) :
  occurs_in x s → single_spaced s → single_spaced x.
Proof.
  intros Hocc [H1 H2]. split.
  - intros c Hc. apply H1. destruct Hocc as (a & b & ->).
    rewrite !elem_of_app. by auto.
  - destruct (str_in [32; 32] x) eqn:E; [|done].
    apply occurs_in_str_in in E.
    pose proof (occurs_in_trans _ _ _ E Hocc) as H.
    apply occurs_in_str_in in H. congruence.
Qed.

Lemma lstrip_suffix p (s : str) : ∃ a, s = a ++ lstrip p s.
Proof.
  induction s as [|c s [a IH]]; [by exists []|]. simpl.
  destruct (p c); [|by exists []]. exists (c :: a). simpl. by f_equal.
Qed.

Lemma rstrip_prefix p (s : str) : ∃ b, s = rstrip p s ++ b.
Proof.
  unfold rstrip. destruct (lstrip_suffix p (rev s)) as [a Ha].
  exists (rev a). rewrite <- rev_app_distr, <- Ha. by rewrite rev_involutive.
Qed.

(** What [strip] leaves is a piece of the text. *)
Lemma strip_occurs p (s : str) : occurs_in (strip p s) s.
Proof.
  unfold strip. destruct (lstrip_suffix p s) as [a Ha].
  destruct (rstrip_prefix p (lstrip p s)) as [b Hb].
  exists a, b. by rewrite <- Hb.
Qed.

Lemma lstrip_idem p (s : str) : lstrip p (lstrip p s) = lstrip p s.
Proof.
  induction s as [|c s IH]; [done|]. simpl.
  destruct (p c) eqn:Hc; [done|]. simpl. by rewrite Hc.
Qed.

Lemma rstrip_idem p (s : str) : rstrip p (rstrip p s) = rstrip p s.
Proof. unfold rstrip. by rewrite rev_involutive, lstrip_idem. Qed.

(** [strip] leaves nothing more to strip. *)
Lemma strip_idem p (s : str) : strip p (strip p s) = strip p s.
Proof.
  unfold strip. destruct (lstrip p s) as [|c x] eqn:Hx; [done|].
  apply lstrip_head in Hx.
  pose proof (rstrip_app_keep p [] c x Hx) as E. cbn [app] in E. rewrite E.
  cbn [lstrip]. rewrite Hx.
  pose proof (rstrip_app_keep p [] c (rstrip p x) Hx) as E'. cbn [app] in E'.
  by rewrite E', rstrip_idem.
Qed.

Lemma seg_occurs (g : segment) (segs : list segment) (pre : str) :
  g ∈ segs →
  occurs_in (s_heading g) (pre ++ concat (map seg_text segs))
  ∧ occurs_in (s_body g) (pre ++ concat (map seg_text segs)).
Proof.
  intros Hg. apply list_elem_of_split in Hg as (l1 & l2 & ->).
  assert (E : concat (map seg_text (l1 ++ g :: l2))
              = concat (map seg_text l1)
                ++ s_sep g ++ s_heading g ++ s_body g ++ concat (map seg_text l2)).
  { rewrite map_app, concat_app. cbn [map concat]. unfold seg_text at 2.
    by rewrite <- !app_assoc. }
  rewrite E. split.
  - exists (pre ++ concat (map seg_text l1) ++ s_sep g),
      (s_body g ++ concat (map seg_text l2)).
    by rewrite <- !app_assoc.
  - exists (pre ++ concat (map seg_text l1) ++ s_sep g ++ s_heading g),
      (concat (map seg_text l2)).
    by rewrite <- !app_assoc.
Qed.

(** X5: in every clause, title and text have no whitespace but single
    spaces: no tab, no line break, no two spaces in a row; and the text of a
    clause made from a heading neither starts nor ends with a space. *)
Theorem clause_fields_single_spaced (T : str) :
  ∃ cs,
    extract_clauses U T = Some cs
    ∧ Forall (λ c, single_spaced (title c) ∧ single_spaced (text c)
                   ∧ (title c = u "General Clause"
                      ∨ strip is_space (text c) = text c)) cs.
Proof.
  pose proof (squeeze_single_spaced T) as Hsq. rewrite <- (collapse_squeeze U) in Hsq.
  destruct (extract_clauses_shape U T)
    as [[_ Hcs]|(f & pre & segs & _ & _ & _ & Htext & Hcs)].
  - eexists. split; [exact Hcs|]. constructor; [|constructor].
    cbn [title text]. split; [|split; [exact Hsq|by left]].
    split; [|vm_compute; reflexivity].
    intros c Hc Hsp.
    repeat (apply elem_of_cons in Hc as [->|Hc];
      [first [reflexivity | vm_compute in Hsp; discriminate Hsp]|]).
    by apply elem_of_nil in Hc.
  - eexists. split; [exact Hcs|]. rewrite Forall_map.
    apply Forall_forall. intros g Hg. cbn [seg_clause title text].
    destruct (seg_occurs g segs pre Hg) as [Hh Hb]. rewrite <- Htext in Hh, Hb.
    split; [|split].
    + eapply single_spaced_occurs; [|exact Hsq].
      eapply occurs_in_trans; [apply strip_occurs|exact Hh].
    + eapply single_spaced_occurs; [|exact Hsq].
      eapply occurs_in_trans; [apply strip_occurs|exact Hb].
    + right. apply strip_idem.
Qed.

(** X6: segmentation sees whitespace only as separation: two texts that
    differ only in which whitespace characters they use (a tab or a line
    break for a space) have the same clauses, and so has a text and its
    whitespace-collapsed form. *)
Theorem extract_clauses_whitespace_blind (T1 T2 : str) :
  same_but_whitespace T1 T2 →
  extract_clauses U T1 = extract_clauses U T2
  ∧ extract_clauses U (collapse U T1) = extract_clauses U T1.
Proof.
  intros Hsame. unfold extract_clauses.
  rewrite !collapse_squeeze, squeeze_idem, (squeeze_same T1 T2 Hsame). done.
Qed.

End SpacingFacts.

Lemma extract_clauses_whitespace_blind_witness :
  Clauses.extract_clauses ascii_only [49; 46; 9; 84; 101; 114; 109; 58; 10; 120]
  = Clauses.extract_clauses ascii_only (u "1. Term: x").
Proof.
  apply (extract_clauses_whitespace_blind ascii_only
           [49; 46; 9; 84; 101; 114; 109; 58; 10; 120] (u "1. Term: x")).
  repeat (constructor; [first [by left | right; split; reflexivity]|]).
  constructor.
Defined.

(** ** Reading a file, then segmenting it *)

Section ReaderFacts.
Import Reader.
Variable U : unicode_data.
Variable F : Type.
Variable name : F → str.
Variable pdf_pages : F → option (list (option str)).
Variable docx_paragraphs : F → option (list str).
Variable read_utf8 : F → option str.

Lemma same_but_whitespace_refl (s : str) : same_but_whitespace s s.
Proof. apply Forall2_same_length_lookup_2; [done|]. intros i a b ? ?. left. congruence. Qed.

Lemma join_same (items : list str) :
  same_but_whitespace (join newline items) (join (u " ") items).
Proof.
  induction items as [|x [|y rest] IH]; [constructor|apply same_but_whitespace_refl|].
  change (same_but_whitespace (x ++ [10] ++ join newline (y :: rest))
                              (x ++ [32] ++ join (u " ") (y :: rest))).
  apply Forall2_app; [apply same_but_whitespace_refl|].
  constructor; [by right|exact IH].
Qed.

(** X7: the line breaks that [extract_text] puts between the pages of a PDF
    and between the paragraphs of a DOCX file never show in the clauses: the
    text it returns is segmented like the pages, or paragraphs, joined by
    single spaces, a page without text counting as an empty one. *)
Theorem page_breaks_are_spaces (file : F) (parts : list str) :
  (ends_with (u ".pdf") (name file) = true
   ∧ ∃ pages, pdf_pages file = Some pages ∧ parts = map (default []) pages)
  ∨ (ends_with (u ".pdf") (name file) = false
     ∧ ends_with (u ".docx") (name file) = true
     ∧ docx_paragraphs file = Some parts) →
  ∃ s,
    extract_text F name pdf_pages docx_paragraphs read_utf8 file = Text s
    ∧ Clauses.extract_clauses U s = Clauses.extract_clauses U (join (u " ") parts).
Proof.
  intros H. exists (join newline parts). split.
  - unfold extract_text.
    destruct H as [(-> & pages & -> & ->)|(-> & -> & ->)]; reflexivity.
  - unfold Clauses.extract_clauses.
    by rewrite !collapse_squeeze, (squeeze_same _ _ (join_same parts)).
Qed.

End ReaderFacts.

Lemma page_breaks_are_spaces_witness :
  ∃ s,
    Reader.extract_text unit (λ _, u "lease.pdf")
      (λ _, Some [Some (u "1. Term: one year"); None; Some (u "2. Rent: due monthly")])
      (λ _, None) (λ _, None) () = Reader.Text s
    ∧ Clauses.extract_clauses ascii_only s
      = Clauses.extract_clauses ascii_only
          (Reader.join (u " ") [u "1. Term: one year"; []; u "2. Rent: due monthly"]).
Proof.
  apply (page_breaks_are_spaces ascii_only unit (λ _, u "lease.pdf")
           (λ _, Some [Some (u "1. Term: one year"); None; Some (u "2. Rent: due monthly")])
           (λ _, None) (λ _, None) ()
           [u "1. Term: one year"; []; u "2. Rent: due monthly"]).
  left. split; [reflexivity|]. eexists. split; reflexivity.
Defined.

(** ** Risk and the amount of text *)

Section RiskGrowth.
Import Risk.
Variable U : unicode_data.

Lemma lower_occurs (x t k : str) :
  forallb is_ascii t = true → occurs_in x t →
  str_in k (py_lower U x) = true → str_in k (py_lower U t) = true.
Proof.
  intros Ht (a & b & ->).
  assert (Hx : forallb is_ascii x = true).
  { rewrite !forallb_app, !andb_true_iff in Ht. tauto. }
  unfold py_lower. rewrite Ht, Hx, !map_app.
  intros H. apply occurs_in_str_in. apply occurs_in_str_in in H.
  eapply occurs_in_trans; [exact H|]. by eexists _, _.
Qed.

Lemma score_mono (x t : str) :
  (∀ k, str_in k (py_lower U x) = true → str_in k (py_lower U t) = true) →
  (score U x ≤ score U t)%Z.
Proof.
  intros H. unfold score.
  assert (Hpos : Forall (λ kv : str * Z, (0 ≤ kv.2)%Z) RISK_RULES).
  { unfold RISK_RULES. repeat constructor; simpl; lia. }
  revert Hpos. generalize RISK_RULES. intros rs.
  induction 1 as [|[k w] rs Hw _ IH]; cbn [foldr fst snd] in *; [lia|].
  destruct (str_in k (py_lower U x)) eqn:Hx.
  - rewrite (H k Hx). lia.
  - destruct (str_in k (py_lower U t)); lia.
Qed.

Lemma tier_of_score_mono a b :
  (a ≤ b)%Z → tier_le (tier_of_score a) (tier_of_score b).
Proof.
  intros H. unfold tier_of_score, tier_le.
  destruct (Z.leb_spec 7 a), (Z.leb_spec 7 b), (Z.leb_spec 4 a), (Z.leb_spec 4 b);
    simpl; lia.
Qed.

Lemma risk_mono (x t : str) :
  forallb is_ascii t = true → occurs_in x t →
  (score U x ≤ score U t)%Z ∧ tier_le (risk_analysis U x) (risk_analysis U t).
Proof.
  intros Ht Hocc.
  assert (H : (score U x ≤ score U t)%Z).
  { apply score_mono. intros k. by apply lower_occurs. }
  split; [exact H|]. by apply tier_of_score_mono.
Qed.

(** X8: on an ASCII text more text never lowers the risk: a piece of a text
    scores at most what the whole text scores, and its tier is at most the
    tier of the whole. *)
Theorem risk_grows_with_text (x t : str) :
  forallb is_ascii t = true → occurs_in x t →
  (score U x ≤ score U t)%Z ∧ tier_le (risk_analysis U x) (risk_analysis U t).
Proof. apply risk_mono. Qed.

(** X9: the score lies between 0 and 25, and the tier follows the number of
    lexicon keywords found: no keyword gives [Low], a single keyword never
    gives [High], and any three keywords give [High]. *)
Theorem risk_tier_by_hits (text : str) :
  (0 ≤ score U text ≤ 25)%Z
  ∧ (hits U text = [] → risk_analysis U text = Low)
  ∧ (risk_analysis U text = High → (2 ≤ length (hits U text))%nat)
  ∧ ((3 ≤ length (hits U text))%nat → risk_analysis U text = High).
Proof.
  unfold risk_analysis, hits, score, RISK_RULES.
  cbn [foldr map fst snd List.filter].
  repeat match goal with
         | |- context [str_in ?k (py_lower U text)] =>
             generalize (str_in k (py_lower U text)); intros []
         end;
    cbn [length];
    (split; [vm_compute; split; discriminate|]);
    (split; [intros; first [discriminate | reflexivity]|]);
    (split; intros; first [reflexivity | discriminate | lia]).
Qed.

End RiskGrowth.

Lemma risk_grows_with_text_witness :
  (Risk.score ascii_only (u "a Penalty of") ≤
   Risk.score ascii_only (u "pay a Penalty of 5 without notice"))%Z
  ∧ Risk.tier_le (Risk.risk_analysis ascii_only (u "a Penalty of"))
      (Risk.risk_analysis ascii_only (u "pay a Penalty of 5 without notice")).
Proof.
  apply (risk_grows_with_text ascii_only (u "a Penalty of")
           (u "pay a Penalty of 5 without notice")).
  - vm_compute; reflexivity.
  - exists (u "pay "), (u " 5 without notice"). reflexivity.
Defined.

Lemma risk_tier_by_hits_witness :
  Risk.risk_analysis ascii_only
    (u "Penalty applies; disputes go to arbitration in the jurisdiction of Delhi")
  = Risk.High.
Proof.
  apply (risk_tier_by_hits ascii_only
    (u "Penalty applies; disputes go to arbitration in the jurisdiction of Delhi")).
  vm_compute. lia.
Defined.

(** ** The report *)

Section ReportFacts.
Import Pdf.

Lemma page_breaks_app a b : page_breaks (a ++ b) = (page_breaks a + page_breaks b)%nat.
Proof.
  induction a as [|[] a IH]; simpl; [done|exact IH|by rewrite IH|exact IH].
Qed.

Lemma drawn_app a b : drawn (a ++ b) = drawn a ++ drawn b.
Proof.
  induction a as [|[] a IH]; simpl; [done|by rewrite IH|exact IH|exact IH].
Qed.

Lemma room_step (y : Z) : (120 ≤ y)%Z → room y = S (room (y - 15 - 40)).
Proof.
  intros Hy. unfold room.
  destruct (Z.ltb_spec y 120); [lia|].
  destruct (Z.ltb_spec (y - 15 - 40) 120) as [Hlt|Hge].
  - f_equal. replace ((y - 120) / 55)%Z with 0%Z; [done|].
    symmetry. apply Z.div_small. lia.
  - f_equal. replace (y - 120)%Z with ((y - 15 - 40 - 120) + 1 * 55)%Z by lia.
    rewrite Z.div_add by lia.
    rewrite Z2Nat.inj_add; [|apply Z.div_pos; lia|lia].
    change (Z.to_nat 1) with 1%nat. lia.
Qed.

(** The page breaks of the loop: a page takes 13 clauses. *)
Lemma draw_clauses_breaks (cls : list analyzed) :
  ∀ y, (room y ≤ 13)%nat →
       page_breaks (draw_clauses y cls) = ((length cls + 12 - room y) / 13)%nat.
Proof.
  induction cls as [|cl cls IH]; intros y Hy.
  - cbn [draw_clauses page_breaks length]. symmetry. apply Nat.div_small. lia.
  - cbn [draw_clauses length]. destruct (Z.ltb_spec y 120) as [Hlt|Hge].
    + cbn [app page_breaks].
      assert (Hr : room y = 0%nat) by (unfold room; destruct (Z.ltb_spec y 120); [done|lia]).
      rewrite IH; change (room (800 - 15 - 40)) with 12%nat; [|lia].
      rewrite Hr.
      replace (S (length cls) + 12 - 0)%nat with (length cls + 12 - 12 + 1 * 13)%nat by lia.
      rewrite Nat.div_add by lia. lia.
    + cbn [app page_breaks].
      pose proof (room_step y Hge) as Hs.
      rewrite IH by lia. f_equal. lia.
Qed.

Lemma draw_clauses_drawn (cls : list analyzed) :
  ∀ y, (y ≤ 800)%Z →
       Forall (λ l, l.1.1 = 40%Z ∧ (105 ≤ l.1.2 ≤ 800)%Z) (drawn (draw_clauses y cls))
       ∧ map snd (drawn (draw_clauses y cls)) = flat_map clause_lines cls.
Proof.
  induction cls as [|cl cls IH]; intros y Hy; [by split; [constructor|]|].
  cbn [draw_clauses flat_map]. rewrite drawn_app.
  destruct (Z.ltb_spec y 120) as [Hlt|Hge]; cbn [drawn app map snd].
  - destruct (IH (800 - 15 - 40)%Z) as [H1 H2]; [lia|]. split.
    + constructor; [simpl; lia|]. constructor; [simpl; lia|]. exact H1.
    + rewrite H2. reflexivity.
  - destruct (IH (y - 15 - 40)%Z) as [H1 H2]; [lia|]. split.
    + constructor; [simpl; lia|]. constructor; [simpl; lia|]. exact H1.
    + rewrite H2. reflexivity.
Qed.

(** X10: the report is laid out within the page whatever the number of
    clauses: every string is drawn at x = 40 with 105 <= y <= 800; the
    strings are, in order, the heading, the first 1000 characters of the
    summary and, for each clause in the order given, its title line and the
    first 800 characters of its explanation; and the canvas is saved once,
    at the end. *)
Theorem report_layout (name summary : str) (cls : list analyzed) :
  let ops := (generate_pdf name summary cls).2 in
  Forall (λ l, l.1.1 = 40%Z ∧ (105 ≤ l.1.2 ≤ 800)%Z) (drawn ops)
  ∧ map snd (drawn ops)
    = u "Contract Risk Analysis Report" :: take 1000 summary
      :: flat_map clause_lines cls
  ∧ ∃ body, ops = body ++ [Save] ∧ (Save ∉ body).
Proof.
  cbn [generate_pdf snd drawn]. rewrite drawn_app. cbn [drawn].
  rewrite app_nil_r.
  destruct (draw_clauses_drawn cls (800 - 30 - 40)%Z) as [H1 H2]; [lia|].
  split; [|split].
  - constructor; [simpl; lia|]. constructor; [simpl; lia|]. exact H1.
  - cbn [map snd]. by rewrite H2.
  - eexists (_ :: _ :: _). split; [reflexivity|].
    intros H. apply elem_of_cons in H as [H|H]; [discriminate|].
    apply elem_of_cons in H as [H|H]; [discriminate|].
    clear H1 H2. revert H. generalize (800 - 30 - 40)%Z.
    induction cls as [|cl cls IH]; intros y H; cbn [draw_clauses] in H.
    + by apply elem_of_nil in H.
    + apply elem_of_app in H as [H|H].
      * destruct (y <? 120)%Z; [|by apply elem_of_nil in H].
        apply elem_of_cons in H as [H|H]; [discriminate|]. by apply elem_of_nil in H.
      * apply elem_of_cons in H as [H|H]; [discriminate|].
        apply elem_of_cons in H as [H|H]; [discriminate|]. by eapply IH.
Qed.

(** X11: the report breaks the page once for every 13 clauses: with n
    clauses it has n / 13 page breaks (12 clauses go under the summary on
    the first page, 13 on each later page). *)
Theorem report_page_breaks (name summary : str) (cls : list analyzed) :
  page_breaks (generate_pdf name summary cls).2 = (length cls / 13)%nat.
Proof.
  cbn [generate_pdf snd page_breaks]. rewrite page_breaks_app.
  rewrite draw_clauses_breaks; change (room (800 - 30 - 40)) with 12%nat; [|lia].
  cbn [page_breaks]. rewrite Nat.add_0_r. f_equal. lia.
Qed.

End ReportFacts.

(** ** The analysis as a whole *)

Section PipelineFacts.
Import Pipeline.
Variable U : unicode_data.
Variable detect : str → option str.
Variable cfg : Provider.config.

Lemma ask_snd (f un p : str) (log : list str) :
  (Provider.ask cfg f un p log).2 = log ++ (if live cfg then [p] else []).
Proof.
  unfold Provider.ask, live.
  destruct (Provider.USE_GENAI cfg), (Provider.client cfg); simpl;
    by rewrite ?app_nil_r.
Qed.

Lemma ask_fst_off (f un p : str) (log : list str) :
  live cfg = false → (Provider.ask cfg f un p log).1 = f.
Proof.
  unfold Provider.ask, live.
  by destruct (Provider.USE_GENAI cfg), (Provider.client cfg).
Qed.

Lemma clause_pass_cons cl rest log :
  clause_pass U cfg (cl :: rest) log =
    let risk := Risk.risk_analysis U (Clauses.text cl) in
    let '(explanation, log) :=
      Provider.gpt_explain_clause cfg (Clauses.text cl) log in
    let '(suggestion, log) :=
      if Risk.tier_eqb risk Risk.Low then (no_suggestion, log)
      else Provider.gpt_suggest_alternative cfg (Clauses.text cl) log in
    let '(rs, log) := clause_pass U cfg rest log in
    (Row (Clauses.title cl) risk explanation suggestion :: rs, log).
Proof. reflexivity. Qed.

(** What the loop over the clauses makes of them. *)
Lemma clause_pass_spec (cls : list Clauses.clause) :
  ∀ log, ∃ rs log',
    clause_pass U cfg cls log = (rs, log')
    ∧ map r_title rs = map Clauses.title cls
    ∧ map r_risk rs = map (λ c, Risk.risk_analysis U (Clauses.text c)) cls
    ∧ Forall (λ r, r_risk r = Risk.Low → r_suggestion r = no_suggestion) rs
    ∧ log' = log ++ (if live cfg then flat_map (clause_prompts U) cls else [])
    ∧ (live cfg = false →
       Forall (λ r, r_explanation r = Provider.explain_fallback
                    ∧ r_suggestion r =
                        if Risk.tier_eqb (r_risk r) Risk.Low then no_suggestion
                        else Provider.suggest_fallback) rs).
Proof.
  induction cls as [|cl cls IH]; intros log.
  - exists [], log. cbn [clause_pass map flat_map].
    repeat split; try constructor. by destruct (live cfg); rewrite app_nil_r.
  - rewrite clause_pass_cons. cbv zeta.
    destruct (Provider.gpt_explain_clause cfg (Clauses.text cl) log)
      as [e l1] eqn:He.
    assert (Hl1 : l1 = log ++ (if live cfg then [Clauses.text cl] else [])).
    { change l1 with (e, l1).2. rewrite <- He. apply ask_snd. }
    assert (He1 : live cfg = false → e = Provider.explain_fallback).
    { intros Hoff. change e with (e, l1).1. rewrite <- He. by apply ask_fst_off. }
    destruct (Risk.tier_eqb (Risk.risk_analysis U (Clauses.text cl)) Risk.Low)
      eqn:Hlow.
    + destruct (IH l1) as (rs & l3 & -> & Ht & Hr & Hs & Hl & Hoff).
      eexists _, _. split; [reflexivity|].
      cbn [map r_title r_risk flat_map]. rewrite Ht, Hr.
      split; [done|]. split; [done|].
      split; [by constructor|]. split.
      * rewrite Hl, Hl1. unfold clause_prompts. rewrite Hlow.
        destruct (live cfg); by rewrite <- ?app_assoc, ?app_nil_r.
      * intros H. constructor; [|by apply Hoff].
        cbn [r_explanation r_suggestion r_risk]. rewrite Hlow. by split; [apply He1|].
    + destruct (Provider.gpt_suggest_alternative cfg (Clauses.text cl) l1)
        as [s l2] eqn:Hsg.
      assert (Hl2 : l2 = l1 ++ (if live cfg then [Clauses.text cl] else [])).
      { change l2 with (s, l2).2. rewrite <- Hsg. apply ask_snd. }
      assert (Hs1 : live cfg = false → s = Provider.suggest_fallback).
      { intros Hoff. change s with (s, l2).1. rewrite <- Hsg. by apply ask_fst_off. }
      destruct (IH l2) as (rs & l3 & -> & Ht & Hr & Hs & Hl & Hoff).
      eexists _, _. split; [reflexivity|].
      cbn [map r_title r_risk flat_map]. rewrite Ht, Hr.
      split; [done|]. split; [done|]. split.
      * constructor; [|done]. cbn [r_risk r_suggestion]. intros Hc.
        rewrite Hc in Hlow. discriminate Hlow.
      * split.
        -- rewrite Hl, Hl2, Hl1. unfold clause_prompts. rewrite Hlow.
           destruct (live cfg); by rewrite <- ?app_assoc, ?app_nil_r.
        -- intros H. constructor; [|by apply Hoff].
           cbn [r_explanation r_suggestion r_risk]. rewrite Hlow.
           by split; [apply He1|apply Hs1].
Qed.

Lemma extract_clauses_some (T : str) :
  ∃ cs, Clauses.extract_clauses U T = Some cs ∧ cs ≠ []
        ∧ Forall (λ c, occurs_in (Clauses.text c) (Clauses.collapse U T)) cs.
Proof.
  destruct (extract_clauses_shape U T)
    as [[_ Hcs]|(f & pre & segs & _ & Hne & _ & Htext & Hcs)].
  - eexists. split; [exact Hcs|]. split; [done|].
    constructor; [apply occurs_in_refl|constructor].
  - eexists. split; [exact Hcs|]. split; [by destruct segs|].
    rewrite Forall_map. apply Forall_forall. intros g Hg.
    cbn [seg_clause Clauses.text].
    destruct (seg_occurs g segs pre Hg) as [_ Hb]. rewrite <- Htext in Hb.
    eapply occurs_in_trans; [apply strip_occurs|exact Hb].
Qed.

(** How [analyze] runs: it never fails. *)
Lemma analyze_spec (raw : str) :
  ∃ ct cf cs rs lg,
    Classify.classify_contract U raw = Some (ct, cf)
    ∧ Clauses.extract_clauses U raw = Some cs
    ∧ clause_pass U cfg cs (Provider.gpt_contract_summary cfg raw []).2 = (rs, lg)
    ∧ analyze U detect cfg raw =
        Some (Analysis ct cf cs (Entities.extract_entities U raw)
                (Provider.gpt_contract_summary cfg raw []).1 rs (map r_risk rs)
                (Risk.overall (map r_risk rs)) lg).
Proof.
  destruct (classify_contract_counts U raw) as (ct & q & Hc & _).
  destruct (extract_clauses_some raw) as (cs & Hcs & _).
  destruct (clause_pass_spec cs (Provider.gpt_contract_summary cfg raw []).2)
    as (rs & lg & Hp & _).
  exists ct, (Float.round q 2), cs, rs, lg.
  split; [exact Hc|]. split; [exact Hcs|]. split; [exact Hp|].
  unfold analyze. cbn [Language.normalize_language Language.normalized].
  rewrite Hc. cbn [mbind option_bind]. rewrite Hcs. cbn [mbind option_bind].
  destruct (Provider.gpt_contract_summary cfg raw []) as [sm l0].
  cbn [snd fst] in *. by rewrite Hp.
Qed.

Lemma overall_attained (rs : list Risk.tier) :
  rs ≠ [] → Risk.overall rs ∈ rs.
Proof.
  intros Hne. unfold Risk.overall.
  destruct (Risk.tier_in Risk.High rs) eqn:Hh; [by apply tier_in_true|].
  destruct (Risk.tier_in Risk.Medium rs) eqn:Hm; [by apply tier_in_true|].
  apply tier_in_false in Hh, Hm.
  destruct rs as [|[] rs]; [done|apply list_elem_of_here|..].
  - exfalso. apply Hm, list_elem_of_here.
  - exfalso. apply Hh, list_elem_of_here.
Qed.

Lemma overall_bounded (rs : list Risk.tier) (b : Risk.tier) :
  Forall (λ r, Risk.tier_le r b) rs → Risk.tier_le (Risk.overall rs) b.
Proof.
  intros Hall. rewrite Forall_forall in Hall. unfold Risk.overall.
  destruct (Risk.tier_in Risk.High rs) eqn:Hh; [by apply Hall, tier_in_true|].
  destruct (Risk.tier_in Risk.Medium rs) eqn:Hm; [by apply Hall, tier_in_true|].
  unfold Risk.tier_le. simpl. lia.
Qed.

(** X12: the analysis of an uploaded text never fails, and it is the analysis
    of the raw text, whatever language is detected: type and confidence,
    clauses and entities are those of the raw text; there is one row per
    clause, in order, with the clause's title and the risk of its text; a
    [Low] row has the dash for a suggestion; and the overall tier is the
    tier of one of the clauses. *)
Theorem analysis_of_raw_text (raw : str) :
  ∃ a,
    analyze U detect cfg raw = Some a
    ∧ Classify.classify_contract U raw = Some (ctype a, conf a)
    ∧ Clauses.extract_clauses U raw = Some (clauses a)
    ∧ entities a = Entities.extract_entities U raw
    ∧ map r_title (rows a) = map Clauses.title (clauses a)
    ∧ map r_risk (rows a)
      = map (λ c, Risk.risk_analysis U (Clauses.text c)) (clauses a)
    ∧ risks a = map r_risk (rows a)
    ∧ Forall (λ r, r_risk r = Risk.Low → r_suggestion r = no_suggestion) (rows a)
    ∧ ∃ c, c ∈ clauses a ∧ overall a = Risk.risk_analysis U (Clauses.text c).
Proof.
  destruct (analyze_spec raw) as (ct & cf & cs & rs & lg & Hc & Hcs & Hp & Ha).
  destruct (extract_clauses_some raw) as (cs' & Hcs' & Hne & _).
  rewrite Hcs in Hcs'. apply (inj Some) in Hcs'. subst cs'.
  destruct (clause_pass_spec cs (Provider.gpt_contract_summary cfg raw []).2)
    as (rs' & lg' & Hp' & Ht & Hr & Hs & _).
  rewrite Hp in Hp'. apply pair_equal_spec in Hp' as [<- <-].
  eexists. split; [exact Ha|].
  cbn [ctype conf clauses entities rows risks overall].
  repeat (split; [done|]).
  assert (Hin : Risk.overall (map r_risk rs) ∈ map r_risk rs).
  { apply overall_attained. rewrite Hr. by destruct cs. }
  rewrite Hr in Hin at 2. apply list_elem_of_In, in_map_iff in Hin as (c & Hc' & Hin).
  exists c. split; [by apply list_elem_of_In|done].
Qed.

(** X13: the prompts sent to the provider.  With [USE_GENAI] off, or without
    a client, none is sent.  Otherwise the first 6000 characters of the raw
    text are sent for the summary, then for each clause in order its text
    for the explanation and, unless its risk is [Low], its text again for
    the suggestion. *)
Theorem prompts_sent (raw : str) :
  ∃ a,
    analyze U detect cfg raw = Some a
    ∧ prompts a =
        if live cfg
        then take 6000 raw :: flat_map (clause_prompts U) (clauses a)
        else [].
Proof.
  destruct (analyze_spec raw) as (ct & cf & cs & rs & lg & Hc & Hcs & Hp & Ha).
  destruct (clause_pass_spec cs (Provider.gpt_contract_summary cfg raw []).2)
    as (rs' & lg' & Hp' & _ & _ & _ & Hl & _).
  rewrite Hp in Hp'. apply pair_equal_spec in Hp' as [<- <-].
  eexists. split; [exact Ha|]. cbn [prompts clauses].
  rewrite Hl. unfold Provider.gpt_contract_summary. rewrite ask_snd.
  by destruct (live cfg).
Qed.

(** X14: with [USE_GENAI] off, or without a client, every text shown is a
    canned one: the summary is the fallback summary, every explanation the
    fallback explanation, and every suggestion the dash on a [Low] clause
    and the fallback suggestion on any other. *)
Theorem canned_texts (raw : str) :
  live cfg = false →
  ∃ a,
    analyze U detect cfg raw = Some a
    ∧ summary a = Provider.summary_fallback
    ∧ Forall (λ r, r_explanation r = Provider.explain_fallback
                   ∧ r_suggestion r =
                       if Risk.tier_eqb (r_risk r) Risk.Low then no_suggestion
                       else Provider.suggest_fallback) (rows a).
Proof.
  intros Hoff.
  destruct (analyze_spec raw) as (ct & cf & cs & rs & lg & Hc & Hcs & Hp & Ha).
  destruct (clause_pass_spec cs (Provider.gpt_contract_summary cfg raw []).2)
    as (rs' & lg' & Hp' & _ & _ & _ & _ & Hcan).
  rewrite Hp in Hp'. apply pair_equal_spec in Hp' as [<- <-].
  eexists. split; [exact Ha|]. cbn [summary rows].
  split; [by apply ask_fst_off|by apply Hcan].
Qed.

Lemma squeeze_ascii (s : str) :
  forallb is_ascii s = true → ∀ b, forallb is_ascii (squeeze b s) = true.
Proof.
  induction s as [|c s IH]; intros H b; [done|].
  cbn [forallb] in H. apply andb_true_iff in H as [Hc Hs].
  cbn [squeeze]. destruct (is_space c), b; cbn [forallb]; rewrite ?Hc, IH; done.
Qed.

(** X15: on an ASCII text, cutting into clauses can only hide risk: no
    clause, and so not the document overall, is rated above the tier the
    whole whitespace-collapsed text would get. *)
Theorem overall_at_most_whole_text (raw : str) :
  forallb is_ascii raw = true →
  ∃ a,
    analyze U detect cfg raw = Some a
    ∧ Forall (λ r, Risk.tier_le r (Risk.risk_analysis U (Clauses.collapse U raw)))
        (risks a)
    ∧ Risk.tier_le (overall a) (Risk.risk_analysis U (Clauses.collapse U raw)).
Proof.
  intros Hascii.
  destruct (analyze_spec raw) as (ct & cf & cs & rs & lg & Hc & Hcs & Hp & Ha).
  destruct (extract_clauses_some raw) as (cs' & Hcs' & _ & Hocc).
  rewrite Hcs in Hcs'. apply (inj Some) in Hcs'. subst cs'.
  destruct (clause_pass_spec cs (Provider.gpt_contract_summary cfg raw []).2)
    as (rs' & lg' & Hp' & _ & Hr & _).
  rewrite Hp in Hp'. apply pair_equal_spec in Hp' as [<- <-].
  eexists. split; [exact Ha|]. cbn [risks overall].
  assert (Hall : Forall (λ r, Risk.tier_le r
                   (Risk.risk_analysis U (Clauses.collapse U raw))) (map r_risk rs)).
  { rewrite Hr, Forall_map. eapply Forall_impl; [exact Hocc|].
    intros c Hc'. cbv beta. apply risk_mono; [|exact Hc'].
    rewrite collapse_squeeze. by apply squeeze_ascii. }
  split; [exact Hall|]. by apply overall_bounded.
Qed.

End PipelineFacts.

Lemma canned_texts_witness :
  ∃ a,
    Pipeline.analyze ascii_only (λ _, None) (Provider.Config false None)
      (u "1. Fees: a penalty applies without notice 2. Term: one year") = Some a
    ∧ Pipeline.summary a = Provider.summary_fallback
    ∧ Forall (λ r, Pipeline.r_explanation r = Provider.explain_fallback
                   ∧ Pipeline.r_suggestion r =
                       if Risk.tier_eqb (Pipeline.r_risk r) Risk.Low
                       then Pipeline.no_suggestion
                       else Provider.suggest_fallback) (Pipeline.rows a).
Proof.
  apply (canned_texts ascii_only (λ _, None) (Provider.Config false None)
           (u "1. Fees: a penalty applies without notice 2. Term: one year")).
  reflexivity.
Defined.

Lemma overall_at_most_whole_text_witness :
  ∃ a,
    Pipeline.analyze ascii_only (λ _, None) (Provider.Config false None)
      (u "1. Fees: a penalty applies 2. Disputes: arbitration 3. Law: the jurisdiction is Delhi")
    = Some a
    ∧ Forall (λ r, Risk.tier_le r
                (Risk.risk_analysis ascii_only
                   (Clauses.collapse ascii_only
                      (u "1. Fees: a penalty applies 2. Disputes: arbitration 3. Law: the jurisdiction is Delhi"))))
        (Pipeline.risks a)
    ∧ Risk.tier_le (Pipeline.overall a)
        (Risk.risk_analysis ascii_only
           (Clauses.collapse ascii_only
              (u "1. Fees: a penalty applies 2. Disputes: arbitration 3. Law: the jurisdiction is Delhi"))).
Proof.
  apply (overall_at_most_whole_text ascii_only (λ _, None) (Provider.Config false None)
    (u "1. Fees: a penalty applies 2. Disputes: arbitration 3. Law: the jurisdiction is Delhi")).
  vm_compute. reflexivity.
Defined.

(** ** The texts of the provider functions *)

Section ProviderFacts.
Import Provider.
Variable cfg : config.

Lemma ask_trimmed (f un p : str) (log : list str) :
  strip is_space f = f → strip is_space un = un →
  strip is_space (ask cfg f un p log).1 = (ask cfg f un p log).1.
Proof.
  intros Hf Hun. unfold ask.
  destruct (USE_GENAI cfg); cbn [negb]; [|exact Hf].
  destruct (client cfg) as [answer|]; [|exact Hf].
  cbn [fst]. destruct (answer log p); [apply strip_idem|exact Hun].
Qed.

(** X16: whatever the provider answers, the summary, the explanation and
    the suggestion returned carry no whitespace at either end, the canned
    sentences included; and each call sends the provider at most its one
    prompt, after those sent before. *)
Theorem provider_texts_trimmed (text : str) (log : list str) :
  Forall (λ r : str * list str,
            strip is_space r.1 = r.1
            ∧ ∃ sent, r.2 = log ++ sent ∧ (length sent ≤ 1)%nat)
    [ gpt_contract_summary cfg text log;
      gpt_explain_clause cfg text log;
      gpt_suggest_alternative cfg text log ].
Proof.
  assert (Hlog : ∀ f un p, ∃ sent,
            (ask cfg f un p log).2 = log ++ sent ∧ (length sent ≤ 1)%nat).
  { intros f un p. rewrite ask_snd. eexists. split; [reflexivity|].
    destruct (live cfg); simpl; lia. }
  repeat constructor; try apply Hlog; apply ask_trimmed; vm_compute; reflexivity.
Qed.

End ProviderFacts.

(** ** The matcher finds every match *)

Section CompletenessFacts.
Variable U : unicode_data.

Lemma last_or_app p (w1 w2 : str) :
  last_or (last_or p w1) w2 = last_or p (w1 ++ w2).
Proof. unfold last_or. rewrite last_app. by destruct (last w2). Qed.

Lemma last_or_cons p c (w : str) : last_or p (c :: w) = last_or (Some c) w.
Proof. unfold last_or. rewrite last_cons. by destruct (last w). Qed.

Lemma last_or_last (before a : str) :
  last_or (last before) a = last (before ++ a).
Proof. unfold last_or. rewrite last_app. by destruct (last a). Qed.

Lemma rep_loop_tracks m lo hi :
  tracks_prev m →
  ∀ fuel k n s x,
    rep_loop m lo hi k fuel n s = Some x →
    ∃ s' w, k s' = Some x ∧ rest s = w ++ rest s'
            ∧ prev s' = last_or (prev s) w.
Proof.
  intros Hm fuel k. induction fuel as [|fuel IH]; intros n s x; simpl.
  - destruct (lo <=? n)%nat; [|discriminate]. intros Hk. by exists s, [].
  - assert (Hleave : (if (lo <=? n)%nat then k s else None) = Some x →
                     ∃ s' w, k s' = Some x ∧ rest s = w ++ rest s'
                             ∧ prev s' = last_or (prev s) w).
    { destruct (lo <=? n)%nat; [|discriminate]. intros Hk. by exists s, []. }
    destruct (upto hi n); [|exact Hleave].
    match goal with
    | |- context [m ?k' s] => destruct (m k' s) as [y|] eqn:Hagain
    end; [|exact Hleave].
    intros [= ->]. apply Hm in Hagain as (s1 & w1 & Hs1 & Hr1 & Hp1).
    destruct (length (rest s1) <? length (rest s))%nat; [|discriminate].
    apply IH in Hs1 as (s' & w2 & Hk & Hr2 & Hp2). exists s', (w1 ++ w2).
    split; [done|]. split.
    + by rewrite Hr1, Hr2, app_assoc.
    + by rewrite Hp2, Hp1, last_or_app.
Qed.

(** The matcher hands on the last character it has read. *)
Lemma rmatch_tracks r : tracks_prev (rmatch U r).
Proof.
  induction r as [|p| | |r1 IH1 r2 IH2|r1 IH1 r2 IH2|lo hi r IH|r IH];
    intros k s x; simpl.
  - intros Hk. by exists s, [].
  - destruct (rest s) as [|c tl] eqn:Hs; [discriminate|].
    destruct (p c); [|discriminate]. intros Hk.
    eexists _, [c]. split; [exact Hk|]. done.
  - destruct (prev s) eqn:Hp; [discriminate|]. intros Hk. exists s, [].
    by rewrite Hp.
  - destruct (xorb _ _); [|discriminate]. intros Hk. by exists s, [].
  - intros H. apply IH1 in H as (s1 & w1 & H & Hr1 & Hp1).
    apply IH2 in H as (s2 & w2 & H & Hr2 & Hp2). exists s2, (w1 ++ w2).
    split; [done|]. split.
    + by rewrite Hr1, Hr2, app_assoc.
    + by rewrite Hp2, Hp1, last_or_app.
  - destruct (rmatch U r1 k s) eqn:H1.
    + intros [= ->]. by apply IH1.
    + by apply IH2.
  - by apply rep_loop_tracks.
  - intros H. apply IH in H as (s1 & w & H & Hr & Hp).
    eexists _, w. split; [exact H|]. done.
Qed.

(** Where a search ends, the character before is the last one of what it
    skipped and matched. *)
Lemma search_prev r :
  ∀ s adv p f,
    search U r adv p s = Some f →
    f_prev f = last_or p (f_pre f ++ f_text f).
Proof.
  induction s as [|c s IH]; intros adv p f; rewrite search_eq;
    (destruct (rmatch _ _ _ _) as [e|] eqn:He;
     [intros Hf; apply (inj Some) in Hf; subst f; cbn [f_prev f_pre f_text app];
      pose proof He as Hw;
      apply first_attempt in Hw as (w & Hs & Htake & _);
      apply rmatch_tracks in He as (s' & w' & Hk & Hr & Hp);
      cbn [rest prev] in Hr, Hp;
      destruct (adv && _); [discriminate|];
      apply (inj Some) in Hk; subst s'; rewrite Htake, Hp;
      rewrite Hs in Hr at 1; apply app_inv_tail in Hr; by subst w'|]).
  - discriminate.
  - destruct (search U r false (Some c) s) as [f'|] eqn:Hs; [|discriminate].
    intros Hf; apply (inj Some) in Hf; subst f. cbn [f_prev f_pre f_text].
    rewrite (IH _ _ _ Hs). cbn [app]. by rewrite last_or_cons.
Qed.

(** A text matched by a pattern that cannot match the empty text is not
    empty. *)
Lemma in_lang_nonempty r :
  nullable r = false → ∀ w, in_lang r w → w ≠ [].
Proof.
  induction r as [|p| | |r1 IH1 r2 IH2|r1 IH1 r2 IH2|lo hi r IH|r IH];
    cbn [nullable in_lang]; intros Hn w; try discriminate.
  - intros (c & -> & _). done.
  - intros (w1 & w2 & -> & H1 & H2) Hnil.
    apply app_eq_nil in Hnil as [-> ->].
    apply andb_false_iff in Hn as [Hn|Hn].
    + by apply (IH1 Hn [] H1).
    + by apply (IH2 Hn [] H2).
  - apply orb_false_iff in Hn as [Hn1 Hn2]. intros [H|H].
    + by apply IH1.
    + by apply IH2.
  - apply orb_false_iff in Hn as [Hlo Hn].
    apply Nat.eqb_neq in Hlo.
    intros (ws & -> & Hall & Hlen & _) Hnil.
    destruct ws as [|w ws]; [simpl in Hlen; lia|].
    cbn [concat] in Hnil. apply app_eq_nil in Hnil as [-> _].
    apply Forall_cons in Hall as [Hw _]. by apply (IH Hn [] Hw).
  - by apply IH.
Qed.

(** The loop of a repeat goes as far as any sequence of turns allowed by
    its bounds, when one turn can be matched whenever there is one. *)
Lemma rep_loop_complete m (W : str → Prop) lo hi k (ahead : str) :
  (∀ w, W w → w ≠ []) →
  (∀ w, W w → ∀ k' ahead',
     (∀ p' g', k' (MState p' ahead' g') ≠ None) →
     ∀ p g, m k' (MState p (w ++ ahead') g) ≠ None) →
  (∀ p' g', k (MState p' ahead g') ≠ None) →
  ∀ ws, Forall W ws →
    ∀ fuel n p g,
      (length (concat ws) ≤ fuel)%nat →
      (lo ≤ n + length ws)%nat →
      (∀ h, hi = Some h → (n + length ws ≤ h)%nat) →
      rep_loop m lo hi k fuel n (MState p (concat ws ++ ahead) g) ≠ None.
Proof.
  intros Hne Hm Hk ws Hall.
  induction Hall as [|w ws Hw Hall IH]; intros fuel n p g Hfuel Hlo Hhi.
  - cbn [concat app length] in *.
    assert (Hleave : (if (lo <=? n)%nat then k (MState p ahead g) else None)
                     ≠ None).
    { destruct (Nat.leb_spec lo n); [apply Hk|lia]. }
    destruct fuel as [|fuel]; cbn [rep_loop]; [exact Hleave|].
    match goal with
    | |- match ?again with _ => _ end ≠ None => destruct again
    end; [done|exact Hleave].
  - pose proof (Hne w Hw) as Hwne.
    cbn [concat length] in *. rewrite length_app in Hfuel.
    destruct fuel as [|fuel]; [destruct w; [done|simpl in Hfuel; lia]|].
    cbn [rep_loop]. cbn [rest].
    assert (Hup : upto hi n = true).
    { destruct hi as [h|]; [|done]. simpl. apply Nat.ltb_lt.
      specialize (Hhi h eq_refl). lia. }
    rewrite Hup, <- app_assoc.
    match goal with
    | |- match m ?k' ?s with _ => _ end ≠ None =>
        assert (Hagain : m k' s ≠ None); [|by destruct (m k' s)]
    end.
    apply Hm; [exact Hw|]. intros p' g'. cbn [rest].
    assert (Hlt : (length (concat ws ++ ahead)
                   <? length (w ++ concat ws ++ ahead))%nat = true).
    { apply Nat.ltb_lt. rewrite (length_app w). destruct w; [done|simpl; lia]. }
    rewrite Hlt. apply IH.
    + destruct w; [done|simpl in Hfuel; lia].
    + lia.
    + intros h Hh. specialize (Hhi h Hh). lia.
Qed.

(** A backtracking matcher misses no match: when some text of the pattern
    stands at the position and the continuation accepts the position after
    it, the match succeeds. *)
Lemma rmatch_complete r :
  plain r = true →
  ∀ w, in_lang r w →
    ∀ k (ahead : str),
      (∀ p' g', k (MState p' ahead g') ≠ None) →
      ∀ p g, rmatch U r k (MState p (w ++ ahead) g) ≠ None.
Proof.
  induction r as [|q| | |r1 IH1 r2 IH2|r1 IH1 r2 IH2|lo hi r IH|r IH];
    cbn [plain in_lang]; intros Hp w Hw k ahead Hk p g; try discriminate.
  - subst w. apply Hk.
  - destruct Hw as (c & -> & Hq). rewrite rmatch_chr. cbn [rest app].
    rewrite Hq. apply Hk.
  - apply andb_true_iff in Hp as [Hp1 Hp2].
    destruct Hw as (w1 & w2 & -> & H1 & H2). rewrite <- app_assoc.
    change (rmatch U (r1 +++ r2) k) with (rmatch U r1 (rmatch U r2 k)).
    apply (IH1 Hp1 w1 H1). intros p' g'. by apply (IH2 Hp2 w2 H2).
  - apply andb_true_iff in Hp as [Hp1 Hp2].
    change (rmatch U (Alt r1 r2) k (MState p (w ++ ahead) g))
      with (match rmatch U r1 k (MState p (w ++ ahead) g) with
            | Some x => Some x
            | None => rmatch U r2 k (MState p (w ++ ahead) g)
            end).
    destruct (rmatch U r1 k (MState p (w ++ ahead) g)) eqn:E1; [done|].
    destruct Hw as [H1|H2].
    + exfalso. by apply (IH1 Hp1 w H1 k ahead Hk p g).
    + by apply (IH2 Hp2 w H2).
  - apply andb_true_iff in Hp as [Hp Hn]. apply negb_true_iff in Hn.
    destruct Hw as (ws & -> & Hall & Hlo & Hhi).
    change (rmatch U (Rep lo hi r) k (MState p (concat ws ++ ahead) g))
      with (rep_loop (rmatch U r) lo hi k (length (concat ws ++ ahead)) 0
              (MState p (concat ws ++ ahead) g)).
    apply (rep_loop_complete _ (in_lang r)); try done.
    + by apply in_lang_nonempty.
    + intros w Hw k' ahead' Hk'. by apply IH.
    + rewrite length_app. lia.
  - change (rmatch U (Group r) k (MState p (w ++ ahead) g))
      with (rmatch U r
              (λ s', k (MState (prev s') (rest s')
                          (Some (take (length (w ++ ahead) - length (rest s'))
                                   (w ++ ahead)))))
              (MState p (w ++ ahead) g)).
    apply IH; [done|done|]. intros p' g'. apply Hk.
Qed.

(** What a search skips holds no match: at no position before the match
    found does the pattern match. *)
Lemma search_skips r :
  ∀ s p f,
    search U r false p s = Some f →
    ∀ a b, f_pre f = a ++ b → b ≠ [] →
           rmatch U r (λ e, Some e)
             (MState (last_or p a) (b ++ f_text f ++ f_rest f) None) = None.
Proof.
  induction s as [|c s IH]; intros p f; rewrite search_eq; cbn [andb];
    (destruct (rmatch _ _ _ _) as [e|] eqn:He;
     [intros Hf; apply (inj Some) in Hf; subst f; cbn [f_pre];
      intros a b Hab Hb; symmetry in Hab;
      apply app_eq_nil in Hab as [_ ->]; done|]).
  - discriminate.
  - destruct (search U r false (Some c) s) as [f'|] eqn:Hs; [|discriminate].
    intros Hf; apply (inj Some) in Hf; subst f. cbn [f_pre f_text f_rest].
    intros a b Hab Hb. destruct a as [|c' a].
    + cbn [app] in Hab. subst b. cbn [app].
      rewrite <- (search_found U _ _ _ _ _ Hs). exact He.
    + cbn [app] in Hab. apply (f_equal tail) in Hab as Htl. cbn [tail] in Htl.
      apply (f_equal head) in Hab. cbn [head] in Hab.
      apply (inj Some) in Hab. subst c'.
      rewrite last_or_cons. by apply IH.
Qed.

(** A search that finds nothing has tried every position. *)
Lemma search_nothing r :
  ∀ s p,
    search U r false p s = None →
    ∀ a b, s = a ++ b →
           rmatch U r (λ e, Some e) (MState (last_or p a) b None) = None.
Proof.
  induction s as [|c s IH]; intros p; rewrite search_eq; cbn [andb];
    (destruct (rmatch _ _ _ _) as [e|] eqn:He; [discriminate|]).
  - intros _ a b Hab. symmetry in Hab. apply app_eq_nil in Hab as [-> ->].
    exact He.
  - destruct (search U r false (Some c) s) as [f'|] eqn:Hs; [discriminate|].
    intros _ a b Hab. destruct a as [|c' a].
    + cbn [app] in Hab. subst b. exact He.
    + cbn [app] in Hab. apply (f_equal tail) in Hab as Htl. cbn [tail] in Htl.
      apply (f_equal head) in Hab. cbn [head] in Hab.
      apply (inj Some) in Hab. subst c'.
      rewrite last_or_cons. by apply IH.
Qed.

End CompletenessFacts.

(** ** Where the headings of a text are *)

Section PinnedSegments.
Import Clauses.
Variable U : unicode_data.

Lemma heading_nonempty (g : str) : in_lang (heading_body U) g → g ≠ [].
Proof. by apply in_lang_nonempty. Qed.

(** Where a heading starts, an attempt of the pattern succeeds. *)
Lemma heading_attempt p (s : str) :
  heading_at U p s →
  rmatch U (pattern U) (λ e, Some e) (MState p s None) ≠ None.
Proof.
  intros (sep & h & tl & -> & Hh & Hsep).
  assert (Hgroup : ∀ p' g',
            rmatch U (Group (heading_body U)) (λ e, Some e)
              (MState p' (h ++ tl) g') ≠ None).
  { intros p' g'. by apply (rmatch_complete U (Group (heading_body U))). }
  change (rmatch U (pattern U) (λ e, Some e) (MState p (sep ++ h ++ tl) None))
    with (match rmatch U Bol (rmatch U (Group (heading_body U)) (λ e, Some e))
                  (MState p (sep ++ h ++ tl) None) with
          | Some x => Some x
          | None => rmatch U (Chr is_space)
                      (rmatch U (Group (heading_body U)) (λ e, Some e))
                      (MState p (sep ++ h ++ tl) None)
          end).
  destruct Hsep as [[-> ->]|(c & -> & Hc)].
  - cbn [rmatch prev app].
    destruct (rmatch U (heading_body U) _ _) eqn:E; [done|].
    exfalso. by apply (Hgroup None None).
  - destruct (rmatch U Bol _ _); [done|].
    rewrite rmatch_chr. cbn [rest app]. rewrite Hc. apply Hgroup.
Qed.

(** One attempt of the heading pattern: what it takes, and where. *)
Lemma attempt_heading k st e :
  rmatch U (pattern U) k st = Some e →
  ∃ sep g s2,
    rest st = sep ++ g ++ rest s2
    ∧ k (MState (prev s2) (rest s2) (Some g)) = Some e
    ∧ ((sep = [] ∧ prev st = None) ∨ ∃ c, sep = [c] ∧ is_space c = true)
    ∧ in_lang (heading_body U) g.
Proof.
  change (rmatch U (pattern U) k st)
    with (match rmatch U Bol (rmatch U (Group (heading_body U)) k) st with
          | Some x => Some x
          | None => rmatch U (Chr is_space)
                      (rmatch U (Group (heading_body U)) k) st
          end).
  set (k' := rmatch U (Group (heading_body U)) k).
  destruct (rmatch U Bol k' st) as [x|] eqn:Hbol.
  - intros Hx; apply (inj Some) in Hx; subst x.
    cbn [rmatch] in Hbol. destruct (prev st) eqn:Hp; [discriminate|].
    apply rmatch_group_sound in Hbol as (g & s2 & Hl & Hg & Hk).
    exists [], g, s2. split; [done|]. split; [done|]. split; [by left|done].
  - clear Hbol. rewrite rmatch_chr.
    destruct (rest st) as [|c tl] eqn:Hst; [discriminate|].
    destruct (is_space c) eqn:Hq; [|discriminate]. intros H.
    apply rmatch_group_sound in H as (g & s2 & Hl & Hg & Hk). cbn [rest] in Hg.
    exists [c], g, s2. split; [by rewrite Hg|]. split; [done|].
    split; [right; by exists c|done].
Qed.

(** What a search of the heading pattern finds: a heading, at the very
    start of the text or after one whitespace character. *)
Lemma search_heading :
  ∀ s adv p f,
    search U (pattern U) adv p s = Some f →
    ∃ sep g,
      f_text f = sep ++ g ∧ f_grp f = Some g
      ∧ in_lang (heading_body U) g
      ∧ ((sep = [] ∧ last_or p (f_pre f) = None)
         ∨ ∃ c, sep = [c] ∧ is_space c = true).
Proof.
  assert (Hfirst : ∀ (adv : bool) p s e,
    rmatch U (pattern U)
      (λ e, if adv && (length (rest e) =? length s)%nat then None else Some e)
      (MState p s None) = Some e →
    ∃ sep g, take (length s - length (rest e)) s = sep ++ g ∧ grp e = Some g
             ∧ in_lang (heading_body U) g
             ∧ ((sep = [] ∧ p = None) ∨ ∃ c, sep = [c] ∧ is_space c = true)).
  { intros adv p s0 e He.
    apply attempt_heading in He as (sep & g & s2 & Hs & Hk & Hsep & Hl).
    cbn [rest prev] in Hs, Hk, Hsep. destruct (adv && _); [discriminate|].
    apply (inj Some) in Hk; subst e. cbn [rest grp].
    exists sep, g. split; [|done].
    rewrite Hs, app_assoc. apply take_suffix_diff. }
  induction s as [|c s IH]; intros adv p f; rewrite search_eq;
    (destruct (rmatch _ _ _ _) as [e|] eqn:He;
     [intros Hf; apply (inj Some) in Hf; subst f; cbn [f_text f_grp f_pre];
      by eapply Hfirst|]).
  - discriminate.
  - destruct (search U _ false (Some c) s) as [f'|] eqn:Hs; [|discriminate].
    intros Hf; apply (inj Some) in Hf; subst f. cbn [f_text f_grp f_pre].
    rewrite last_or_cons. by eapply IH.
Qed.

(** No heading starts in what a search of the heading pattern skips. *)
Lemma search_heading_free (before s : str) p f :
  p = last before →
  search U (pattern U) false p s = Some f →
  heading_free U before (f_pre f) (f_text f ++ f_rest f).
Proof.
  intros -> Hs a b Hab Hb Hat. rewrite <- last_or_last in Hat.
  apply heading_attempt in Hat. apply Hat. by apply (search_skips U _ s).
Qed.

Lemma search_none_free (before s : str) p :
  p = last before →
  search U (pattern U) false p s = None →
  heading_free U before s [].
Proof.
  intros -> Hs a b Hab Hb Hat. rewrite <- last_or_last, app_nil_r in Hat.
  apply heading_attempt in Hat. apply Hat. by apply (search_nothing U _ s).
Qed.

(** The scan after a heading, and the loop over the parts it gives: the
    segments are where the headings are. *)
Lemma scan_segmented :
  ∀ fuel (s : str) p (before sep g : str) fs tl,
    (length s < fuel)%nat →
    p = last (before ++ sep ++ g) →
    in_lang (heading_body U) g →
    ((sep = [] ∧ before = []) ∨ ∃ c, sep = [c] ∧ is_space c = true) →
    scan U (pattern U) fuel false p s = (fs, tl) →
    ∃ segs,
      segs ≠ [] ∧ Forall sep_ok segs
      ∧ clause_loop
          (Some g :: flat_map (λ f, [Some (f_pre f); f_grp f]) fs ++ [Some tl])
        = Some (map seg_clause segs)
      ∧ sep ++ g ++ s = concat (map seg_text segs)
      ∧ segmented U before segs.
Proof.
  induction fuel as [|fuel IH]; intros s p before sep g fs tl Hfuel Hp Hg Hsep;
    [lia|].
  assert (Hok : sep = [] ∨ ∃ c, sep = [c] ∧ is_space c = true).
  { destruct Hsep as [[-> _]|H]; [by left|by right]. }
  rewrite scan_eq. destruct (search U (pattern U) false p s) as [f|] eqn:Hs.
  - destruct (search_heading _ _ _ _ Hs) as (sep' & g' & Htext & Hgrp & Hg' & Hsep').
    pose proof (heading_nonempty g Hg) as Hgne.
    pose proof (heading_nonempty g' Hg') as Hgne'.
    pose proof (search_found U _ _ _ _ _ Hs) as Hfound.
    assert (Htne : f_text f ≠ []).
    { rewrite Htext. intros H. by apply app_eq_nil in H as [_ H]. }
    rewrite (bool_decide_eq_false_2 _ Htne).
    destruct (scan U (pattern U) fuel false (f_prev f) (f_rest f))
      as [fs' tl'] eqn:Hscan.
    intros Hpair. apply pair_equal_spec in Hpair as [<- <-].
    destruct (IH (f_rest f) (f_prev f) (before ++ sep ++ g ++ f_pre f)
                sep' g' fs' tl') as (segs & Hne & Hoks & Hloop & Hcat & Hseg).
    + rewrite Hfound, !length_app in Hfuel.
      destruct (f_text f); [done|]. simpl in Hfuel. lia.
    + rewrite (search_prev U _ _ _ _ _ Hs), Hp, last_or_last, Htext.
      by rewrite <- !app_assoc.
    + exact Hg'.
    + right. destruct Hsep' as [[_ Hnone]|H]; [|exact H].
      exfalso. rewrite Hp, last_or_last in Hnone.
      apply last_None in Hnone.
      apply app_eq_nil in Hnone as [Hnone _].
      apply app_eq_nil in Hnone as [_ Hnone].
      by apply app_eq_nil in Hnone as [_ Hnone].
    + exact Hscan.
    + exists (Segment sep g (f_pre f) :: segs).
      split; [done|]. split; [constructor; [exact Hok|exact Hoks]|].
      split; [|split].
      * cbn [flat_map app]. rewrite clause_loop_pair, Hgrp, Hloop. reflexivity.
      * cbn [map concat]. rewrite <- Hcat. unfold seg_text.
        cbn [s_sep s_heading s_body]. rewrite Hfound, Htext.
        by rewrite <- !app_assoc.
      * cbn [segmented s_sep s_heading s_body]. split; [exact Hsep|].
        split; [exact Hg|]. split; [|exact Hseg].
        rewrite <- Hcat.
        replace (sep' ++ g' ++ f_rest f) with (f_text f ++ f_rest f)
          by (by rewrite Htext, <- app_assoc).
        by apply (search_heading_free _ s p).
  - intros Hpair. apply pair_equal_spec in Hpair as [<- <-].
    exists [Segment sep g s]. split; [done|].
    split; [constructor; [exact Hok|constructor]|].
    split; [reflexivity|]. split.
    + cbn [map concat]. unfold seg_text. cbn [s_sep s_heading s_body].
      by rewrite app_nil_r.
    + cbn [segmented s_sep s_heading s_body map concat].
      split; [exact Hsep|]. split; [exact Hg|]. split; [|done].
      by apply (search_none_free _ s p).
Qed.

(** The two shapes of a segmentation, with where the segments are in the
    collapsed text. *)
Lemma extract_clauses_pinned (T : str) :
  (re_search U (pattern U) (collapse U T) = None
   ∧ heading_free U [] (collapse U T) []
   ∧ extract_clauses U T = Some [Clause (u "General Clause") (collapse U T)])
  ∨ (∃ f segs,
       re_search U (pattern U) (collapse U T) = Some f
       ∧ segs ≠ [] ∧ Forall sep_ok segs
       ∧ collapse U T = f_pre f ++ concat (map seg_text segs)
       ∧ heading_free U [] (f_pre f) (concat (map seg_text segs))
       ∧ segmented U (f_pre f) segs
       ∧ extract_clauses U T = Some (map seg_clause segs)).
Proof.
  unfold extract_clauses, re_split. rewrite pattern_has_group.
  destruct (re_search U (pattern U) (collapse U T)) as [f|] eqn:Hsearch.
  - right. unfold scan_all.
    replace (2 * length (collapse U T) + 2)%nat
      with (S (2 * length (collapse U T) + 1)) by lia.
    unfold re_search in Hsearch. rewrite scan_eq, Hsearch.
    destruct (search_heading _ _ _ _ Hsearch)
      as (sep & g & Htext & Hgrp & Hg & Hsep).
    pose proof (heading_nonempty g Hg) as Hgne.
    pose proof (search_found U _ _ _ _ _ Hsearch) as Hfound.
    assert (Htne : f_text f ≠ []).
    { rewrite Htext. intros H. by apply app_eq_nil in H as [_ H]. }
    rewrite (bool_decide_eq_false_2 _ Htne).
    destruct (scan U (pattern U) _ false (f_prev f) (f_rest f))
      as [fs tl] eqn:Hscan.
    destruct (scan_segmented (2 * length (collapse U T) + 1) (f_rest f)
                (f_prev f) (f_pre f) sep g fs tl)
      as (segs & Hne & Hoks & Hloop & Hcat & Hseg).
    + rewrite Hfound, !length_app. lia.
    + rewrite (search_prev U _ _ _ _ _ Hsearch), Htext.
      unfold last_or. by destruct (last _).
    + exact Hg.
    + destruct Hsep as [[-> Hnone]|H]; [left|by right].
      split; [done|]. unfold last_or in Hnone.
      destruct (last (f_pre f)) eqn:Hl; [discriminate|]. by apply last_None.
    + exact Hscan.
    + exists f, segs. split; [done|]. split; [done|]. split; [done|].
      assert (Hrest : f_text f ++ f_rest f = concat (map seg_text segs)).
      { by rewrite <- Hcat, Htext, <- app_assoc. }
      split; [by rewrite <- Hrest|]. split.
      { rewrite <- Hrest. by apply (search_heading_free _ (collapse U T) None). }
      split; [exact Hseg|].
      cbn [flat_map app drop]. rewrite Hgrp, Hloop. cbn [mbind option_bind].
      destruct segs; [done|reflexivity].
  - left. split; [done|]. split.
    + by apply (search_none_free _ _ None).
    + by rewrite (scan_all_none U _ _ Hsearch).
Qed.

(** C4, amended: segmentation returns a non-empty sequence of clauses, and
    the bodies are the whole collapsed text only when no heading matches:
    then no heading starts anywhere in it and the one clause is the General
    Clause holding it.  Otherwise the collapsed
    text is the text before the first heading, in which no heading starts,
    followed clause by clause by a segment made of at most one whitespace
    character (none only at the very start of the text), the heading, a
    text of the heading pattern, and the body, which runs up to the next
    heading or the end, no heading starting inside it; the clause keeps the
    stripped heading as its title and the stripped body as its text. *)
Theorem segments_reconstruct_text (T : str) :
  ∃ cs,
    extract_clauses U T = Some cs ∧ cs ≠ []
    ∧ ((re_search U (pattern U) (collapse U T) = None
        ∧ heading_free U [] (collapse U T) []
        ∧ cs = [Clause (u "General Clause") (collapse U T)]
        ∧ concat (map text cs) = collapse U T)
       ∨ (∃ f segs,
            re_search U (pattern U) (collapse U T) = Some f
            ∧ segs ≠ [] ∧ Forall sep_ok segs
            ∧ cs = map seg_clause segs
            ∧ collapse U T = f_pre f ++ concat (map seg_text segs)
            ∧ heading_free U [] (f_pre f) (concat (map seg_text segs))
            ∧ segmented U (f_pre f) segs)).
Proof.
  destruct (extract_clauses_pinned T)
    as [(Hnone & Hfree & Hcs)
       |(f & segs & Hsome & Hne & Hok & Htext & Hfree & Hseg & Hcs)].
  - eexists. split; [exact Hcs|]. split; [done|]. left. split; [done|].
    split; [done|]. split; [done|]. cbn [map concat text]. apply app_nil_r.
  - eexists. split; [exact Hcs|]. split; [by destruct segs|].
    right. by exists f, segs.
Qed.

(** C5, amended: when no heading matches, no heading starts anywhere in
    the collapsed text and the one clause, the General Clause holding it,
    has a non-empty text provided the input is not empty.  Otherwise the clauses are those of the
    headed segments of the collapsed text, each running from its heading up
    to the next heading or the end, and a clause has a non-empty text
    exactly when the body of its segment holds a character that is not
    whitespace. *)
Theorem clause_text_nonempty_cases (T : str) :
  ∃ cs,
    extract_clauses U T = Some cs
    ∧ ((re_search U (pattern U) (collapse U T) = None
        ∧ heading_free U [] (collapse U T) []
        ∧ cs = [Clause (u "General Clause") (collapse U T)]
        ∧ (T ≠ [] → Forall (λ c, text c ≠ []) cs))
       ∨ (∃ f segs,
            re_search U (pattern U) (collapse U T) = Some f
            ∧ cs = map seg_clause segs
            ∧ collapse U T = f_pre f ++ concat (map seg_text segs)
            ∧ heading_free U [] (f_pre f) (concat (map seg_text segs))
            ∧ segmented U (f_pre f) segs
            ∧ Forall (λ g, text (seg_clause g) ≠ [] ↔
                           ∃ c, c ∈ s_body g ∧ is_space c = false) segs)).
Proof.
  destruct (extract_clauses_pinned T)
    as [(Hnone & Hfree & Hcs)
       |(f & segs & Hsome & Hne & Hok & Htext & Hfree & Hseg & Hcs)].
  - eexists. split; [exact Hcs|]. left. split; [done|]. split; [done|].
    split; [done|]. intros HT. constructor; [|constructor]. by apply collapse_nonempty.
  - eexists. split; [exact Hcs|]. right. exists f, segs.
    repeat (split; [done|]).
    apply Forall_forall. intros g _. apply strip_not_nil.
Qed.

End PinnedSegments.

Lemma clause_text_nonempty_cases_witness :
  (u "Payment  is due" ≠ []
   ∧ ∃ cs, Clauses.extract_clauses ascii_only (u "Payment  is due") = Some cs
           ∧ Forall (λ c, Clauses.text c ≠ []) cs)
  ∧ ∃ f segs,
      re_search ascii_only (Clauses.pattern ascii_only)
        (Clauses.collapse ascii_only (u "Intro 1. Term: one year 2. Rent:"))
      = Some f
      ∧ f_pre f = u "Intro"
      ∧ map seg_clause segs
        = [Clauses.Clause (u "1. Term") (u "one year");
           Clauses.Clause (u "2. Rent") []]
      ∧ segmented ascii_only (f_pre f) segs
      ∧ Forall (λ g, Clauses.text (seg_clause g) ≠ [] ↔
                     ∃ c, c ∈ s_body g ∧ is_space c = false) segs.
Proof.
  split.
  - split; [discriminate|].
    destruct (clause_text_nonempty_cases ascii_only (u "Payment  is due"))
      as (cs & Hcs & [(_ & _ & _ & Hall)|(f & segs & Hsome & _)]).
    + exists cs. split; [exact Hcs|]. apply Hall. discriminate.
    + exfalso. vm_compute in Hsome. discriminate Hsome.
  - destruct (clause_text_nonempty_cases ascii_only
                (u "Intro 1. Term: one year 2. Rent:"))
      as (cs & Hcs & [(Hnone & _)|(f & segs & Hsome & -> & _ & _ & Hseg & Hall)]).
    + exfalso. vm_compute in Hnone. discriminate Hnone.
    + exists f, segs. split; [exact Hsome|].
      assert (Hrun : Clauses.extract_clauses ascii_only
                       (u "Intro 1. Term: one year 2. Rent:")
                     = Some [Clauses.Clause (u "1. Term") (u "one year");
                             Clauses.Clause (u "2. Rent") []])
        by (vm_compute; reflexivity).
      assert (Hpre : re_search ascii_only (Clauses.pattern ascii_only)
                (Clauses.collapse ascii_only (u "Intro 1. Term: one year 2. Rent:"))
              = Some (Found (u "Intro") (u " 1. Term:") (Some (u "1. Term:"))
                        (Some 58) (u " one year 2. Rent:")))
        by (vm_compute; reflexivity).
      rewrite Hpre in Hsome. apply (inj Some) in Hsome. subst f.
      rewrite Hrun in Hcs. apply (inj Some) in Hcs.
      split; [reflexivity|]. split; [by rewrite <- Hcs|]. split; [exact Hseg|exact Hall].
Defined.

(** ** The segments are determined *)

Section DeterminedSegments.
Import Clauses.
Variable U : unicode_data.

(** A run of [q]-characters ends where the first other character stands. *)
Lemma run_stop (q : N → bool) (xs : str) :
  ∀ (ys : str) c d (t t' : str),
    Forall (λ x, q x = true) xs → Forall (λ x, q x = true) ys →
    q c = false → q d = false →
    xs ++ c :: t = ys ++ d :: t' →
    xs = ys ∧ c = d ∧ t = t'.
Proof.
  induction xs as [|x xs IH]; intros [|y ys] c d t t' Hxs Hys Hc Hd; cbn [app].
  - intros H. apply (f_equal head) in H as Hh. apply (f_equal tail) in H.
    cbn [head tail] in *. apply (inj Some) in Hh. by subst.
  - intros H. apply (f_equal head) in H. cbn [head] in H.
    apply (inj Some) in H. subst y.
    apply Forall_cons in Hys as [Hy _]. congruence.
  - intros H. apply (f_equal head) in H. cbn [head] in H.
    apply (inj Some) in H. subst x.
    apply Forall_cons in Hxs as [Hx _]. congruence.
  - intros H. apply (f_equal head) in H as Hh. apply (f_equal tail) in H.
    cbn [head tail] in *. apply (inj Some) in Hh. subst y.
    apply Forall_cons in Hxs as [_ Hxs]. apply Forall_cons in Hys as [_ Hys].
    destruct (IH ys c d t t' Hxs Hys Hc Hd H) as (-> & -> & ->). done.
Qed.

Lemma dot_or_paren_not_digit p : dot_or_paren p = true → is_digit U p = false.
Proof.
  unfold dot_or_paren. rewrite orb_true_iff, !N.eqb_eq. by intros [->| ->].
Qed.

Lemma space_cases c : is_space c = true → c ≤ 32 ∨ 133 ≤ c.
Proof.
  unfold is_space, in_range.
  rewrite !orb_true_iff, !andb_true_iff, !N.leb_le, !N.eqb_eq. lia.
Qed.

Lemma AZ_not_space A : is_AZ A = true → is_space A = false.
Proof.
  unfold is_AZ, in_range. rewrite andb_true_iff, !N.leb_le. intros [H1 H2].
  destruct (is_space A) eqn:E; [|done]. apply space_cases in E. lia.
Qed.

(** At a position at most one text of the heading pattern starts. *)
Lemma heading_prefix_unique (h1 h2 t1 t2 : str) :
  in_lang (heading_body U) h1 → in_lang (heading_body U) h2 →
  h1 ++ t1 = h2 ++ t2 → h1 = h2 ∧ t1 = t2.
Proof.
  intros H1 H2.
  apply heading_title in H1
    as (ds1 & p1 & sp1 & A1 & ls1 & -> & _ & _ & Hds1 & Hp1 & Hsp1 & HA1 & _ & Hls1).
  apply heading_title in H2
    as (ds2 & p2 & sp2 & A2 & ls2 & -> & _ & _ & Hds2 & Hp2 & Hsp2 & HA2 & _ & Hls2).
  rewrite <- !app_assoc. cbn [app]. intros H.
  apply run_stop with (q := is_digit U) in H as (-> & -> & H);
    [|done|done|by apply dot_or_paren_not_digit..].
  apply run_stop with (q := is_space) in H as (-> & -> & H);
    [|done|done|by apply AZ_not_space..].
  apply run_stop with (q := letter_or_space) in H as (-> & _ & ->);
    [done|done|done|reflexivity..].
Qed.

Variable digits_not_space : ∀ c, is_digit U c = true → is_space c = false.

(** At a position at most one heading starts, and in one way. *)
Lemma heading_at_unique (p : option N) (sep1 h1 tl1 sep2 h2 tl2 : str) :
  sep1 ++ h1 ++ tl1 = sep2 ++ h2 ++ tl2 →
  in_lang (heading_body U) h1 → in_lang (heading_body U) h2 →
  (sep1 = [] ∧ p = None) ∨ (∃ c, sep1 = [c] ∧ is_space c = true) →
  (sep2 = [] ∧ p = None) ∨ (∃ c, sep2 = [c] ∧ is_space c = true) →
  sep1 = sep2 ∧ h1 = h2 ∧ tl1 = tl2.
Proof.
  intros H H1 H2 Hs1 Hs2.
  assert (Hhead : ∀ h c (t t' : str),
            in_lang (heading_body U) h → is_space c = true →
            h ++ t = c :: t' → False).
  { intros h c t t' Hh Hc Heq.
    apply heading_title in Hh as (ds & ? & ? & ? & ? & -> & _ & Hne & Hds & _).
    destruct ds as [|d ds]; [done|]. cbn [app] in Heq.
    apply (f_equal head) in Heq. cbn [head] in Heq. apply (inj Some) in Heq.
    subst d. apply Forall_cons in Hds as [Hd _].
    apply digits_not_space in Hd. congruence. }
  destruct Hs1 as [[-> _]|(c1 & -> & Hc1)], Hs2 as [[-> _]|(c2 & -> & Hc2)];
    cbn [app] in H.
  - by destruct (heading_prefix_unique _ _ _ _ H1 H2 H) as [-> ->].
  - exfalso. by eapply (Hhead h1 c2).
  - exfalso. symmetry in H. by eapply (Hhead h2 c1).
  - apply (f_equal head) in H as Hh. apply (f_equal tail) in H.
    cbn [head tail] in *. apply (inj Some) in Hh. subst c2.
    by destruct (heading_prefix_unique _ _ _ _ H1 H2 H) as [-> ->].
Qed.

(** Headed segments begin with a heading. *)
Lemma segmented_heading_at (before : str) g (segs : list segment) :
  segmented U before (g :: segs) →
  heading_at U (last before) (concat (map seg_text (g :: segs))).
Proof.
  cbn [segmented map concat]. intros (Hsep & Hh & _ & _).
  exists (s_sep g), (s_heading g), (s_body g ++ concat (map seg_text segs)).
  split; [unfold seg_text; by rewrite <- !app_assoc|]. split; [done|].
  destruct Hsep as [[-> ->]|H]; [by left|by right].
Qed.

Lemma segmented_text_nonempty (before : str) g (segs : list segment) :
  segmented U before (g :: segs) → concat (map seg_text (g :: segs)) ≠ [].
Proof.
  cbn [segmented map concat]. intros (_ & Hh & _ & _) H.
  apply heading_nonempty in Hh. unfold seg_text in H.
  apply app_eq_nil in H as [H _]. apply app_eq_nil in H as [_ H].
  by apply app_eq_nil in H as [H _].
Qed.

(** The text fixes its headed segments: two ways to cut it that put every
    heading at the start of a segment are the same. *)
Lemma segmented_determined (segs1 : list segment) :
  ∀ (before x1 x2 : str) segs2,
    x1 ++ concat (map seg_text segs1) = x2 ++ concat (map seg_text segs2) →
    heading_free U before x1 (concat (map seg_text segs1)) →
    heading_free U before x2 (concat (map seg_text segs2)) →
    segmented U (before ++ x1) segs1 → segmented U (before ++ x2) segs2 →
    x1 = x2 ∧ segs1 = segs2.
Proof.
  assert (Hcross : ∀ (before x1 x2 l : str) sa sb,
            l ≠ [] → x1 = x2 ++ l →
            concat (map seg_text sb) = l ++ concat (map seg_text sa) →
            heading_free U before x1 (concat (map seg_text sa)) →
            segmented U (before ++ x2) sb → False).
  { intros before x1 x2 l sa sb Hl Hx Hr Hfree Hseg.
    destruct sb as [|g2 sb].
    - cbn [map concat] in Hr. symmetry in Hr.
      by apply app_eq_nil in Hr as [Hr _].
    - apply segmented_heading_at in Hseg. rewrite Hr in Hseg.
      by apply (Hfree x2 l). }
  induction segs1 as [|g1 segs1 IH]; intros before x1 x2 segs2 Heq Hf1 Hf2 Hs1 Hs2.
  - cbn [map concat] in *. rewrite app_nil_r in Heq.
    destruct segs2 as [|g2 segs2]; [by rewrite app_nil_r in Heq|].
    exfalso. apply (Hcross before x1 x2 (concat (map seg_text (g2 :: segs2)))
                      [] (g2 :: segs2)); try done.
    + by eapply segmented_text_nonempty.
    + cbn [map concat]. by rewrite app_nil_r.
  - assert (Hx : x1 = x2).
    { apply app_eq_inv in Heq as [(l & Hx & Hr)|(l & Hx & Hr)].
      - destruct l as [|c l]; [by rewrite app_nil_r in Hx|].
        exfalso. by apply (Hcross before x1 x2 (c :: l) (g1 :: segs1) segs2).
      - destruct l as [|c l]; [by rewrite app_nil_r in Hx|].
        exfalso. by apply (Hcross before x2 x1 (c :: l) segs2 (g1 :: segs1)). }
    subst x2. split; [done|]. apply app_inv_head in Heq.
    destruct segs2 as [|g2 segs2].
    { exfalso. symmetry in Heq. by eapply segmented_text_nonempty. }
    cbn [segmented] in Hs1, Hs2.
    destruct Hs1 as (Hsep1 & Hh1 & Hfree1 & Hrest1).
    destruct Hs2 as (Hsep2 & Hh2 & Hfree2 & Hrest2).
    cbn [map concat] in Heq. unfold seg_text at 1 3 in Heq.
    rewrite <- !app_assoc in Heq.
    assert (Hctx : ∀ sep : str,
              (sep = [] ∧ before ++ x1 = []) ∨ (∃ c, sep = [c] ∧ is_space c = true) →
              (sep = [] ∧ last (before ++ x1) = None)
              ∨ (∃ c, sep = [c] ∧ is_space c = true)).
    { intros sep [[-> ->]|H]; [by left|by right]. }
    destruct (heading_at_unique (last (before ++ x1)) _ _ _ _ _ _ Heq Hh1 Hh2
                (Hctx _ Hsep1) (Hctx _ Hsep2)) as (Es & Eh & Et).
    destruct g1 as [sep1 h1 b1], g2 as [sep2 h2 b2].
    cbn [s_sep s_heading s_body] in *. subst sep2 h2.
    destruct (IH (before ++ x1 ++ sep1 ++ h1) b1 b2 segs2) as [-> ->]; try done.
    + by rewrite <- !app_assoc in Hfree1.
    + by rewrite <- !app_assoc in Hfree2.
    + unfold seg_text in Hrest1. cbn [s_sep s_heading s_body] in Hrest1.
      rewrite <- !app_assoc in Hrest1. rewrite <- !app_assoc. exact Hrest1.
    + unfold seg_text in Hrest2. cbn [s_sep s_heading s_body] in Hrest2.
      rewrite <- !app_assoc in Hrest2. rewrite <- !app_assoc. exact Hrest2.
Qed.

(** The clauses are those of the one way to cut the collapsed text at its
    headings. *)
Lemma clauses_determined (T pre : str) (segs : list segment) :
  segs ≠ [] →
  collapse U T = pre ++ concat (map seg_text segs) →
  heading_free U [] pre (concat (map seg_text segs)) →
  segmented U pre segs →
  extract_clauses U T = Some (map seg_clause segs).
Proof.
  intros Hne Htext Hfree Hseg.
  destruct (extract_clauses_pinned U T)
    as [(_ & Hnone & _)
       |(f & segs' & _ & _ & _ & Htext' & Hfree' & Hseg' & Hcs)].
  - exfalso. destruct segs as [|g segs]; [done|].
    apply (Hnone pre (concat (map seg_text (g :: segs)))).
    + exact Htext.
    + by eapply segmented_text_nonempty.
    + rewrite app_nil_r. by apply segmented_heading_at.
  - rewrite Htext in Htext'.
    destruct (segmented_determined segs [] pre (f_pre f) segs' Htext'
                Hfree Hfree' Hseg Hseg') as [_ ->].
    exact Hcs.
Qed.

End DeterminedSegments.

(** The digits of the database without non-ASCII digits are no
    whitespace. *)
Lemma ascii_only_digits_not_space c :
  is_digit ascii_only c = true → is_space c = false.
Proof.
  unfold is_digit, ascii_only, uni_decimal.
  destruct (is_ascii c); [|discriminate].
  unfold is_09, in_range. rewrite andb_true_iff, !N.leb_le. intros [H1 H2].
  destruct (is_space c) eqn:E; [|done]. apply space_cases in E. lia.
Qed.
